(** * The reactivity core of vue2 (observer/dep.js, observer/watcher.js,
      observer/index.js, observer/array.js), embedded in Rocq.

    Dep and Watcher objects are identified with their [id]s; the process-wide
    variables ([Dep.target], [targetStack], the two [uid] counters,
    [shouldObserve], [config.async]) are fields of one explicit state that
    every method threads through.  User supplied functions (a watcher's getter
    and callback, accessors found on observed data, the scheduler, the native
    array methods) are arbitrary computations taken from an environment. *)

From stdpp Require Import gmap strings list sorting pretty.
From Stdlib Require Import QArith.QArith Qround Qabs.

Local Open Scope nat_scope.

(** ** JavaScript values *)

(** Numbers: finite ones as rationals, the two infinities and NaN. *)
Inductive num :=
| NaN
| Inf (negative : bool)
| Fin (q : Q).

Inductive value :=
| VUndefined
| VNull
| VBool (b : bool)
| VNum (n : num)
| VStr (s : string)
| VSym (n : nat)
| VRef (a : nat).               (* an object, an array or a function *)

Definition num_eq (a b : num) : bool :=
  match a, b with
  | Fin p, Fin q => Qeq_bool p q
  | Inf x, Inf y => bool_decide (x = y)
  | _, _ => false
  end.

(** [a === b] *)
Definition strict_eq (a b : value) : bool :=
  match a, b with
  | VUndefined, VUndefined => true
  | VNull, VNull => true
  | VBool x, VBool y => bool_decide (x = y)
  | VNum x, VNum y => num_eq x y
  | VStr x, VStr y => bool_decide (x = y)
  | VSym x, VSym y => bool_decide (x = y)
  | VRef x, VRef y => bool_decide (x = y)
  | _, _ => false
  end.

(** [a !== b] *)
Definition strict_ne (a b : value) : bool := negb (strict_eq a b).

(** shared/util.js *)
Definition isUndef (v : value) : bool :=
  match v with VUndefined | VNull => true | _ => false end.

Definition isPrimitive (v : value) : bool :=
  match v with VStr _ | VNum _ | VSym _ | VBool _ => true | _ => false end.

(** ** Dep and Watcher objects *)

Record Watcher := mkWatcher {
  w_vm : nat;
  w_deep : bool;
  w_user : bool;
  w_lazy : bool;
  w_sync : bool;
  w_dirty : bool;
  w_active : bool;
  w_deps : list nat;
  w_newDeps : list nat;
  w_depIds : gset nat;
  w_newDepIds : gset nat;
  w_before : option nat;
  w_value : value
}.

(** What a watcher id denotes before any constructor ran for it. *)
Definition blank_watcher : Watcher :=
  mkWatcher 0 false false false false false false [] [] ∅ ∅ None VUndefined.

(** The fields of a component instance that watcher.js touches. *)
Record Vm := mkVm {
  vm_watcher : option nat;
  vm_watchers : list nat;
  vm_isBeingDestroyed : bool
}.

Definition blank_vm : Vm := mkVm None [] false.

(** The part of the process state that dep.js and watcher.js own. *)
Record DepState := mkDepState {
  subs : gmap nat (list nat);        (* Dep id ↦ its [subs] array *)
  dep_uid : nat;                     (* [uid] of dep.js *)
  watchers : gmap nat Watcher;
  watcher_uid : nat;                 (* [uid] of watcher.js *)
  target : option nat;               (* [Dep.target] *)
  targetStack : list (option nat);
  vms : gmap nat Vm
}.

Definition init_deps : DepState := mkDepState ∅ 0 ∅ 0 None [] ∅.

Definition subs_of (c : DepState) (d : nat) : list nat :=
  default [] (subs c !! d).

Definition watcher (c : DepState) (w : nat) : Watcher :=
  default blank_watcher (watchers c !! w).

Definition vm_of (c : DepState) (v : nat) : Vm :=
  default blank_vm (vms c !! v).

Definition set_subs (d : nat) (l : list nat) (c : DepState) : DepState :=
  mkDepState (<[d := l]> (subs c)) (dep_uid c) (watchers c) (watcher_uid c)
             (target c) (targetStack c) (vms c).

Definition set_watcher (w : nat) (W : Watcher) (c : DepState) : DepState :=
  mkDepState (subs c) (dep_uid c) (<[w := W]> (watchers c)) (watcher_uid c)
             (target c) (targetStack c) (vms c).

Definition set_vm (v : nat) (V : Vm) (c : DepState) : DepState :=
  mkDepState (subs c) (dep_uid c) (watchers c) (watcher_uid c)
             (target c) (targetStack c) (<[v := V]> (vms c)).

Definition set_targets (t : option nat) (st : list (option nat)) (c : DepState)
  : DepState :=
  mkDepState (subs c) (dep_uid c) (watchers c) (watcher_uid c) t st (vms c).

(** *** shared/util.js: [remove] *)

(** [arr.indexOf(item)], [None] standing for -1. *)
Fixpoint indexOf (arr : list nat) (item : nat) : option nat :=
  match arr with
  | [] => None
  | x :: rest =>
      if decide (x = item) then Some 0 else S <$> indexOf rest item
  end.

(** [remove(arr, item)]: [arr.splice(index, 1)] at the first occurrence. *)
Definition remove (arr : list nat) (item : nat) : list nat :=
  if decide (length arr = 0) then arr
  else match indexOf arr item with
       | Some index => delete index arr
       | None => arr
       end.

(** *** dep.js *)

(** [new Dep()]: [this.id = uid++; this.subs = []]. Returns the id. *)
Definition new_Dep (c : DepState) : nat * DepState :=
  let id := dep_uid c in
  (id, mkDepState (<[id := []]> (subs c)) (S id) (watchers c) (watcher_uid c)
                  (target c) (targetStack c) (vms c)).

Definition addSub (d sub : nat) (c : DepState) : DepState :=
  set_subs d (subs_of c d ++ [sub]) c.

Definition removeSub (d sub : nat) (c : DepState) : DepState :=
  set_subs d (remove (subs_of c d) sub) c.

Definition pushTarget (t : option nat) (c : DepState) : DepState :=
  set_targets t (targetStack c ++ [t]) c.

(** [targetStack.pop(); Dep.target = targetStack[targetStack.length - 1]] *)
Definition popTarget (c : DepState) : DepState :=
  let st := removelast (targetStack c) in
  set_targets (mjoin (last st)) st c.

(** *** watcher.js: the dependency bookkeeping *)

Definition addDep (w d : nat) (c : DepState) : DepState :=
  let W := watcher c w in
  if decide (d ∈ w_newDepIds W) then c
  else
    let W' := mkWatcher (w_vm W) (w_deep W) (w_user W) (w_lazy W) (w_sync W)
                (w_dirty W) (w_active W) (w_deps W) (w_newDeps W ++ [d])
                (w_depIds W) ({[d]} ∪ w_newDepIds W) (w_before W) (w_value W) in
    let c' := set_watcher w W' c in
    if decide (d ∈ w_depIds W) then c' else addSub d w c'.

(** [dep.depend()] *)
Definition depend (d : nat) (c : DepState) : DepState :=
  match target c with
  | Some w => addDep w d c
  | None => c
  end.

(** The [while (i--)] loop of [cleanupDeps]: the old deps, last one first. *)
Definition cleanup_loop (w : nat) (new_ids : gset nat) (old : list nat)
    (c : DepState) : DepState :=
  foldl (λ c d, if decide (d ∈ new_ids) then c else removeSub d w c)
        c (reverse old).

Definition cleanupDeps (w : nat) (c : DepState) : DepState :=
  let W := watcher c w in
  let c1 := cleanup_loop w (w_newDepIds W) (w_deps W) c in
  let W1 := watcher c1 w in
  (* depIds <- newDepIds, newDepIds cleared; deps <- newDeps, newDeps emptied *)
  set_watcher w
    (mkWatcher (w_vm W1) (w_deep W1) (w_user W1) (w_lazy W1) (w_sync W1)
       (w_dirty W1) (w_active W1) (w_newDeps W1) [] (w_newDepIds W1) ∅
       (w_before W1) (w_value W1)) c1.

(** [watcher.depend()] *)
Definition watcher_depend (w : nat) (c : DepState) : DepState :=
  foldl (λ c d, depend d c) c (reverse (w_deps (watcher c w))).

Definition set_active (b : bool) (W : Watcher) : Watcher :=
  mkWatcher (w_vm W) (w_deep W) (w_user W) (w_lazy W) (w_sync W)
    (w_dirty W) b (w_deps W) (w_newDeps W) (w_depIds W) (w_newDepIds W)
    (w_before W) (w_value W).

Definition set_dirty (b : bool) (W : Watcher) : Watcher :=
  mkWatcher (w_vm W) (w_deep W) (w_user W) (w_lazy W) (w_sync W)
    b (w_active W) (w_deps W) (w_newDeps W) (w_depIds W) (w_newDepIds W)
    (w_before W) (w_value W).

Definition set_value (v : value) (W : Watcher) : Watcher :=
  mkWatcher (w_vm W) (w_deep W) (w_user W) (w_lazy W) (w_sync W)
    (w_dirty W) (w_active W) (w_deps W) (w_newDeps W) (w_depIds W)
    (w_newDepIds W) (w_before W) v.

Definition teardown (w : nat) (c : DepState) : DepState :=
  let W := watcher c w in
  if w_active W then
    let V := vm_of c (w_vm W) in
    let c1 :=
      if vm_isBeingDestroyed V then c
      else set_vm (w_vm W)
             (mkVm (vm_watcher V) (remove (vm_watchers V) w)
                   (vm_isBeingDestroyed V)) c in
    let c2 := foldl (λ c d, removeSub d w c) c1 (reverse (w_deps W)) in
    set_watcher w (set_active false (watcher c2 w)) c2
  else c.

(** The constructor's options object. *)
Record WatcherOptions := mkOptions {
  o_deep : bool;
  o_user : bool;
  o_lazy : bool;
  o_sync : bool;
  o_before : option nat
}.

(** The constructor of [Watcher], up to and excluding the initial
    [this.value = this.lazy ? undefined : this.get()]. Returns the new id.
    (The getter made from [expOrFn] is in the environment, under this id.) *)
Definition construct (vm : nat) (options : option WatcherOptions)
    (isRenderWatcher : bool) (c : DepState) : nat * DepState :=
  let V := vm_of c vm in
  let id := S (watcher_uid c) in                       (* ++uid *)
  let V1 := mkVm (if isRenderWatcher then Some id else vm_watcher V)
                 (vm_watchers V ++ [id]) (vm_isBeingDestroyed V) in
  let o := default (mkOptions false false false false None) options in
  let W := mkWatcher vm (o_deep o) (o_user o) (o_lazy o) (o_sync o)
             (o_lazy o) true [] [] ∅ ∅
             (match options with Some x => o_before x | None => None end)
             VUndefined in
  (id, mkDepState (subs c) (dep_uid c) (<[id := W]> (watchers c)) id
                  (target c) (targetStack c) (<[vm := V1]> (vms c))).

(** ** The operations on the Dep/Watcher state *)

(** The calls that change the Dep/Watcher state, one constructor each.
    [addSub] is not among them: in the sources it is called by [addDep]
    only. *)

(** A watcher id refers to an object once its constructor ran. *)
Definition allocated (c : DepState) (w : nat) : Prop :=
  1 ≤ w ∧ w ≤ watcher_uid c.

Global Instance allocated_dec c w : Decision (allocated c w).
Proof. unfold allocated. apply _. Defined.

Definition target_ok (c : DepState) (t : option nat) : Prop :=
  match t with Some w => allocated c w | None => True end.

Global Instance target_ok_dec c t : Decision (target_ok c t).
Proof. destruct t; simpl; apply _. Defined.

Inductive op :=
| ONewDep
| ONewWatcher (vm : nat) (options : option WatcherOptions) (isRender : bool)
| OPushTarget (t : option nat)
| OPopTarget
| ODepend (d : nat)
| OAddDep (w d : nat)
| OCleanupDeps (w : nat)
| OWatcherDepend (w : nat)
| OTeardown (w : nat)
| OSetDirty (w : nat) (b : bool)
| OSetValue (w : nat) (v : value)
| OSetVm (v : nat) (V : Vm)
| ORemoveSub (d sub : nat).

(** Method calls on a watcher that was never constructed do not happen. *)
Definition on_watcher (w : nat) (f : DepState → DepState) (c : DepState)
  : DepState :=
  if decide (allocated c w) then f c else c.

Definition run_op (o : op) (c : DepState) : DepState :=
  match o with
  | ONewDep => (new_Dep c).2
  | ONewWatcher vm options isRender => (construct vm options isRender c).2
  | OPushTarget t => if decide (target_ok c t) then pushTarget t c else c
  | OPopTarget => popTarget c
  | ODepend d => depend d c
  | OAddDep w d => on_watcher w (addDep w d) c
  | OCleanupDeps w => on_watcher w (cleanupDeps w) c
  | OWatcherDepend w => on_watcher w (watcher_depend w) c
  | OTeardown w => on_watcher w (teardown w) c
  | OSetDirty w b =>
      on_watcher w (λ c, set_watcher w (set_dirty b (watcher c w)) c) c
  | OSetValue w v =>
      on_watcher w (λ c, set_watcher w (set_value v (watcher c w)) c) c
  | OSetVm v V => set_vm v V c
  | ORemoveSub d sub => removeSub d sub c
  end.

Definition run_ops (ops : list op) (c : DepState) : DepState :=
  foldl (λ c o, run_op o c) c ops.

(** The invariant of the subscription graph. *)
Record Inv (c : DepState) : Prop := {
  inv_nodup : ∀ d, NoDup (subs_of c d);
  inv_subscribed : ∀ d w, w ∈ subs_of c d →
    d ∈ w_depIds (watcher c w) ∨ d ∈ w_newDepIds (watcher c w);
  inv_depIds : ∀ w d, d ∈ w_depIds (watcher c w) ↔ d ∈ w_deps (watcher c w);
  inv_newDepIds : ∀ w d,
    d ∈ w_newDepIds (watcher c w) ↔ d ∈ w_newDeps (watcher c w);
  inv_fresh : ∀ w, ¬ allocated c w → watchers c !! w = None;
  inv_target : target_ok c (target c);
  inv_stack : ∀ t, t ∈ targetStack c → target_ok c t
}.


(** The part of the state a loop of [removeSub] calls leaves alone. *)
Definition same_watchers (c c' : DepState) : Prop :=
  watchers c' = watchers c ∧ watcher_uid c' = watcher_uid c ∧
  dep_uid c' = dep_uid c ∧ target c' = target c ∧
  targetStack c' = targetStack c ∧ vms c' = vms c.


Definition same_bookkeeping (W W' : Watcher) : Prop :=
  w_deps W' = w_deps W ∧ w_newDeps W' = w_newDeps W ∧
  w_depIds W' = w_depIds W ∧ w_newDepIds W' = w_newDepIds W.


(** One step of the [while (i--)] loops of [cleanupDeps] and [teardown]. *)
Definition removal_step (w : nat) (keep : gset nat) (c : DepState) (d : nat)
  : DepState :=
  if decide (d ∈ keep) then c else removeSub d w c.

(** ** Observed data: objects, observers and reactive properties *)

(** What a property holds. *)
Inductive slot :=
| SData (v : value)                         (* a data property *)
| SObserver (o : nat)                       (* a data property holding an Observer *)
| SAccessor (getter setter : option nat)    (* get/set functions of the user *)
| SReactive (cell : nat).                   (* the pair installed by defineReactive *)

Record property := mkProp {
  p_slot : slot;
  p_writable : bool;
  p_enumerable : bool;
  p_configurable : bool
}.

(** Objects, arrays and functions. [_isVue] and what the prototype tells
    are kept as fields. *)
Record Obj := mkObj {
  o_callable : bool;         (* typeof is 'function' *)
  o_array : bool;            (* Array.isArray *)
  o_plain : bool;            (* Object.prototype.toString gives [object Object] *)
  o_vnode : bool;            (* instanceof VNode *)
  o_isVue : bool;            (* value._isVue is truthy *)
  o_extensible : bool;       (* Object.isExtensible *)
  o_augmented : bool;        (* the intercepted array methods are in place *)
  o_keys : list string;      (* own property names, in creation order *)
  o_props : gmap string property;
  o_elems : list value       (* the elements of an array *)
}.

Definition blank_obj : Obj :=
  mkObj false false true false false true false [] ∅ [].

Record Observer := mkObserver {
  ob_value : nat;
  ob_dep : nat;
  ob_vmCount : nat
}.

(** A getter or setter found on a property: a function of the user, or one
    of the two closures of an earlier [defineReactive] call. *)
Inductive fnref :=
| FUser (f : nat)
| FReactive (cell : nat).

(** The variables that the closures made by one [defineReactive] call share. *)
Record Cell := mkCell {
  c_obj : nat;
  c_dep : nat;
  c_val : value;
  c_childOb : option nat;            (* [false] and [undefined] are [None] *)
  c_getter : option fnref;
  c_setter : option fnref;
  c_customSetter : option nat;
  c_shallow : bool
}.

Definition blank_cell : Cell := mkCell 0 0 VUndefined None None None None false.

Record Heap := mkHeap {
  objects : gmap nat Obj;
  observers : gmap nat Observer;
  observer_uid : nat;
  cells : gmap nat Cell;
  cell_uid : nat;
  shouldObserve : bool
}.

Definition obj_of (h : Heap) (a : nat) : Obj :=
  default blank_obj (objects h !! a).

(** [obj !== null && typeof obj === 'object'] *)
Definition isObject (h : Heap) (v : value) : bool :=
  match v with VRef a => negb (o_callable (obj_of h a)) | _ => false end.

Definition init_heap : Heap := mkHeap ∅ ∅ 0 ∅ 0 true.

Inductive exn :=
| TypeError
| RangeError
| UserError (n : nat).

(** What reaches the diagnostic sinks. *)
Inductive event :=
| EWarn (msg : string)
| EHandleError (e : exn) (vm : nat) (info : string).

(** ** The process state and the monad of methods *)

Record state := mkState {
  deps : DepState;
  heap : Heap;
  config_async : bool;
  log : list event
}.

Definition init : state := mkState init_deps init_heap true [].

Definition with_deps (f : DepState → DepState) (s : state) : state :=
  mkState (f (deps s)) (heap s) (config_async s) (log s).

Definition with_heap (f : Heap → Heap) (s : state) : state :=
  mkState (deps s) (f (heap s)) (config_async s) (log s).

Definition with_log (e : event) (s : state) : state :=
  mkState (deps s) (heap s) (config_async s) (log s ++ [e]).

(** A call returns, throws, or exhausts the recursion budget of the model. *)
Inductive outcome (A : Type) :=
| Ok (a : A)
| Throw (e : exn)
| OutOfFuel.
Arguments Ok {A} a.
Arguments Throw {A} e.
Arguments OutOfFuel {A}.

Definition M (A : Type) : Type := state → outcome A * state.

Definition ret {A} (a : A) : M A := λ s, (Ok a, s).

Definition throw {A} (e : exn) : M A := λ s, (Throw e, s).

Definition bind {A B} (m : M A) (k : A → M B) : M B :=
  λ s, match m s with
       | (Ok a, s') => k a s'
       | (Throw e, s') => (Throw e, s')
       | (OutOfFuel, s') => (OutOfFuel, s')
       end.

Global Instance M_ret : MRet M := @ret.
Global Instance M_bind : MBind M := λ A B k m, bind m k.

Definition read {A} (f : state → A) : M A := λ s, (Ok (f s), s).

Definition update_deps (f : DepState → DepState) : M unit :=
  λ s, (Ok tt, with_deps f s).

Definition update_heap (f : Heap → Heap) : M unit :=
  λ s, (Ok tt, with_heap f s).

Definition emit (e : event) : M unit := λ s, (Ok tt, with_log e s).

Definition when (b : bool) (m : M unit) : M unit := if b then m else ret tt.

(** [for (...) body(x)] over a fixed sequence. *)
Fixpoint for_each {A} (l : list A) (body : A → M unit) : M unit :=
  match l with
  | [] => ret tt
  | x :: rest => body x ;; for_each rest body
  end.

(** [let value; try { value = body() } catch (e) { handler(e) }
     finally { final(value) }; return value] *)
Definition try_catch_finally (body : M value) (handler : exn → M unit)
    (final : value → M unit) : M value :=
  λ s,
    let '(r, s1) := body s in
    let value := match r with Ok v => v | _ => VUndefined end in
    (* the completion of the try and catch blocks *)
    let '(c, s2) :=
      match r with
      | Ok _ => (Ok tt, s1)
      | Throw e => handler e s1
      | OutOfFuel => (OutOfFuel, s1)
      end in
    match c with
    | OutOfFuel => (OutOfFuel, s2)
    | _ =>
        match final value s2 with
        | (Ok _, s3) =>
            (match c with Ok _ => Ok value | Throw e => Throw e | OutOfFuel => OutOfFuel end, s3)
        | (Throw e, s3) => (Throw e, s3)      (* an abrupt finally wins *)
        | (OutOfFuel, s3) => (OutOfFuel, s3)
        end
    end.

(** The array methods that observer/array.js patches. *)
Inductive method := Push | Pop | Shift | Unshift | Splice | Sort | Reverse.

Definition methodsToPatch : list method :=
  [Push; Pop; Shift; Unshift; Splice; Sort; Reverse].

(** ** The environment: what the core calls but does not define *)

Record Env := mkEnv {
  production : bool;            (* process.env.NODE_ENV === 'production' *)
  hasProto : bool;              (* '__proto__' in {} *)
  isServerRendering : bool;
  (* built-in functions of the language *)
  js_String : value → string;
  js_parseFloat : string → num;
  js_isFinite : value → bool;
  js_Number : value → num;
  inObjectPrototype : string → bool;     (* key in Object.prototype *)
  inArrayPrototype : string → bool;
  arrayMethod_ref : method → nat;        (* the function object arrayMethods[key] *)
  original : method → nat → list value → M value;  (* arrayProto[method].apply(this, args) *)
  (* functions of the user *)
  getter_of : nat → M value;                 (* watcher.getter.call(vm, vm) *)
  cb_of : nat → value → value → M unit;      (* watcher.cb.call(vm, value, oldValue) *)
  property_getter : nat → nat → M value;     (* getter.call(obj) *)
  property_setter : nat → nat → value → M unit;
  customSetter_of : nat → M unit;
  (* collaborators of the core *)
  queueWatcher : nat → M unit;               (* observer/scheduler.js *)
  traverse : value → M unit                  (* observer/traverse.js: reads properties *)
}.

(** ** dep.js and watcher.js: the methods that call into user code *)

(** Modelled from the spec: [warn] is not among the sources; it is the
    injectable diagnostic sink, and it never throws. *)
Definition warn (msg : string) : M unit := emit (EWarn msg).

(** Modelled from the spec: [handleError] (core/util/error.js) is not among
    the sources; the error is reported to the error handler and swallowed. *)
Definition handleError (e : exn) (vm : nat) (info : string) : M unit :=
  emit (EHandleError e vm info).

(** Modelled from the spec: [invokeWithErrorHandling] is not among the
    sources; the callback runs under a wrapper that hands whatever it throws
    to [handleError]. *)
Definition invokeWithErrorHandling (handler : M unit) (vm : nat)
    (info : string) : M unit :=
  λ s, match handler s with
       | (Throw e, s') => handleError e vm info s'
       | other => other
       end.

Section watcher.
Variable E : Env.

Definition the_watcher (w : nat) : M Watcher := read (λ s, watcher (deps s) w).

(** [Watcher.prototype.get] *)
Definition get (w : nat) : M value :=
  update_deps (pushTarget (Some w)) ;;
  vm ← read (λ s, w_vm (watcher (deps s) w));
  try_catch_finally
    (getter_of E w)
    (λ e,
       W ← the_watcher w;
       if w_user W then handleError e vm "getter for watcher"
       else throw e)
    (λ value,
       W ← the_watcher w;
       when (w_deep W) (traverse E value) ;;
       update_deps popTarget ;;
       update_deps (cleanupDeps w)).

(** [Watcher.prototype.run] *)
Definition run (w : nat) : M unit :=
  W ← the_watcher w;
  if w_active W then
    value ← get w;
    W ← the_watcher w;
    isObj ← read (λ s, isObject (heap s) value);
    if strict_ne value (w_value W) || isObj || w_deep W then
      let oldValue := w_value W in
      update_deps (λ c, set_watcher w (set_value value (watcher c w)) c) ;;
      W ← the_watcher w;
      if w_user W then
        invokeWithErrorHandling (cb_of E w value oldValue) (w_vm W)
          "callback for watcher"
      else cb_of E w value oldValue
    else ret tt
  else ret tt.

(** [Watcher.prototype.update] *)
Definition update (w : nat) : M unit :=
  W ← the_watcher w;
  if w_lazy W then
    update_deps (λ c, set_watcher w (set_dirty true (watcher c w)) c)
  else if w_sync W then run w
  else queueWatcher E w.

(** [Watcher.prototype.evaluate] *)
Definition evaluate (w : nat) : M unit :=
  value ← get w;
  update_deps (λ c, set_watcher w (set_value value (watcher c w)) c) ;;
  update_deps (λ c, set_watcher w (set_dirty false (watcher c w)) c).

(** [new Watcher(vm, expOrFn, cb, options, isRenderWatcher)] *)
Definition new_Watcher (vm : nat) (options : option WatcherOptions)
    (isRenderWatcher : bool) : M nat :=
  w ← ((λ s, let '(id, c) := construct vm options isRenderWatcher (deps s) in
             (Ok id, with_deps (λ _, c) s)) : M nat);
  W ← the_watcher w;
  value ← (if w_lazy W then ret VUndefined else get w);
  update_deps (λ c, set_watcher w (set_value value (watcher c w)) c) ;;
  ret w.

(** The order in which [notify] walks its copy of [subs]. *)
Definition notify_order (s : state) (d : nat) : list nat :=
  let subs := subs_of (deps s) d in                  (* this.subs.slice() *)
  if negb (production E) && negb (config_async s)
  then merge_sort (≤) subs                           (* subs.sort((a, b) => a.id - b.id) *)
  else subs.

(** [Dep.prototype.notify] *)
Definition notify (d : nat) : M unit :=
  subs ← read (λ s, notify_order s d);
  for_each subs update.
End watcher.

(** ** observer/index.js and observer/array.js *)

Definition observer_of (h : Heap) (o : nat) : Observer :=
  default (mkObserver 0 0 0) (observers h !! o).

Definition cell_of (h : Heap) (c : nat) : Cell :=
  default blank_cell (cells h !! c).

Definition set_obj (a : nat) (O : Obj) (h : Heap) : Heap :=
  mkHeap (<[a := O]> (objects h)) (observers h) (observer_uid h) (cells h)
         (cell_uid h) (shouldObserve h).

Definition set_observer (o : nat) (B : Observer) (h : Heap) : Heap :=
  mkHeap (objects h) (<[o := B]> (observers h)) (observer_uid h) (cells h)
         (cell_uid h) (shouldObserve h).

Definition set_cell (c : nat) (C : Cell) (h : Heap) : Heap :=
  mkHeap (objects h) (observers h) (observer_uid h) (<[c := C]> (cells h))
         (cell_uid h) (shouldObserve h).

(** [toggleObserving] *)
Definition toggleObserving (value : bool) (h : Heap) : Heap :=
  mkHeap (objects h) (observers h) (observer_uid h) (cells h) (cell_uid h) value.

Definition set_props (keys : list string) (props : gmap string property)
    (O : Obj) : Obj :=
  mkObj (o_callable O) (o_array O) (o_plain O) (o_vnode O) (o_isVue O) (o_extensible O)
        (o_augmented O) keys props (o_elems O).

Definition set_elems (elems : list value) (O : Obj) : Obj :=
  mkObj (o_callable O) (o_array O) (o_plain O) (o_vnode O) (o_isVue O) (o_extensible O)
        (o_augmented O) (o_keys O) (o_props O) elems.

Definition set_augmented (O : Obj) : Obj :=
  mkObj (o_callable O) (o_array O) (o_plain O) (o_vnode O) (o_isVue O) (o_extensible O)
        true (o_keys O) (o_props O) (o_elems O).

(** [Object.getOwnPropertyDescriptor(obj, key)] *)
Definition getOwnPropertyDescriptor (h : Heap) (a : nat) (key : string)
  : option property := o_props (obj_of h a) !! key.

(** [hasOwn(obj, key)] *)
Definition hasOwn (h : Heap) (a : nat) (key : string) : bool :=
  bool_decide (is_Some (getOwnPropertyDescriptor h a key)).

Definition own_observer_of (O : Obj) : option nat :=
  match o_props O !! "__ob__" with
  | Some p => match p_slot p with SObserver o => Some o | _ => None end
  | None => None
  end.

(** The observer behind an own [__ob__]: [hasOwn(value, '__ob__') &&
    value.__ob__ instanceof Observer]. *)
Definition own_observer (h : Heap) (a : nat) : option nat :=
  own_observer_of (obj_of h a).

(** [e && e.__ob__], an [__ob__] that is no Observer counting as absent. *)
Definition value_observer (h : Heap) (v : value) : option nat :=
  match v with VRef a => own_observer h a | _ => None end.

Definition is_array (h : Heap) (v : value) : bool :=
  match v with VRef a => o_array (obj_of h a) | _ => false end.

(** [Object.defineProperty(obj, key, desc)]: refused on a property that is
    not configurable and on a new property of an object that is not
    extensible. *)
Definition defineProperty (a : nat) (key : string) (desc : property) : M unit :=
  λ s,
    let O := obj_of (heap s) a in
    match o_props O !! key with
    | Some p =>
        if p_configurable p
        then (Ok tt, with_heap (set_obj a (set_props (o_keys O) (<[key := desc]> (o_props O)) O)) s)
        else (Throw TypeError, s)
    | None =>
        if o_extensible O
        then (Ok tt, with_heap (set_obj a (set_props (o_keys O ++ [key]) (<[key := desc]> (o_props O)) O)) s)
        else (Throw TypeError, s)
    end.

(** Modelled from the spec: [def] (core/util/lang.js) is not among the
    sources; the back-reference it installs is non-enumerable and
    non-configurable. *)
Definition def (a : nat) (key : string) (sl : slot) : M unit :=
  defineProperty a key (mkProp sl true false false).

Definition enumerable_key (O : Obj) (k : string) : bool :=
  match o_props O !! k with
  | Some p => p_enumerable p
  | None => false
  end.

(** [Object.keys(obj)]: the enumerable own property names. *)
Definition Object_keys (h : Heap) (a : nat) : list string :=
  let O := obj_of h a in
  filter (λ k, enumerable_key O k = true) (o_keys O).

Definition method_name (m : method) : string :=
  match m with
  | Push => "push" | Pop => "pop" | Shift => "shift" | Unshift => "unshift"
  | Splice => "splice" | Sort => "sort" | Reverse => "reverse"
  end.

(** [Object.getOwnPropertyNames(arrayMethods)] *)
Definition arrayKeys : list method := methodsToPatch.

Definition out_of_fuel {A} : M A := λ s, (OutOfFuel, s).

Definition new_Dep_M : M nat :=
  λ s, let '(id, c) := new_Dep (deps s) in (Ok id, with_deps (λ _, c) s).

(** [vmCount++] on observer [o]. *)
Definition count_root (o : nat) (h : Heap) : Heap :=
  let B := observer_of h o in
  set_observer o (mkObserver (ob_value B) (ob_dep B) (S (ob_vmCount B))) h.

Section observer.
Variable E : Env.

(** [dependArray(value)]; the recursion into nested arrays spends fuel. *)
Fixpoint dependArray (fuel : nat) (a : nat) : M unit :=
  match fuel with
  | 0 => out_of_fuel
  | S fuel' =>
      elems ← read (λ s, o_elems (obj_of (heap s) a));
      for_each elems (λ e,
        ob ← read (λ s, value_observer (heap s) e);
        match ob with
        | Some o =>
            d ← read (λ s, ob_dep (observer_of (heap s) o));
            update_deps (depend d)
        | None => ret tt
        end ;;
        isA ← read (λ s, is_array (heap s) e);
        match e with
        | VRef b => if (isA : bool) then dependArray fuel' b else ret tt
        | _ => ret tt
        end)
  end.

(** The [get] closure of [defineReactive], over the variables in [cell]. *)
Fixpoint reactiveGetter (fuel : nat) (cell : nat) : M value :=
  match fuel with
  | 0 => out_of_fuel
  | S fuel' =>
      C ← read (λ s, cell_of (heap s) cell);
      value ← match c_getter C with
              | Some (FUser g) => property_getter E g (c_obj C)
              | Some (FReactive c') => reactiveGetter fuel' c'
              | None => ret (c_val C)
              end;
      t ← read (λ s, target (deps s));
      match t with
      | Some _ =>
          update_deps (depend (c_dep C)) ;;
          childOb ← read (λ s, c_childOb (cell_of (heap s) cell));
          match childOb with
          | Some o =>
              d ← read (λ s, ob_dep (observer_of (heap s) o));
              update_deps (depend d) ;;
              isA ← read (λ s, is_array (heap s) value);
              match value with
              | VRef a => if (isA : bool) then dependArray fuel' a else ret tt
              | _ => ret tt
              end
          | None => ret tt
          end
      | None => ret tt
      end ;;
      ret value
  end.

(** [obj[key]] on an own property; what is inherited reads as undefined. *)
Definition js_get (fuel : nat) (a : nat) (key : string) : M value :=
  p ← read (λ s, getOwnPropertyDescriptor (heap s) a key);
  match p with
  | Some p =>
      match p_slot p with
      | SData v => ret v
      | SObserver _ => ret VUndefined      (* an Observer is no [value] here *)
      | SAccessor (Some g) _ => property_getter E g a
      | SAccessor None _ => ret VUndefined
      | SReactive c => reactiveGetter fuel c
      end
  | None => ret VUndefined
  end.

(** [protoAugment] and [copyAugment] *)
Definition protoAugment (a : nat) : M unit :=
  update_heap (λ h, set_obj a (set_augmented (obj_of h a)) h).

Definition copyAugment (a : nat) (keys : list method) : M unit :=
  for_each keys (λ m, def a (method_name m) (SData (VRef (arrayMethod_ref E m)))) ;;
  update_heap (λ h, set_obj a (set_augmented (obj_of h a)) h).

(** [Observer.prototype.observeArray], the items being read one by one. *)
Definition observeArray (observe : value → M (option nat)) (l : nat)
    (item : nat → M value) : M unit :=
  for_each (seq 0 l) (λ i, v ← item i; observe v ;; ret tt).

(** [defineReactive(obj, key, val, customSetter, shallow)]; [val] is [None]
    when the call has two arguments only. *)
Definition defineReactive_with (observe : value → M (option nat)) (fuel : nat)
    (obj : nat) (key : string) (val : option value)
    (customSetter : option nat) (shallow : bool) : M unit :=
  dep ← new_Dep_M;
  property ← read (λ s, getOwnPropertyDescriptor (heap s) obj key);
  if match property with Some p => negb (p_configurable p) | None => false end
  then ret tt
  else
    let getter := match p_slot <$> property with
                  | Some (SAccessor (Some g) _) => Some (FUser g)
                  | Some (SReactive c) => Some (FReactive c)
                  | _ => None
                  end in
    let setter := match p_slot <$> property with
                  | Some (SAccessor _ (Some f)) => Some (FUser f)
                  | Some (SReactive c) => Some (FReactive c)
                  | _ => None
                  end in
    val ← (match val with
           | None =>
               if negb (bool_decide (is_Some getter)) || bool_decide (is_Some setter)
               then js_get fuel obj key
               else ret VUndefined
           | Some v => ret v
           end);
    childOb ← (if shallow then ret None else observe val);
    cell ← (λ s, let c := cell_uid (heap s) in
                  (Ok c, with_heap (λ h,
                     mkHeap (objects h) (observers h) (observer_uid h)
                       (<[c := mkCell obj dep val childOb getter setter customSetter shallow]> (cells h))
                       (S c) (shouldObserve h)) s)) : M nat;
    defineProperty obj key (mkProp (SReactive cell) true true true).

(** [Observer.prototype.walk] *)
Definition walk (observe : value → M (option nat)) (fuel : nat) (obj : nat)
  : M unit :=
  keys ← read (λ s, Object_keys (heap s) obj);
  for_each keys (λ k, defineReactive_with observe fuel obj k None None false).

(** [new Observer(value)] *)
Definition new_Observer (observe : value → M (option nat)) (fuel : nat)
    (a : nat) : M nat :=
  dep ← new_Dep_M;
  o ← (λ s, let o := observer_uid (heap s) in
             (Ok o, with_heap (λ h,
                mkHeap (objects h) (<[o := mkObserver a dep 0]> (observers h))
                  (S o) (cells h) (cell_uid h) (shouldObserve h)) s)) : M nat;
  def a "__ob__" (SObserver o) ;;
  isA ← read (λ s, o_array (obj_of (heap s) a));
  (if (isA : bool) then
     (if hasProto E then protoAugment a else copyAugment a arrayKeys) ;;
     l ← read (λ s, length (o_elems (obj_of (heap s) a)));
     observeArray observe l
       (λ i, read (λ s, default VUndefined (o_elems (obj_of (heap s) a) !! i)))
   else walk observe fuel a) ;;
  ret o.

(** The body of [observe], [observe_rec] standing for the nested calls. *)
Definition observe_body (observe_rec : value → M (option nat)) (fuel : nat)
    (value : value) (asRootData : bool) : M (option nat) :=
  match value with
  | VRef a =>
      skip ← read (λ s, negb (isObject (heap s) value) || o_vnode (obj_of (heap s) a));
      if (skip : bool) then ret None
      else
        existing ← read (λ s, own_observer (heap s) a);
        ob ← match existing with
             | Some o => ret (Some o)
             | None =>
                 ok ← read (λ s,
                   let O := obj_of (heap s) a in
                   shouldObserve (heap s) && negb (isServerRendering E) &&
                   (o_array O || o_plain O) && o_extensible O &&
                   negb (o_isVue O));
                 if ok : bool then (o ← new_Observer observe_rec fuel a; ret (Some o))
                 else ret None
             end;
        match ob with
        | Some o =>
            when asRootData (update_heap (count_root o))
        | None => ret tt
        end ;;
        ret ob
  | _ => ret None
  end.

(** [observe(value, asRootData)]; each nested [observe] spends fuel. *)
Fixpoint observe (fuel : nat) (value : value) (asRootData : bool)
  : M (option nat) :=
  match fuel with
  | 0 => out_of_fuel
  | S fuel' => observe_body (λ v, observe fuel' v false) fuel' value asRootData
  end.

Definition defineReactive (fuel : nat) :=
  defineReactive_with (λ v, observe fuel v false) fuel.

(** [getter.call(obj)] and [setter.call(obj, newVal)] inside the closures. *)
Definition old_value (fuel : nat) (C : Cell) : M value :=
  match c_getter C with
  | Some (FUser g) => property_getter E g (c_obj C)
  | Some (FReactive c') => reactiveGetter fuel c'
  | None => ret (c_val C)
  end.

Definition set_cell_val (cell : nat) (v : value) (h : Heap) : Heap :=
  let C := cell_of h cell in
  set_cell cell (mkCell (c_obj C) (c_dep C) v (c_childOb C) (c_getter C)
                   (c_setter C) (c_customSetter C) (c_shallow C)) h.

Definition set_cell_childOb (cell : nat) (ob : option nat) (h : Heap) : Heap :=
  let C := cell_of h cell in
  set_cell cell (mkCell (c_obj C) (c_dep C) (c_val C) ob (c_getter C)
                   (c_setter C) (c_customSetter C) (c_shallow C)) h.

(** The [set] closure of [defineReactive], over the variables in [cell]. *)
Fixpoint reactiveSetter (fuel : nat) (cell : nat) (newVal : value) : M unit :=
  match fuel with
  | 0 => out_of_fuel
  | S fuel' =>
      C ← read (λ s, cell_of (heap s) cell);
      value ← old_value fuel' C;
      if strict_eq newVal value || (strict_ne newVal newVal && strict_ne value value)
      then ret tt
      else
        match c_customSetter C with
        | Some f => when (negb (production E)) (customSetter_of E f)
        | None => ret tt
        end ;;
        if bool_decide (is_Some (c_getter C)) && negb (bool_decide (is_Some (c_setter C)))
        then ret tt
        else
          match c_setter C with
          | Some (FUser f) => property_setter E f (c_obj C) newVal
          | Some (FReactive c') => reactiveSetter fuel' c' newVal
          | None => update_heap (set_cell_val cell newVal)
          end ;;
          childOb ← (if c_shallow C then ret None else observe fuel' newVal false);
          update_heap (set_cell_childOb cell childOb) ;;
          notify E (c_dep C)
  end.

(** [n >= 0], [Math.floor(n)], [Math.max(a, b)] *)
Definition num_ge0 (n : num) : bool :=
  match n with
  | Fin q => Qle_bool 0 q
  | Inf negative => negb negative
  | NaN => false
  end.

Definition num_floor (n : num) : num :=
  match n with
  | Fin q => Fin (inject_Z (Qfloor q))
  | other => other
  end.

Definition num_max (a b : num) : num :=
  match a, b with
  | NaN, _ | _, NaN => NaN
  | Inf false, _ | _, Inf false => Inf false
  | Inf true, x | x, Inf true => x
  | Fin p, Fin q => if Qle_bool p q then Fin q else Fin p
  end.

(** shared/util.js: [isValidArrayIndex] *)
Definition isValidArrayIndex (val : value) : bool :=
  let n := js_parseFloat E (js_String E val) in
  num_ge0 n && num_eq (num_floor n) n && js_isFinite E val.

(** [arr.length = n]: a RangeError unless [n] is a natural number. *)
Definition set_length (a : nat) (n : num) : M unit :=
  match n with
  | Fin q =>
      if Qle_bool 0 q && Qeq_bool (inject_Z (Qfloor q)) q then
        update_heap (λ h,
          let O := obj_of h a in
          let len := Z.to_nat (Qfloor q) in
          set_obj a (set_elems (take len (o_elems O) ++
                                replicate (len - length (o_elems O)) VUndefined) O) h)
      else throw RangeError
  | _ => throw RangeError
  end.

(** [key in target] *)
Definition js_in (h : Heap) (key : string) (a : nat) : bool :=
  let O := obj_of h a in
  hasOwn h a key || inObjectPrototype E key ||
  (o_array O && (inArrayPrototype E key || bool_decide (key = "length"))).

(** [target[key] = val] in strict mode. The write goes to the own property
    when there is one and creates a data property otherwise. *)
Definition js_assign (fuel : nat) (a : nat) (key : string) (val : value)
  : M unit :=
  O ← read (λ s, obj_of (heap s) a);
  if o_array O && bool_decide (key = "length") then set_length a (js_Number E val)
  else
    match o_props O !! key with
    | Some p =>
        match p_slot p with
        | SData _ | SObserver _ =>
            if p_writable p then
              update_heap (set_obj a (set_props (o_keys O)
                (<[key := mkProp (SData val) true (p_enumerable p) (p_configurable p)]> (o_props O)) O))
            else throw TypeError
        | SAccessor _ (Some f) => property_setter E f a val
        | SAccessor _ None => throw TypeError
        | SReactive c => reactiveSetter fuel c val
        end
    | None =>
        if o_extensible O then
          update_heap (set_obj a (set_props (o_keys O ++ [key])
            (<[key := mkProp (SData val) true true true]> (o_props O)) O))
        else throw TypeError
    end.

(** [delete target[key]] in strict mode. *)
Definition js_delete (a : nat) (key : string) : M unit :=
  O ← read (λ s, obj_of (heap s) a);
  match o_props O !! key with
  | Some p =>
      if p_configurable p then
        update_heap (set_obj a (set_props (filter (λ k, k ≠ key) (o_keys O))
                                  (delete key (o_props O)) O))
      else throw TypeError
  | None => ret tt
  end.

(** What [push], [unshift] and [splice] insert. *)
Definition inserted_of (m : method) (args : list value) : option (list value) :=
  match m with
  | Push | Unshift => Some args
  | Splice => Some (drop 2 args)                (* args.slice(2) *)
  | _ => None
  end.

(** [if (inserted) ob.observeArray(inserted)] *)
Definition observe_inserted (fuel : nat) (m : method) (args : list value)
  : M unit :=
  match inserted_of m args with
  | Some inserted =>
      observeArray (λ v, observe fuel v false) (length inserted)
        (λ i, ret (default VUndefined (inserted !! i)))
  | None => ret tt
  end.

(** The [mutator] that array.js defines on [arrayMethods] for [m]. *)
Definition mutator (fuel : nat) (m : method) (this : nat) (args : list value)
  : M value :=
  result ← original E m this args;
  ob ← read (λ s, own_observer (heap s) this);
  match ob with
  | Some o =>
      observe_inserted fuel m args ;;
      d ← read (λ s, ob_dep (observer_of (heap s) o));
      notify E d ;;
      ret result
  | None => throw TypeError          (* [ob] is undefined *)
  end.

(** [arr.m(...args)]: the patched method once the array is augmented. *)
Definition call_array_method (fuel : nat) (m : method) (a : nat)
    (args : list value) : M value :=
  augmented ← read (λ s, o_augmented (obj_of (heap s) a));
  if (augmented : bool) then mutator fuel m a args else original E m a args.

(** [set(target, key, val)] *)
Definition set (fuel : nat) (target key val : value) : M value :=
  when (negb (production E) && (isUndef target || isPrimitive target))
    (warn "Cannot set reactive property on undefined, null, or primitive value") ;;
  isA ← read (λ s, is_array (heap s) target);
  match target with
  | VRef a =>
      if isA && isValidArrayIndex key then
        len ← read (λ s, length (o_elems (obj_of (heap s) a)));
        set_length a (num_max (Fin (inject_Z (Z.of_nat len))) (js_Number E key)) ;;
        call_array_method fuel Splice a [key; VNum (Fin 1); val] ;;
        ret val
      else
        let k := js_String E key in
        present ← read (λ s, js_in (heap s) k a && negb (inObjectPrototype E k));
        if (present : bool) then js_assign fuel a k val ;; ret val
        else
          ob ← read (λ s, own_observer (heap s) a);
          isVue ← read (λ s, o_isVue (obj_of (heap s) a));
          vmCount ← read (λ s, match ob with
                               | Some o => ob_vmCount (observer_of (heap s) o)
                               | None => 0
                               end);
          if isVue || negb (bool_decide (vmCount = 0)) then
            when (negb (production E))
              (warn "Avoid adding reactive properties to a Vue instance or its root $data at runtime - declare it upfront in the data option.") ;;
            ret val
          else
            match ob with
            | None => js_assign fuel a k val ;; ret val
            | Some o =>
                B ← read (λ s, observer_of (heap s) o);
                defineReactive fuel (ob_value B) k (Some val) None false ;;
                notify E (ob_dep B) ;;
                ret val
            end
  | _ => throw TypeError             (* [key in target] on a non-object *)
  end.

(** [del(target, key)] *)
Definition del (fuel : nat) (target key : value) : M unit :=
  when (negb (production E) && (isUndef target || isPrimitive target))
    (warn "Cannot delete reactive property on undefined, null, or primitive value") ;;
  isA ← read (λ s, is_array (heap s) target);
  match target with
  | VRef a =>
      if isA && isValidArrayIndex key then
        call_array_method fuel Splice a [key; VNum (Fin 1)] ;; ret tt
      else
        let k := js_String E key in
        ob ← read (λ s, own_observer (heap s) a);
        isVue ← read (λ s, o_isVue (obj_of (heap s) a));
        vmCount ← read (λ s, match ob with
                             | Some o => ob_vmCount (observer_of (heap s) o)
                             | None => 0
                             end);
        if isVue || negb (bool_decide (vmCount = 0)) then
          when (negb (production E))
            (warn "Avoid deleting properties on a Vue instance or its root $data - just set it to null.")
        else
          own ← read (λ s, hasOwn (heap s) a k);
          if (own : bool) then
            js_delete a k ;;
            match ob with
            | None => ret tt
            | Some o =>
                d ← read (λ s, ob_dep (observer_of (heap s) o));
                notify E d
            end
          else ret tt
  | _ => throw TypeError             (* a property read on a non-object *)
  end.
End observer.

(** How often [t] occurs in a [subs] array. *)
Definition occurrences (t : nat) (l : list nat) : nat :=
  length (filter (λ x, x = t) l).

(** No [subs] array holds a watcher twice. *)
Definition duplicate_free (c : DepState) : Prop :=
  ∀ d t, occurrences t (subs_of c d) ≤ 1.

(** The Dep/Watcher states that programs can reach. *)
Definition reachable (c : DepState) : Prop :=
  ∃ ops, c = run_ops ops init_deps.

(** One evaluation of watcher [w], as a sequence of operations: [body] is
    what the getter and the traversal did. *)
Definition evaluation (w : nat) (body : list op) : list op :=
  [OPushTarget (Some w)] ++ body ++ [OPopTarget; OCleanupDeps w].

(** [popTarget(); this.cleanupDeps()] as a state change. *)
Definition pop_and_cleanup (w : nat) (s : state) : state :=
  with_deps (cleanupDeps w) (with_deps popTarget s).

(** ** A concrete environment for the examples *)

Definition digit_of (a : Ascii.ascii) : option nat :=
  let n := Ascii.nat_of_ascii a in
  if decide (48 ≤ n ∧ n ≤ 57) then Some (n - 48) else None.

Fixpoint parse_digits (acc : nat) (s : string) : option nat :=
  match s with
  | EmptyString => Some acc
  | String a rest =>
      match digit_of a with
      | Some d => parse_digits (10 * acc + d) rest
      | None => None
      end
  end.

(** [parseFloat] on the decimal numerals of natural numbers; every other
    string used in the examples parses as NaN. *)
Definition sample_parseFloat (s : string) : num :=
  match s with
  | EmptyString => NaN
  | _ => match parse_digits 0 s with
         | Some n => Fin (inject_Z (Z.of_nat n))
         | None => NaN
         end
  end.

(** The digits after the decimal point, seventeen at most. *)
Fixpoint frac_digits (n : nat) (r : Q) : string :=
  match n with
  | 0 => ""
  | S n' =>
      if Qeq_bool r 0 then ""
      else let d := Qfloor (r * 10) in
           pretty d +:+ frac_digits n' (r * 10 - inject_Z d)
  end.

Definition decimal (q : Q) : string :=
  let a := Qabs q in
  let i := Qfloor a in
  let f := (a - inject_Z i)%Q in
  (if Qle_bool 0 q then "" else "-") +:+ pretty i +:+
  (if Qeq_bool f 0 then "" else "." +:+ frac_digits 17 f).

Definition sample_String (v : value) : string :=
  match v with
  | VUndefined => "undefined"
  | VNull => "null"
  | VBool true => "true"
  | VBool false => "false"
  | VNum (Fin q) => decimal q
  | VNum NaN => "NaN"
  | VNum (Inf false) => "Infinity"
  | VNum (Inf true) => "-Infinity"
  | VStr s => s
  | VSym _ => "Symbol()"
  | VRef _ => "[object Object]"
  end.

Definition sample_Number (v : value) : num :=
  match v with
  | VNum n => n
  | VStr s => sample_parseFloat s
  | VNull | VBool false => Fin 0
  | VBool true => Fin 1
  | _ => NaN
  end.

Definition sample_isFinite (v : value) : bool :=
  match sample_Number v with Fin _ => true | _ => false end.

(** [push], [pop], [shift], [unshift] and [reverse] of [Array.prototype] on
    the element list; [splice] and [sort] are outside this sample. *)
Definition sample_original (m : method) (this : nat) (args : list value)
  : M value :=
  λ s,
    let O := obj_of (heap s) this in
    let elems := o_elems O in
    let store l := with_heap (set_obj this (set_elems l O)) s in
    let len l := VNum (Fin (inject_Z (Z.of_nat (length l)))) in
    match m with
    | Push => (Ok (len (elems ++ args)), store (elems ++ args))
    | Unshift => (Ok (len (args ++ elems)), store (args ++ elems))
    | Pop => (Ok (default VUndefined (last elems)), store (removelast elems))
    | Shift => (Ok (default VUndefined (head elems)), store (tail elems))
    | Reverse => (Ok (VRef this), store (reverse elems))
    | Splice | Sort => (OutOfFuel, s)
    end.

Definition sample_env (prod : bool) (getters : nat → M value)
    (cbs : nat → value → value → M unit) (queue : nat → M unit) : Env :=
  mkEnv prod true false
    sample_String sample_parseFloat sample_isFinite sample_Number
    (λ k, bool_decide (k ∈ ["constructor"; "toString"; "valueOf"; "hasOwnProperty";
                            "isPrototypeOf"; "propertyIsEnumerable"; "toLocaleString";
                            "__proto__"]))
    (λ k, bool_decide (k ∈ ["push"; "pop"; "shift"; "unshift"; "splice"; "sort";
                            "reverse"; "slice"; "concat"; "indexOf"; "join"]))
    (λ m, 0)
    sample_original
    getters cbs
    (λ _ _, ret VUndefined) (λ _ _ _, ret tt) (λ _, ret tt)
    queue
    (λ _, ret tt).

(** [E] with other closures for watcher [w]. *)
Definition with_closures (E : Env) (w : nat) (g : M value)
    (cb : value → value → M unit) : Env :=
  mkEnv (production E) (hasProto E) (isServerRendering E)
    (js_String E) (js_parseFloat E) (js_isFinite E) (js_Number E)
    (inObjectPrototype E) (inArrayPrototype E) (arrayMethod_ref E) (original E)
    (λ x, if decide (x = w) then g else getter_of E x)
    (λ x, if decide (x = w) then cb else cb_of E x)
    (property_getter E) (property_setter E) (customSetter_of E)
    (queueWatcher E) (traverse E).

(** Watcher [w] records dep [d]: the operations that stand for a read. *)
Definition records (o : op) (c : DepState) (w d : nat) : Prop :=
  o = OAddDep w d ∨
  (target c = Some w ∧ (o = ODepend d ∨ ∃ x, o = OWatcherDepend x)).

(** A getter that reads the properties behind the deps [ds] and returns. *)
Definition reading_getter (ds : list nat) (v : value) : M value :=
  for_each ds (λ d, update_deps (depend d)) ;; ret v.

(** A getter that reads and then throws. *)
Definition throwing_getter (ds : list nat) (e : exn) : M value :=
  for_each ds (λ d, update_deps (depend d)) ;; throw e.

(** A state for the examples: the Dep/Watcher part as given, nothing else. *)
Definition state_of (c : DepState) (async : bool) : state :=
  mkState c init_heap async [].

(** Builders for the objects of the examples. *)
Definition data_property (v : value) : property := mkProp (SData v) true true true.

Definition plain_object (props : list (string * property)) : Obj :=
  mkObj false false true false false true false (props.*1) (list_to_map props) [].

Definition array_object (elems : list value) : Obj :=
  mkObj false true false false false true false [] ∅ elems.

Definition frozen (O : Obj) : Obj :=
  mkObj (o_callable O) (o_array O) (o_plain O) (o_vnode O) (o_isVue O) false
        (o_augmented O) (o_keys O)
        ((λ p, mkProp (p_slot p) false (p_enumerable p) false) <$> o_props O)
        (o_elems O).

Definition vue_instance (O : Obj) : Obj :=
  mkObj (o_callable O) (o_array O) (o_plain O) (o_vnode O) true (o_extensible O)
        (o_augmented O) (o_keys O) (o_props O) (o_elems O).

Definition heap_of (objs : list (nat * Obj)) : Heap :=
  mkHeap (list_to_map objs) ∅ 0 ∅ 0 true.

Definition state_of_heap (h : Heap) : state := mkState init_deps h true [].


(** [Object.freeze(obj)] *)
Definition freeze (a : nat) (h : Heap) : Heap := set_obj a (frozen (obj_of h a)) h.

(** What [reactiveSetter] does once the new value is found to differ and the
    property is not a getter without setter. *)
Definition write_through (E : Env) (fuel : nat) (cell : nat) (C : Cell)
    (newVal : value) : M unit :=
  match c_setter C with
  | Some (FUser f) => property_setter E f (c_obj C) newVal
  | Some (FReactive c') => reactiveSetter E fuel c' newVal
  | None => update_heap (set_cell_val cell newVal)
  end ;;
  childOb ← (if c_shallow C then ret None else observe E fuel newVal false);
  update_heap (set_cell_childOb cell childOb) ;;
  notify E (c_dep C).

(** The call of [customSetter], made outside production builds only. *)
Definition call_customSetter (E : Env) (C : Cell) : M unit :=
  match c_customSetter C with
  | Some f => when (negb (production E)) (customSetter_of E f)
  | None => ret tt
  end.

(** [newVal === value || (newVal !== newVal && value !== value)] *)
Definition unchanged (newVal value : value) : bool :=
  strict_eq newVal value || (strict_ne newVal newVal && strict_ne value value).

(** [P] holds after [m] whenever it holds before. *)
Definition preserves {A} (P : state → Prop) (m : M A) : Prop :=
  ∀ s, P s → P (m s).2.

(** The object at [a] is [O]. *)
Definition object_is (a : nat) (O : Obj) (s : state) : Prop :=
  objects (heap s) !! a = Some O.

(** The Dep/Watcher state is reachable and the watchers [X] exist in it. *)
Definition live (X : list nat) (s : state) : Prop :=
  reachable (deps s) ∧ ∀ x, x ∈ X → allocated (deps s) x.

(** What is asked of the environment: each of its functions, whatever else
    it does, leaves the Dep/Watcher state reachable and its watchers in
    existence, as it does when it acts on the state through the methods of
    the core only. *)
Record sound_env (E : Env) : Prop := mk_sound_env {
  getter_live : ∀ X w, preserves (live X) (getter_of E w);
  cb_live : ∀ X w v o, preserves (live X) (cb_of E w v o);
  queueWatcher_live : ∀ X w, preserves (live X) (queueWatcher E w);
  traverse_live : ∀ X v, preserves (live X) (traverse E v);
  property_getter_live : ∀ X g a, preserves (live X) (property_getter E g a);
  property_setter_live : ∀ X f a v, preserves (live X) (property_setter E f a v);
  customSetter_live : ∀ X f, preserves (live X) (customSetter_of E f);
  original_live : ∀ X m a args, preserves (live X) (original E m a args)
}.

(** Watcher [w] is not active. *)
Definition inactive (w : nat) (s : state) : Prop :=
  w_active (watcher (deps s) w) = false.

(** No function of the environment makes [w] active. (No method of the core
    does: [active] is set to true by the constructor only.) *)
Record quiet_env (E : Env) (w : nat) : Prop := mk_quiet_env {
  getter_quiet : ∀ x, preserves (inactive w) (getter_of E x);
  cb_quiet : ∀ x v o, preserves (inactive w) (cb_of E x v o);
  queueWatcher_quiet : ∀ x, preserves (inactive w) (queueWatcher E x);
  traverse_quiet : ∀ v, preserves (inactive w) (traverse E v)
}.

(** The variable [value] of [get] once the getter is done. *)
Definition value_of (r : outcome value) : value :=
  match r with Ok v => v | _ => VUndefined end.

(** The state after the [catch] block of [get]: [s] is where [get] started,
    [r] and [s2] are what the getter gave. *)
Definition after_catch (w : nat) (s s2 : state) (r : outcome value) : state :=
  match r with
  | Throw e =>
      if w_user (watcher (deps s2) w)
      then with_log (EHandleError e (w_vm (watcher (deps s) w)) "getter for watcher") s2
      else s2
  | _ => s2
  end.

(** How [get] completes: a [user] watcher swallows what its getter throws. *)
Definition completion_of (w : nat) (s2 : state) (r : outcome value)
  : outcome value :=
  match r with
  | Ok v => Ok v
  | Throw e => if w_user (watcher (deps s2) w) then Ok VUndefined else Throw e
  | OutOfFuel => OutOfFuel
  end.

(** [s3] is the state in which [popTarget()] is reached: after
    [traverse(value)], which returns, when [deep] is set. *)
Definition traversal_ends (E : Env) (w : nat) (s s2 : state)
    (r : outcome value) (s3 : state) : Prop :=
  if w_deep (watcher (deps s2) w)
  then traverse E (value_of r) (after_catch w s s2 r) = (Ok tt, s3)
  else s3 = after_catch w s s2 r.

(** ** Further notions for the statements on dep.js and watcher.js *)

(** [this.dirty = true] on watcher [w], as [update] does for a lazy one. *)
Definition mark_dirty (c : DepState) (w : nat) : DepState :=
  set_watcher w (set_dirty true (watcher c w)) c.

(** [Dep.target] is the last entry of [targetStack]. *)
Definition target_is_top (c : DepState) : Prop :=
  target c = mjoin (last (targetStack c)).

(** The record of a watcher when its constructor is done with the fields. *)
Definition fresh_watcher (vm : nat) (o : WatcherOptions) : Watcher :=
  mkWatcher vm (o_deep o) (o_user o) (o_lazy o) (o_sync o) (o_lazy o) true
    [] [] ∅ ∅ (o_before o) VUndefined.

(** ** shared/util.js: strings

    Strings are sequences of ASCII characters; [toUpperCase] and
    [toLowerCase] act on the letters. *)

Definition is_upper (c : Ascii.ascii) : bool :=
  let n := Ascii.nat_of_ascii c in (65 <=? n) && (n <=? 90).

Definition is_lower (c : Ascii.ascii) : bool :=
  let n := Ascii.nat_of_ascii c in (97 <=? n) && (n <=? 122).

Definition is_digit (c : Ascii.ascii) : bool :=
  let n := Ascii.nat_of_ascii c in (48 <=? n) && (n <=? 57).

(** The class [\w] of regular expressions: [A-Za-z0-9_]. *)
Definition is_word (c : Ascii.ascii) : bool :=
  is_upper c || is_lower c || is_digit c || (Ascii.nat_of_ascii c =? 95).

Definition hyphen_char : Ascii.ascii := Ascii.ascii_of_nat 45.
Definition comma_char : Ascii.ascii := Ascii.ascii_of_nat 44.

Definition is_hyphen (c : Ascii.ascii) : bool := Ascii.nat_of_ascii c =? 45.

Definition is_comma (c : Ascii.ascii) : bool := Ascii.nat_of_ascii c =? 44.

Definition upper_char (c : Ascii.ascii) : Ascii.ascii :=
  if is_lower c then Ascii.ascii_of_nat (Ascii.nat_of_ascii c - 32) else c.

Definition lower_char (c : Ascii.ascii) : Ascii.ascii :=
  if is_upper c then Ascii.ascii_of_nat (Ascii.nat_of_ascii c + 32) else c.

Fixpoint toUpperCase (s : string) : string :=
  match s with
  | EmptyString => EmptyString
  | String c rest => String (upper_char c) (toUpperCase rest)
  end.

Fixpoint toLowerCase (s : string) : string :=
  match s with
  | EmptyString => EmptyString
  | String c rest => String (lower_char c) (toLowerCase rest)
  end.

(** [str.split(',')]: the pieces between the commas, at least one. *)
Fixpoint split_comma (s : string) : list string :=
  match s with
  | EmptyString => [EmptyString]
  | String c rest =>
      if is_comma c then EmptyString :: split_comma rest
      else match split_comma rest with
           | piece :: pieces => String c piece :: pieces
           | [] => [String c EmptyString]
           end
  end.

(** [list.join(',')] *)
Fixpoint join_comma (l : list string) : string :=
  match l with
  | [] => EmptyString
  | piece :: rest =>
      match rest with
      | [] => piece
      | _ :: _ => piece +:+ String comma_char (join_comma rest)
      end
  end.

(** No comma occurs in [s]. *)
Fixpoint comma_free (s : string) : bool :=
  match s with
  | EmptyString => true
  | String c rest => negb (is_comma c) && comma_free rest
  end.

(** [makeMap(str, expectsLowerCase)]: the map is built key by key, the
    function returned looks a key up; an absent key gives [undefined],
    which is [None]. *)
Definition makeMap (str : string) (expectsLowerCase : bool)
  : string → option bool :=
  let list := split_comma str in
  let map := foldl (λ (map : gmap string bool) key, <[key := true]> map) ∅ list in
  if expectsLowerCase
  then λ val, map !! toLowerCase val
  else λ val, map !! val.

Definition isBuiltInTag : string → option bool :=
  makeMap "slot,component" true.

Definition isReservedAttribute : string → option bool :=
  makeMap "key,ref,slot,slot-scope,is" false.

(** [genStaticKeys(modules)], a module being its [staticKeys] array when it
    has one. *)
Definition genStaticKeys (modules : list (option (list string))) : string :=
  join_comma (foldl (λ keys m, keys ++ default [] m) [] modules).

(** The truth value of a value in a condition. *)
Definition toBoolean (v : value) : bool :=
  match v with
  | VUndefined | VNull => false
  | VBool b => b
  | VNum NaN => false
  | VNum (Inf _) => true
  | VNum (Fin q) => negb (Qeq_bool q 0)
  | VStr s => negb (bool_decide (s = EmptyString))
  | VSym _ | VRef _ => true
  end.

(** The function [cachedFn] that [cached(fn)] returns; [cache] is the
    object of the closure, passed in and handed back with the result. *)
Definition cachedFn (fn : string → M value) (cache : gmap string value)
    (str : string) : M (value * gmap string value) :=
  let compute : M (value * gmap string value) :=
    v ← fn str; ret (v, <[str := v]> cache) in
  match cache !! str with                       (* const hit = cache[str] *)
  | Some hit => if toBoolean hit then ret (hit, cache) else compute
  | None => compute
  end.

(** Every entry of [cache] is what the pure function [fn] gives. *)
Definition memo_of (fn : string → string) (cache : gmap string value) : Prop :=
  ∀ k v, cache !! k = Some v → v = VStr (fn k).

(** [str.replace(/-(\w)/g, (_, c) => c ? c.toUpperCase() : '')] *)
Fixpoint camelize_fn (str : string) : string :=
  match str with
  | EmptyString => EmptyString
  | String c rest =>
      match rest with
      | String d rest' =>
          if is_hyphen c && is_word d
          then String (upper_char d) (camelize_fn rest')
          else String c (camelize_fn rest)
      | EmptyString => String c EmptyString
      end
  end.

(** [str.charAt(0).toUpperCase() + str.slice(1)] *)
Definition capitalize_fn (str : string) : string :=
  match str with
  | EmptyString => EmptyString
  | String c rest => String (upper_char c) rest
  end.

(** [str.replace(/\B([A-Z])/g, '-$1')]: a capital letter that follows a
    word character gets a hyphen in front; [prev_word] tells whether the
    character before [str] is a word character. *)
Fixpoint hyphen_insert (prev_word : bool) (str : string) : string :=
  match str with
  | EmptyString => EmptyString
  | String c rest =>
      if prev_word && is_upper c
      then String hyphen_char (String c (hyphen_insert (is_word c) rest))
      else String c (hyphen_insert (is_word c) rest)
  end.

Definition hyphenate_fn (str : string) : string :=
  toLowerCase (hyphen_insert false str).

(** The three exports are [cached] versions of the functions above. *)
Definition camelize := cachedFn (λ str, ret (VStr (camelize_fn str))).
Definition capitalize := cachedFn (λ str, ret (VStr (capitalize_fn str))).
Definition hyphenate := cachedFn (λ str, ret (VStr (hyphenate_fn str))).

(** Hyphen-delimited names: no capital letter, and a hyphen in front of a
    word character stands after a word character and before a small
    letter. *)
Fixpoint kebab_from (prev_word : bool) (s : string) : bool :=
  match s with
  | EmptyString => true
  | String c rest =>
      negb (is_upper c) &&
      (if is_hyphen c then
         match rest with
         | String d _ => if is_word d then prev_word && is_lower d else true
         | EmptyString => true
         end
       else true) &&
      kebab_from (is_word c) rest
  end.

Definition kebab (s : string) : bool := kebab_from false s.

(** Camel-case names: a capital letter stands after a word character, and
    no hyphen stands in front of a word character. *)
Fixpoint camel_from (prev_word : bool) (s : string) : bool :=
  match s with
  | EmptyString => true
  | String c rest =>
      (if is_upper c then prev_word else true) &&
      (if is_hyphen c then
         match rest with
         | String d _ => negb (is_word d)
         | EmptyString => true
         end
       else true) &&
      camel_from (is_word c) rest
  end.

Definition camel (s : string) : bool := camel_from false s.

(** [list[i]] on an array-like: undefined outside of it. *)
Definition at_index (list_ : list value) (i : Z) : value :=
  if (i <? 0)%Z then VUndefined else default VUndefined (list_ !! Z.to_nat i).

(** [toArray(list, start)]; [start] is an integer, or left out.
    [new Array(i)] throws a RangeError unless [0 <= i < 2^32]. *)
Definition toArray (list_ : list value) (start : option Z)
  : outcome (list value) :=
  let start := default 0%Z start in                   (* start = start || 0 *)
  let i := (Z.of_nat (length list_) - start)%Z in
  if ((i <? 0) || (2 ^ 32 - 1 <? i))%Z then Throw RangeError
  else
    let ret := replicate (Z.to_nat i) VUndefined in   (* new Array(i) *)
    Ok (foldl (λ ret j, <[j := at_index list_ (Z.of_nat j + start)]> ret)
              ret (reverse (seq 0 (Z.to_nat i)))).    (* while (i--) *)

(** ** shared/util.js: objects used as maps *)

(** [extend(to, _from)], the objects being finite maps from property names
    to values; [_from] may be undefined. Returns [to] as it is afterwards. *)
Definition extend (to : gmap string value) (_from : option (gmap string value))
  : gmap string value :=
  match _from with
  | Some m => foldl (λ to kv, <[kv.1 := kv.2]> to) to (map_to_list m)
  | None => to
  end.

(** [toObject(arr)]: a falsy element of [arr] is [None]. *)
Definition toObject (arr : list (option (gmap string value)))
  : gmap string value :=
  foldl (λ res x, match x with Some m => extend res (Some m) | None => res end)
        ∅ arr.

(** [once(fn)]: one call of the function returned, [called] being the
    variable of the closure before the call. Gives the variable afterwards
    and what the call does. *)
Definition once_call (fn : M value) (called : bool) : bool * M unit :=
  if called then (called, ret tt)
  else (true, fn ;; ret tt).            (* called = true; fn.apply(...) *)

(** [n] calls in a row; an exception ends the row. *)
Fixpoint once_calls (fn : M value) (n : nat) (called : bool) : M bool :=
  match n with
  | 0 => ret called
  | S n' =>
      let '(called', body) := once_call fn called in
      body ;; once_calls fn n' called'
  end.

(** ** Further notions for the statements on observer/index.js *)

(** The value of the data property [k] of [O]. *)
Definition data_value (O : Obj) (k : string) : value :=
  match o_props O !! k with
  | Some p => match p_slot p with SData v => v | _ => VUndefined end
  | None => VUndefined
  end.

(** A value that is no object, array or function. *)
Definition not_ref (v : value) : bool :=
  match v with VRef _ => false | _ => true end.

(** The state in which [defineReactive(obj, key)] leaves a configurable
    data property that holds [v], no object: a new dep, a new set of closure
    variables, and the accessor pair in place of the value. *)
Definition converted (a : nat) (k : string) (v : value) (s : state) : state :=
  let d := dep_uid (deps s) in
  let c := cell_uid (heap s) in
  let O := obj_of (heap s) a in
  mkState (new_Dep (deps s)).2
    (mkHeap
       (<[a := set_props (o_keys O)
                 (<[k := mkProp (SReactive c) true true true]> (o_props O)) O]>
          (objects (heap s)))
       (observers (heap s)) (observer_uid (heap s))
       (<[c := mkCell a d v None None None None false]> (cells (heap s)))
       (S c) (shouldObserve (heap s)))
    (config_async s) (log s).

(** [walk] on such properties, key by key. *)
Definition walked (a : nat) (keys : list string) (s : state) : state :=
  foldl (λ s k, converted a k (data_value (obj_of (heap s) a) k) s) s keys.

(** The state in which [new Observer(value)] starts to walk a plain
    object: the dep and the observer are made and [__ob__] is defined. *)
Definition attached (a : nat) (s : state) : state :=
  let d := dep_uid (deps s) in
  let o := observer_uid (heap s) in
  let O := obj_of (heap s) a in
  mkState (new_Dep (deps s)).2
    (mkHeap
       (<[a := set_props (o_keys O ++ ["__ob__"])
                 (<["__ob__" := mkProp (SObserver o) true false false]> (o_props O)) O]>
          (objects (heap s)))
       (<[o := mkObserver a d 0]> (observers (heap s))) (S o)
       (cells (heap s)) (cell_uid (heap s)) (shouldObserve (heap s)))
    (config_async s) (log s).

(** global-api/index.js: [Vue.observable] *)
Definition observable (E : Env) (fuel : nat) (obj : value) : M value :=
  observe E fuel obj false ;; ret obj.

(** A plain object that [observe] accepts and whose own properties are
    configurable, enumerable data properties holding no objects. *)
Record flat_object (E : Env) (s : state) (a : nat) : Prop := mk_flat_object {
  flat_object_type : isObject (heap s) (VRef a) = true;
  flat_no_vnode : o_vnode (obj_of (heap s) a) = false;
  flat_no_array : o_array (obj_of (heap s) a) = false;
  flat_plain : o_plain (obj_of (heap s) a) = true;
  flat_extensible : o_extensible (obj_of (heap s) a) = true;
  flat_no_vue : o_isVue (obj_of (heap s) a) = false;
  flat_observing : shouldObserve (heap s) = true;
  flat_client : isServerRendering E = false;
  flat_no_ob : o_props (obj_of (heap s) a) !! "__ob__" = None;
  flat_keys : NoDup (o_keys (obj_of (heap s) a));
  flat_props : ∀ k, k ∈ o_keys (obj_of (heap s) a) →
    ∃ v, o_props (obj_of (heap s) a) !! k = Some (data_property v) ∧
         not_ref v = true
}.

(** The state in which [defineReactive(obj, key, val)] leaves an extensible
    object that had no property [key], for a [val] that is no object: the
    property is added, reactive, after the properties that were there. *)
Definition defined (a : nat) (k : string) (v : value) (s : state) : state :=
  let d := dep_uid (deps s) in
  let c := cell_uid (heap s) in
  let O := obj_of (heap s) a in
  mkState (new_Dep (deps s)).2
    (mkHeap
       (<[a := set_props (o_keys O ++ [k])
                 (<[k := mkProp (SReactive c) true true true]> (o_props O)) O]>
          (objects (heap s)))
       (observers (heap s)) (observer_uid (heap s))
       (<[c := mkCell a d v None None None None false]> (cells (heap s)))
       (S c) (shouldObserve (heap s)))
    (config_async s) (log s).

(** The state after [delete target[key]] on a configurable property. *)
Definition deleted (a : nat) (k : string) (s : state) : state :=
  let O := obj_of (heap s) a in
  with_heap (set_obj a (set_props (filter (λ k', k' ≠ k) (o_keys O))
                          (delete k (o_props O)) O)) s.

Global Instance method_eq_dec : EqDecision method.
Proof. solve_decision. Defined.

(** [def(target, key, src[key])] for one method of [copyAugment], on an
    extensible array that has no own property of that name. *)
Definition method_defined (E : Env) (a : nat) (s : state) (m : method) : state :=
  let O := obj_of (heap s) a in
  with_heap (set_obj a
    (set_props (o_keys O ++ [method_name m])
       (<[method_name m := mkProp (SData (VRef (arrayMethod_ref E m))) true false false]>
          (o_props O)) O)) s.

(** The array [a] with the intercepted methods in place: through
    [__proto__] when there is one, as own properties otherwise. *)
Definition augmented (E : Env) (a : nat) (s : state) : state :=
  let s1 := if hasProto E then s else foldl (method_defined E a) s arrayKeys in
  with_heap (λ h, set_obj a (set_augmented (obj_of h a)) h) s1.

(** An array that [observe] accepts and whose elements are no objects. *)
Record flat_array (E : Env) (s : state) (a : nat) : Prop := mk_flat_array {
  flat_array_type : isObject (heap s) (VRef a) = true;
  flat_array_no_vnode : o_vnode (obj_of (heap s) a) = false;
  flat_array_array : o_array (obj_of (heap s) a) = true;
  flat_array_extensible : o_extensible (obj_of (heap s) a) = true;
  flat_array_no_vue : o_isVue (obj_of (heap s) a) = false;
  flat_array_observing : shouldObserve (heap s) = true;
  flat_array_client : isServerRendering E = false;
  flat_array_no_ob : o_props (obj_of (heap s) a) !! "__ob__" = None;
  flat_array_no_methods : ∀ m, o_props (obj_of (heap s) a) !! method_name m = None;
  flat_array_elems : ∀ i v, o_elems (obj_of (heap s) a) !! i = Some v →
    not_ref v = true
}.
(** * Properties *)

(** Decide a closed proposition by evaluation. *)
Ltac by_compute := apply (bool_decide_unpack _); vm_compute; exact I.

(** ** Lemmas on [remove] *)

Lemma remove_nil x : remove [] x = [].
Proof. reflexivity. Qed.

Lemma remove_cons y arr x :
  remove (y :: arr) x = if decide (y = x) then arr else y :: remove arr x.
Proof.
  unfold remove at 1. cbn [length indexOf]. rewrite decide_False by lia.
  destruct (decide (y = x)) as [->|Hne]; [done|].
  unfold remove. destruct arr as [|z arr']; [done|].
  rewrite decide_False by (simpl; lia).
  destruct (indexOf (z :: arr') x); done.
Qed.

Lemma remove_sublist arr x : sublist (remove arr x) arr.
Proof.
  induction arr as [|y arr IH]; [done|].
  rewrite remove_cons. case_decide.
  - by apply sublist_cons.
  - by apply sublist_skip.
Qed.

Lemma remove_absent arr x : x ∉ arr → remove arr x = arr.
Proof.
  induction arr as [|y arr IH]; [done|].
  rewrite not_elem_of_cons. intros [Hne Hnin].
  rewrite remove_cons, decide_False by done. by rewrite IH.
Qed.

Lemma remove_gone arr x : NoDup arr → x ∉ remove arr x.
Proof.
  induction 1 as [|y arr Hy Hnd IH]; [rewrite remove_nil; apply not_elem_of_nil|].
  rewrite remove_cons. case_decide as Hyx.
  - by subst.
  - rewrite not_elem_of_cons. split; [congruence | done].
Qed.

Lemma remove_keeps arr x y : y ≠ x → y ∈ arr → y ∈ remove arr x.
Proof.
  intros Hne. induction arr as [|z arr IH]; [done|].
  rewrite remove_cons, elem_of_cons. intros [->|Hin].
  - rewrite decide_False by done. left.
  - case_decide; [done|]. right. by apply IH.
Qed.

Lemma remove_elem arr x y : y ∈ remove arr x → y ∈ arr.
Proof. intros H. eapply elem_of_sublist; [done | apply remove_sublist]. Qed.

Lemma remove_NoDup arr x : NoDup arr → NoDup (remove arr x).
Proof. intros H. eapply sublist_NoDup; [done | apply remove_sublist]. Qed.

(** ** Reading the state after an update *)

Lemma subs_of_set_subs d l c d' :
  subs_of (set_subs d l c) d' = if decide (d = d') then l else subs_of c d'.
Proof.
  unfold subs_of, set_subs; simpl. rewrite lookup_insert.
  by case_decide.
Qed.

Lemma watcher_set_watcher w W c w' :
  watcher (set_watcher w W c) w' = if decide (w = w') then W else watcher c w'.
Proof.
  unfold watcher, set_watcher; simpl. rewrite lookup_insert.
  by case_decide.
Qed.

Lemma watcher_set_subs d l c w : watcher (set_subs d l c) w = watcher c w.
Proof. reflexivity. Qed.

Lemma watcher_addSub d x c w : watcher (addSub d x c) w = watcher c w.
Proof. reflexivity. Qed.

Lemma subs_of_removeSub d w c d' :
  subs_of (removeSub d w c) d' =
  if decide (d = d') then remove (subs_of c d) w else subs_of c d'.
Proof. apply subs_of_set_subs. Qed.

Lemma subs_of_addSub d w c d' :
  subs_of (addSub d w c) d' =
  if decide (d = d') then subs_of c d ++ [w] else subs_of c d'.
Proof. apply subs_of_set_subs. Qed.
Lemma same_watchers_refl c : same_watchers c c.
Proof. by repeat split. Qed.

Lemma same_watchers_trans c1 c2 c3 :
  same_watchers c1 c2 → same_watchers c2 c3 → same_watchers c1 c3.
Proof. unfold same_watchers. intros (?&?&?&?&?&?) (?&?&?&?&?&?). repeat split; congruence. Qed.

Lemma same_watchers_watcher c c' w : same_watchers c c' → watcher c' w = watcher c w.
Proof. intros (H&_). unfold watcher. by rewrite H. Qed.

Lemma same_watchers_removeSub d w c : same_watchers c (removeSub d w c).
Proof. by repeat split. Qed.

Lemma removal_frame w keep l c : same_watchers c (foldl (removal_step w keep) c l).
Proof.
  revert c. induction l as [|a l IH]; intros c; simpl.
  - apply same_watchers_refl.
  - eapply same_watchers_trans; [|apply IH].
    unfold removal_step. case_decide.
    + apply same_watchers_refl.
    + apply same_watchers_removeSub.
Qed.

Lemma removal_step_sublist w keep c a d :
  sublist (subs_of (removal_step w keep c a) d) (subs_of c d).
Proof.
  unfold removal_step. case_decide; [done|].
  rewrite subs_of_removeSub. case_decide; [subst; apply remove_sublist | done].
Qed.

Lemma removal_sublist w keep l c d :
  sublist (subs_of (foldl (removal_step w keep) c l) d) (subs_of c d).
Proof.
  revert c. induction l as [|a l IH]; intros c; simpl; [done|].
  etrans; [apply IH | apply removal_step_sublist].
Qed.

Lemma removal_keeps w keep l c d x :
  x ≠ w → x ∈ subs_of c d → x ∈ subs_of (foldl (removal_step w keep) c l) d.
Proof.
  intros Hne. revert c. induction l as [|a l IH]; intros c Hin; simpl; [done|].
  apply IH. unfold removal_step. case_decide; [done|].
  rewrite subs_of_removeSub. case_decide; [subst; by apply remove_keeps | done].
Qed.

Lemma removal_untouched w keep l c d :
  d ∉ l ∨ d ∈ keep → subs_of (foldl (removal_step w keep) c l) d = subs_of c d.
Proof.
  revert c. induction l as [|a l IH]; intros c Hd; simpl; [done|].
  rewrite IH.
  - unfold removal_step. case_decide; [done|].
    rewrite subs_of_removeSub. case_decide; [|done]. subst a.
    destruct Hd as [Hd|Hd]; [|done]. apply not_elem_of_cons in Hd. by destruct Hd.
  - destruct Hd as [Hd|Hd]; [left|by right].
    apply not_elem_of_cons in Hd. by destruct Hd.
Qed.

Lemma removal_gone w keep l c d :
  NoDup (subs_of c d) → d ∈ l → d ∉ keep →
  w ∉ subs_of (foldl (removal_step w keep) c l) d.
Proof.
  revert c. induction l as [|a l IH]; intros c Hnd Hin Hk; simpl.
  - exfalso. by eapply not_elem_of_nil.
  - destruct (decide (a = d)) as [->|Hne].
    + intros Hw. eapply elem_of_sublist in Hw; [|apply removal_sublist].
      revert Hw. unfold removal_step. rewrite decide_False by done.
      rewrite subs_of_removeSub, decide_True by done. by apply remove_gone.
    + apply IH; [| |done].
      * eapply sublist_NoDup; [done | apply removal_step_sublist].
      * apply elem_of_cons in Hin. by destruct Hin as [->|].
Qed.

Lemma cleanup_loop_eq w keep old c :
  cleanup_loop w keep old c = foldl (removal_step w keep) c (reverse old).
Proof. reflexivity. Qed.

Lemma teardown_loop_eq w l c :
  foldl (λ c d, removeSub d w c) c l = foldl (removal_step w ∅) c l.
Proof.
  revert c. induction l as [|a l IH]; intros c; simpl; [done|].
  by rewrite IH.
Qed.

(** ** The invariant is kept by every operation *)

Lemma Inv_init : Inv init_deps.
Proof.
  split; unfold subs_of, watcher; simpl; intros.
  - rewrite lookup_empty. apply NoDup_nil_2.
  - rewrite lookup_empty in *. by apply elem_of_nil in H.
  - rewrite lookup_empty. simpl.
    split; [intros H; by apply not_elem_of_empty in H | intros H; by apply elem_of_nil in H].
  - rewrite lookup_empty. simpl.
    split; [intros H; by apply not_elem_of_empty in H | intros H; by apply elem_of_nil in H].
  - apply lookup_empty.
  - done.
  - by apply elem_of_nil in H.
Qed.

(** Dropping subscribers, with the watchers untouched, is harmless. *)
Lemma Inv_shrink c c' :
  watchers c' = watchers c → watcher_uid c' = watcher_uid c →
  target c' = target c → targetStack c' = targetStack c →
  (∀ d, sublist (subs_of c' d) (subs_of c d)) →
  Inv c → Inv c'.
Proof.
  intros Hw Hu Ht Hs Hsub [I1 I2 I3 I4 I5 I6 I7].
  assert (Hwat : ∀ w, watcher c' w = watcher c w)
    by (intros; unfold watcher; by rewrite Hw).
  assert (Hal : ∀ w, allocated c' w ↔ allocated c w)
    by (intros; unfold allocated; by rewrite Hu).
  assert (Hok : ∀ t, target_ok c' t ↔ target_ok c t)
    by (intros [?|]; simpl; [apply Hal | done]).
  split.
  - intros d. eapply sublist_NoDup; [apply I1 | apply Hsub].
  - intros d w Hin. rewrite Hwat. apply I2.
    eapply elem_of_sublist; [done | apply Hsub].
  - intros w d. rewrite Hwat. apply I3.
  - intros w d. rewrite Hwat. apply I4.
  - intros w Hn. rewrite Hw. apply I5. by rewrite <- Hal.
  - rewrite Ht. by apply Hok.
  - intros t. rewrite Hs. intros. apply Hok. by apply I7.
Qed.

Lemma Inv_set_watcher w W' c :
  allocated c w → same_bookkeeping (watcher c w) W' →
  Inv c → Inv (set_watcher w W' c).
Proof.
  intros Hal (E1&E2&E3&E4) [I1 I2 I3 I4 I5 I6 I7].
  split; try done.
  - intros d x Hin. rewrite watcher_set_watcher. case_decide; [subst x|by apply I2].
    rewrite E3, E4. by apply I2.
  - intros x d. rewrite watcher_set_watcher. case_decide; [subst x|by apply I3].
    rewrite E3, E1. apply I3.
  - intros x d. rewrite watcher_set_watcher. case_decide; [subst x|by apply I4].
    rewrite E4, E2. apply I4.
  - intros x Hn. simpl. rewrite lookup_insert_ne; [by apply I5|]. by intros ->.
Qed.

Lemma Inv_set_vm v V c : Inv c → Inv (set_vm v V c).
Proof. intros [I1 I2 I3 I4 I5 I6 I7]. by split. Qed.

Lemma Inv_set_targets t st c :
  target_ok c t → (∀ x, x ∈ st → target_ok c x) →
  Inv c → Inv (set_targets t st c).
Proof. intros Ht Hst [I1 I2 I3 I4 I5 I6 I7]. by split. Qed.

Lemma Inv_new_Dep c : Inv c → Inv (new_Dep c).2.
Proof.
  apply Inv_shrink; try done.
  intros d. unfold subs_of; simpl. rewrite lookup_insert.
  case_decide; simpl; [apply sublist_nil_l | done].
Qed.

Lemma Inv_pushTarget t c : target_ok c t → Inv c → Inv (pushTarget t c).
Proof.
  intros Ht HI. apply Inv_set_targets; [done| |done].
  intros x [Hx|Hx]%elem_of_app; [by apply (inv_stack _ HI)|].
  apply list_elem_of_singleton in Hx. by subst.
Qed.

Lemma elem_of_removelast {A} (l : list A) x : x ∈ removelast l → x ∈ l.
Proof.
  induction l as [|a l IH]; [done|].
  destruct l as [|b l]; [intros H; by apply elem_of_nil in H|].
  change (removelast (a :: b :: l)) with (a :: removelast (b :: l)).
  intros [->|H]%elem_of_cons; [left|right]. by apply IH.
Qed.

Lemma last_elem_of {A} (l : list A) x : last l = Some x → x ∈ l.
Proof.
  induction l as [|a l IH]; [done|].
  destruct l as [|b l]; [intros [= ->]; left|].
  change (last (a :: b :: l)) with (last (b :: l)).
  intros H. right. by apply IH.
Qed.

Lemma Inv_popTarget c : Inv c → Inv (popTarget c).
Proof.
  intros HI. apply Inv_set_targets; [| |done].
  - destruct (last (removelast (targetStack c))) as [t|] eqn:E; [|done].
    simpl. apply (inv_stack _ HI). by apply elem_of_removelast, last_elem_of.
  - intros x Hx. by apply (inv_stack _ HI), elem_of_removelast.
Qed.

Lemma Inv_addDep w d c : allocated c w → Inv c → Inv (addDep w d c).
Proof.
  intros Hal HI. unfold addDep. case_decide as Hnew; [done|].
  set (W' := mkWatcher _ _ _ _ _ _ _ _ _ _ _ _ _).
  assert (HI' : Inv (set_watcher w W' c)).
  { destruct HI as [I1 I2 I3 I4 I5 I6 I7]. split; try done.
    - intros d' x Hin. rewrite watcher_set_watcher.
      case_decide; [subst x|by apply I2]. simpl.
      destruct (I2 _ _ Hin); [by left | right; apply elem_of_union; by right].
    - intros x d'. rewrite watcher_set_watcher.
      case_decide; [subst x|by apply I3]. simpl. apply I3.
    - intros x d'. rewrite watcher_set_watcher.
      case_decide; [subst x|by apply I4]. simpl.
      rewrite elem_of_union, elem_of_singleton, elem_of_app, list_elem_of_singleton.
      rewrite I4. tauto.
    - intros x Hn. simpl. rewrite lookup_insert_ne; [by apply I5|]. by intros ->. }
  case_decide as Hold; [done|].
  destruct HI' as [I1 I2 I3 I4 I5 I6 I7]. split; try done.
  - intros d'. rewrite subs_of_addSub. case_decide; [subst d'|apply I1].
    apply NoDup_app. split; [apply I1|]. split; [|apply NoDup_singleton].
    intros x Hx ->%list_elem_of_singleton.
    destruct (inv_subscribed _ HI _ _ Hx); done.
  - intros d' x. rewrite subs_of_addSub.
    case_decide; [subst d'|apply I2].
    intros [Hx| ->%list_elem_of_singleton]%elem_of_app; [by apply I2|].
    right. rewrite watcher_addSub, watcher_set_watcher, decide_True by done.
    simpl. apply elem_of_union. left. by apply elem_of_singleton.
Qed.

Lemma Inv_depend d c : Inv c → Inv (depend d c).
Proof.
  intros HI. unfold depend. destruct (target c) as [w|] eqn:E; [|done].
  apply Inv_addDep; [|done]. pose proof (inv_target _ HI) as H. by rewrite E in H.
Qed.

Lemma Inv_watcher_depend w c : Inv c → Inv (watcher_depend w c).
Proof.
  unfold watcher_depend. generalize (reverse (w_deps (watcher c w))).
  intros l. revert c. induction l as [|d l IH]; intros c HI; simpl; [done|].
  by apply IH, Inv_depend.
Qed.

Lemma Inv_cleanupDeps w c : allocated c w → Inv c → Inv (cleanupDeps w c).
Proof.
  intros Hal HI. unfold cleanupDeps. rewrite cleanup_loop_eq.
  set (keep := w_newDepIds (watcher c w)).
  set (l := reverse (w_deps (watcher c w))).
  pose proof (removal_frame w keep l c) as Hfr.
  pose proof (same_watchers_watcher _ _ w Hfr) as HW.
  destruct Hfr as (F1&F2&F3&F4&F5&F6).
  set (c1 := foldl (removal_step w keep) c l) in *.
  assert (HI1 : Inv c1).
  { eapply Inv_shrink; [done..| |done]. intros d. apply removal_sublist. }
  rewrite HW.
  destruct HI1 as [I1 I2 I3 I4 I5 I6 I7]. split; try done.
  - intros d x Hin. rewrite watcher_set_watcher.
    case_decide; [subst x; simpl|by apply I2]. left.
    destruct (decide (d ∈ keep)) as [|Hk]; [done|exfalso].
    assert (Hc : w ∈ subs_of c d)
      by (eapply elem_of_sublist; [done | apply removal_sublist]).
    destruct (inv_subscribed _ HI _ _ Hc) as [Hd|Hd]; [|done].
    apply (inv_depIds _ HI) in Hd.
    eapply (removal_gone w keep l c d); [apply (inv_nodup _ HI)| |done|done].
    unfold l. by apply elem_of_reverse.
  - intros x d. rewrite watcher_set_watcher.
    case_decide; [subst x; simpl|by apply I3]. apply (inv_newDepIds _ HI).
  - intros x d. rewrite watcher_set_watcher.
    case_decide; [subst x; simpl|by apply I4].
    split; [intros H; by apply not_elem_of_empty in H | intros H; by apply elem_of_nil in H].
  - intros x Hn. simpl. rewrite lookup_insert_ne; [by apply I5|].
    intros ->. apply Hn. unfold allocated in *. simpl. by rewrite F2.
Qed.

Lemma Inv_teardown w c : allocated c w → Inv c → Inv (teardown w c).
Proof.
  intros Hal HI. unfold teardown. destruct (w_active (watcher c w)); [|done].
  set (c1 := if vm_isBeingDestroyed _ then c else _).
  assert (HI1 : Inv c1 ∧ allocated c1 w).
  { unfold c1. destruct (vm_isBeingDestroyed _); [done|].
    split; [by apply Inv_set_vm | done]. }
  destruct HI1 as [HI1 Hal1]. rewrite teardown_loop_eq.
  set (l := reverse _).
  pose proof (removal_frame w ∅ l c1) as Hfr.
  destruct (Hfr) as (F1&F2&F3&F4&F5&F6).
  apply Inv_set_watcher.
  - unfold allocated. by rewrite F2.
  - by repeat split.
  - eapply Inv_shrink; [done..| |done]. intros d. apply removal_sublist.
Qed.

Lemma Inv_construct vm options isRender c :
  Inv c → Inv (construct vm options isRender c).2.
Proof.
  intros [I1 I2 I3 I4 I5 I6 I7]. unfold construct. simpl.
  set (id := S (watcher_uid c)).
  assert (Hfresh : watchers c !! id = None)
    by (apply I5; unfold allocated, id; lia).
  assert (Hblank : watcher c id = blank_watcher)
    by (unfold watcher; by rewrite Hfresh).
  assert (Hmono : ∀ t, target_ok c t →
            target_ok (mkDepState (subs c) (dep_uid c)
              (<[id := mkWatcher vm (o_deep (default (mkOptions false false false false None) options))
                         (o_user (default (mkOptions false false false false None) options))
                         (o_lazy (default (mkOptions false false false false None) options))
                         (o_sync (default (mkOptions false false false false None) options))
                         (o_lazy (default (mkOptions false false false false None) options))
                         true [] [] ∅ ∅
                         (match options with Some x => o_before x | None => None end)
                         VUndefined]> (watchers c)) id (target c) (targetStack c)
              (<[vm := mkVm (if isRender then Some id else vm_watcher (vm_of c vm))
                        (vm_watchers (vm_of c vm) ++ [id])
                        (vm_isBeingDestroyed (vm_of c vm))]> (vms c))) t).
  { intros [x|]; simpl; [|done]. unfold allocated; simpl. unfold id. lia. }
  split; try done.
  - intros d x Hin. change (subs_of _ d) with (subs_of c d) in Hin.
    unfold watcher; simpl. rewrite lookup_insert. case_decide; [subst x|by apply I2].
    exfalso. destruct (I2 _ _ Hin) as [H|H]; rewrite Hblank in H;
      by apply not_elem_of_empty in H.
  - intros x d. unfold watcher; simpl. rewrite lookup_insert.
    case_decide; [simpl | apply I3].
    split; [intros Hd; by apply not_elem_of_empty in Hd | intros Hd; by apply elem_of_nil in Hd].
  - intros x d. unfold watcher; simpl. rewrite lookup_insert.
    case_decide; [simpl | apply I4].
    split; [intros Hd; by apply not_elem_of_empty in Hd | intros Hd; by apply elem_of_nil in Hd].
  - intros x Hn. simpl. unfold allocated in Hn; simpl in Hn.
    rewrite lookup_insert_ne by (unfold id in *; lia).
    apply I5. unfold allocated. unfold id in *. lia.
  - by apply Hmono.
  - intros t Ht. by apply Hmono, I7.
Qed.

Lemma Inv_run_op o c : Inv c → Inv (run_op o c).
Proof.
  intros HI. destruct o; simpl; unfold on_watcher; repeat case_decide;
    try done.
  - by apply Inv_new_Dep.
  - by apply Inv_construct.
  - by apply Inv_pushTarget.
  - by apply Inv_popTarget.
  - by apply Inv_depend.
  - by apply Inv_addDep.
  - by apply Inv_cleanupDeps.
  - by apply Inv_watcher_depend.
  - by apply Inv_teardown.
  - by apply Inv_set_watcher.
  - by apply Inv_set_watcher.
  - by apply Inv_set_vm.
  - apply (Inv_shrink c); try done. intros d'. rewrite subs_of_removeSub.
    case_decide; [subst; apply remove_sublist | done].
Qed.

Lemma Inv_run_ops ops c : Inv c → Inv (run_ops ops c).
Proof.
  unfold run_ops. revert c.
  induction ops as [|o ops IH]; intros c HI; simpl; [done|].
  by apply IH, Inv_run_op.
Qed.

(** ** Reachable states *)

Lemma run_ops_app a b c : run_ops (a ++ b) c = run_ops b (run_ops a c).
Proof. apply foldl_app. Qed.

Lemma reachable_Inv c : reachable c → Inv c.
Proof. intros [ops ->]. apply Inv_run_ops, Inv_init. Qed.

Lemma reachable_step ops c : reachable c → reachable (run_ops ops c).
Proof. intros [ops0 ->]. exists (ops0 ++ ops). by rewrite run_ops_app. Qed.

Lemma occurrences_NoDup t l : NoDup l → occurrences t l ≤ 1.
Proof.
  unfold occurrences. induction 1 as [|x l Hx Hnd IH]; simpl; [lia|].
  rewrite filter_cons. case_decide; [subst x|done].
  simpl. assert (filter (λ x, x = t) l = []) as ->; [|simpl; lia].
  clear IH Hnd. induction l as [|y l IH]; [done|].
  apply not_elem_of_cons in Hx as [Hne Hx].
  rewrite filter_cons, decide_False by done. by apply IH.
Qed.

Lemma watcher_uid_addDep w d c : watcher_uid (addDep w d c) = watcher_uid c.
Proof. unfold addDep. repeat case_decide; done. Qed.

Lemma watcher_uid_depend d c : watcher_uid (depend d c) = watcher_uid c.
Proof. unfold depend. destruct (target c); [apply watcher_uid_addDep | done]. Qed.

Lemma watcher_uid_watcher_depend w c :
  watcher_uid (watcher_depend w c) = watcher_uid c.
Proof.
  unfold watcher_depend. generalize (reverse (w_deps (watcher c w))).
  intros l. revert c. induction l as [|d l IH]; intros c; simpl; [done|].
  by rewrite IH, watcher_uid_depend.
Qed.

Lemma watcher_uid_cleanupDeps w c : watcher_uid (cleanupDeps w c) = watcher_uid c.
Proof.
  unfold cleanupDeps. rewrite cleanup_loop_eq. simpl.
  apply (removal_frame w _ _ c).
Qed.

Lemma watcher_uid_teardown w c : watcher_uid (teardown w c) = watcher_uid c.
Proof.
  unfold teardown. destruct (w_active _); [|done]. rewrite teardown_loop_eq.
  simpl. etrans; [apply (removal_frame w ∅)|].
  by destruct (vm_isBeingDestroyed _).
Qed.

Lemma watcher_uid_run_op o c : watcher_uid c ≤ watcher_uid (run_op o c).
Proof.
  destruct o; cbn [run_op]; unfold on_watcher; repeat case_decide;
    rewrite ?watcher_uid_depend, ?watcher_uid_addDep, ?watcher_uid_cleanupDeps,
      ?watcher_uid_watcher_depend, ?watcher_uid_teardown; simpl; lia.
Qed.

Lemma allocated_run_op o c w : allocated c w → allocated (run_op o c) w.
Proof.
  unfold allocated. pose proof (watcher_uid_run_op o c). lia.
Qed.

Lemma allocated_run_ops ops c w : allocated c w → allocated (run_ops ops c) w.
Proof.
  unfold run_ops. revert c. induction ops as [|o ops IH]; intros c H; simpl; [done|].
  by apply IH, allocated_run_op.
Qed.

(** ** [addDep], case by case *)

Lemma addDep_seen w d c :
  d ∈ w_newDepIds (watcher c w) → addDep w d c = c.
Proof. intros H. unfold addDep. by rewrite decide_True. Qed.

Lemma addDep_known w d c :
  d ∉ w_newDepIds (watcher c w) → d ∈ w_depIds (watcher c w) →
  subs (addDep w d c) = subs c.
Proof.
  intros H1 H2. unfold addDep. by rewrite decide_False, decide_True.
Qed.

Lemma addDep_new w d c :
  d ∉ w_newDepIds (watcher c w) → d ∉ w_depIds (watcher c w) →
  subs_of (addDep w d c) d = subs_of c d ++ [w].
Proof.
  intros H1 H2. unfold addDep. rewrite !decide_False by done.
  by rewrite subs_of_addSub, decide_True.
Qed.

(** ** [Watcher.prototype.get] on each exit path *)

Lemma get_eq E w s :
  get E w s =
  let s1 := with_deps (pushTarget (Some w)) s in
  let finally_ (completion : outcome value) (value : value) (s' : state) :=
    if w_deep (watcher (deps s') w) then
      match traverse E value s' with
      | (Ok _, s3) => (completion, pop_and_cleanup w s3)
      | (Throw e, s3) => (Throw e, s3)
      | (OutOfFuel, s3) => (OutOfFuel, s3)
      end
    else (completion, pop_and_cleanup w s') in
  match getter_of E w s1 with
  | (Ok v, s2) => finally_ (Ok v) v s2
  | (Throw e, s2) =>
      if w_user (watcher (deps s2) w)
      then finally_ (Ok VUndefined) VUndefined
             (with_log (EHandleError e (w_vm (watcher (deps s) w)) "getter for watcher") s2)
      else finally_ (Throw e) VUndefined s2
  | (OutOfFuel, s2) => (OutOfFuel, s2)
  end.
Proof.
  unfold get, pop_and_cleanup, try_catch_finally, mbind, M_bind, bind,
    update_deps, read, the_watcher, when, handleError, emit, throw, ret.
  simpl.
  destruct (getter_of E w _) as [[v|e|] s2]; simpl; [| |done].
  - destruct (w_deep (watcher (deps s2) w)); [|done].
    by destruct (traverse E v s2) as [[[]|e|] s3].
  - destruct (w_user (watcher (deps s2) w)); simpl;
      (destruct (w_deep (watcher (deps s2) w)); [|done]).
    + by destruct (traverse E VUndefined _) as [[[]|e'|] s3].
    + by destruct (traverse E VUndefined s2) as [[[]|e'|] s3].
Qed.

(** ** Frame rules for the monad *)

Lemma preserves_ret {A} P (a : A) : preserves P (ret a).
Proof. by intros s. Qed.

Lemma preserves_throw {A} P e : preserves P (@throw A e).
Proof. by intros s. Qed.

Lemma preserves_out_of_fuel {A} P : preserves P (@out_of_fuel A).
Proof. by intros s. Qed.

Lemma preserves_read {A} P (f : state → A) : preserves P (read f).
Proof. by intros s. Qed.

Lemma preserves_bind {A B} P (m : M A) (k : A → M B) :
  preserves P m → (∀ a, preserves P (k a)) → preserves P (m ≫= k).
Proof.
  intros Hm Hk s Hs. unfold mbind, M_bind, bind.
  specialize (Hm s Hs). destruct (m s) as [[a|e|] s']; simpl in *; [|done..].
  by apply Hk.
Qed.

(** After a [read], the continuation may use what was read. *)
Lemma preserves_read_bind {A B} (P : state → Prop) (f : state → A) (k : A → M B) :
  (∀ s, P s → P (k (f s) s).2) → preserves P (read f ≫= k).
Proof. intros H s Hs. by apply H. Qed.

Lemma preserves_when P b m : preserves P m → preserves P (when b m).
Proof. destruct b; [done | intros; apply preserves_ret]. Qed.

Lemma preserves_for_each {A} P (l : list A) (body : A → M unit) :
  (∀ x, preserves P (body x)) → preserves P (for_each l body).
Proof.
  intros H. induction l as [|x l IH]; simpl; [apply preserves_ret|].
  apply preserves_bind; [apply H | by intros _].
Qed.

Lemma preserves_for_each_in {A} P (l : list A) (body : A → M unit) :
  (∀ x, x ∈ l → preserves P (body x)) → preserves P (for_each l body).
Proof.
  induction l as [|x l IH]; intros H; simpl; [apply preserves_ret|].
  apply preserves_bind; [apply H; left | intros _].
  apply IH. intros y Hy. apply H. by right.
Qed.

Lemma notify_eq_for_each E d s :
  notify E d s = for_each (notify_order E s d) (update E) s.
Proof. reflexivity. Qed.

Lemma preserves_try_catch_finally P body handler final :
  preserves P body → (∀ e, preserves P (handler e)) →
  (∀ v, preserves P (final v)) →
  preserves P (try_catch_finally body handler final).
Proof.
  intros Hb Hh Hf s Hs. unfold try_catch_finally.
  specialize (Hb s Hs). destruct (body s) as [r s1]. simpl in Hb.
  destruct r as [v|e|]; [| |done].
  - specialize (Hf v s1 Hb). by destruct (final v s1) as [[[]|e|] s3].
  - specialize (Hh e s1 Hb). destruct (handler e s1) as [c s2]. simpl in Hh.
    destruct c as [[]|e'|]; [| |done].
    + specialize (Hf VUndefined s2 Hh). by destruct (final VUndefined s2) as [[[]|e'|] s3].
    + specialize (Hf VUndefined s2 Hh). by destruct (final VUndefined s2) as [[[]|e''|] s3].
Qed.

Lemma preserves_same_state {A} P (m : M A) :
  (∀ s, (m s).2 = s) → preserves P m.
Proof. intros H s Hs. by rewrite H. Qed.

(** One step of a frame proof, along the structure of the computation. *)
Ltac frame_step leaf :=
  lazymatch goal with
  | |- preserves _ (mbind _ _) => apply preserves_bind; [|intros ?]
  | |- preserves _ (ret _) => apply preserves_ret
  | |- preserves _ (throw _) => apply preserves_throw
  | |- preserves _ out_of_fuel => apply preserves_out_of_fuel
  | |- preserves _ (read _) => apply preserves_read
  | |- preserves _ (the_watcher _) => apply preserves_read
  | |- preserves _ (when _ _) => apply preserves_when
  | |- preserves _ (for_each _ _) => apply preserves_for_each; intros ?
  | |- preserves _ (try_catch_finally _ _ _) =>
      apply preserves_try_catch_finally; [|intros ?|intros ?]
  | |- preserves _ (match ?x with _ => _ end) => destruct x
  | _ => leaf
  end.

Ltac frame leaf := repeat (frame_step leaf).

(** ** Every method keeps the Dep/Watcher state reachable *)

Lemma subscriber_allocated c d x :
  reachable c → x ∈ subs_of c d → allocated c x.
Proof.
  intros Hr Hx. pose proof (reachable_Inv _ Hr) as HI.
  destruct (decide (allocated c x)) as [|Hn]; [done|exfalso].
  pose proof (inv_fresh _ HI _ Hn) as Hnone.
  assert (Hblank : watcher c x = blank_watcher)
    by (unfold watcher; by rewrite Hnone).
  destruct (inv_subscribed _ HI _ _ Hx) as [H|H]; rewrite Hblank in H;
    by apply not_elem_of_empty in H.
Qed.

Lemma live_run_op X o s : live X s → live X (with_deps (run_op o) s).
Proof.
  intros [Hr Hal]. split; simpl.
  - by apply (reachable_step [o]).
  - intros x Hx. by apply allocated_run_op, Hal.
Qed.

Lemma preserves_live_op X f o :
  (∀ c, (∀ x, x ∈ X → allocated c x) → f c = run_op o c) →
  preserves (live X) (update_deps f).
Proof.
  intros Hf s Hs. unfold update_deps. simpl.
  replace (with_deps f s) with (with_deps (run_op o) s);
    [by apply live_run_op|].
  unfold with_deps. f_equal. symmetry. apply Hf, Hs.
Qed.

Lemma preserves_live_deps {A} X (m : M A) :
  (∀ s, deps (m s).2 = deps s) → preserves (live X) m.
Proof. intros H s Hs. unfold live. by rewrite H. Qed.

Lemma preserves_live_depend X d : preserves (live X) (update_deps (depend d)).
Proof. by apply (preserves_live_op X _ (ODepend d)). Qed.

Lemma preserves_live_popTarget X : preserves (live X) (update_deps popTarget).
Proof. by apply (preserves_live_op X _ OPopTarget). Qed.

Lemma preserves_live_pushTarget X w :
  w ∈ X → preserves (live X) (update_deps (pushTarget (Some w))).
Proof.
  intros Hw. apply (preserves_live_op X _ (OPushTarget (Some w))).
  intros c Hal. simpl. rewrite decide_True; [done|]. by apply Hal.
Qed.

Lemma preserves_live_cleanupDeps X w :
  w ∈ X → preserves (live X) (update_deps (cleanupDeps w)).
Proof.
  intros Hw. apply (preserves_live_op X _ (OCleanupDeps w)).
  intros c Hal. simpl. unfold on_watcher. rewrite decide_True; [done|]. by apply Hal.
Qed.

Lemma preserves_live_teardown X w :
  w ∈ X → preserves (live X) (update_deps (teardown w)).
Proof.
  intros Hw. apply (preserves_live_op X _ (OTeardown w)).
  intros c Hal. simpl. unfold on_watcher. rewrite decide_True; [done|]. by apply Hal.
Qed.

Lemma preserves_live_watcher_depend X w :
  w ∈ X → preserves (live X) (update_deps (watcher_depend w)).
Proof.
  intros Hw. apply (preserves_live_op X _ (OWatcherDepend w)).
  intros c Hal. simpl. unfold on_watcher. rewrite decide_True; [done|]. by apply Hal.
Qed.

Lemma preserves_live_set_value X w v :
  w ∈ X →
  preserves (live X)
    (update_deps (λ c, set_watcher w (set_value v (watcher c w)) c)).
Proof.
  intros Hw. apply (preserves_live_op X _ (OSetValue w v)).
  intros c Hal. simpl. unfold on_watcher. rewrite decide_True; [done|]. by apply Hal.
Qed.

Lemma preserves_live_set_dirty X w b :
  w ∈ X →
  preserves (live X)
    (update_deps (λ c, set_watcher w (set_dirty b (watcher c w)) c)).
Proof.
  intros Hw. apply (preserves_live_op X _ (OSetDirty w b)).
  intros c Hal. simpl. unfold on_watcher. rewrite decide_True; [done|]. by apply Hal.
Qed.

Lemma preserves_live_new_Dep_M X : preserves (live X) new_Dep_M.
Proof. intros s Hs. by apply (live_run_op X ONewDep). Qed.

Lemma preserves_live_heap X f : preserves (live X) (update_heap f).
Proof. by apply preserves_live_deps. Qed.

Lemma preserves_live_emit X e : preserves (live X) (emit e).
Proof. by apply preserves_live_deps. Qed.

Lemma preserves_invokeWithErrorHandling P handler vm info :
  preserves P handler → (∀ e, preserves P (handleError e vm info)) →
  preserves P (invokeWithErrorHandling handler vm info).
Proof.
  intros Hh He s Hs. unfold invokeWithErrorHandling.
  specialize (Hh s Hs). destruct (handler s) as [[[]|e|] s']; simpl in *; try done.
  by apply He.
Qed.

(** The leaves of a proof that the watchers [X] stay alive. *)
Ltac live_leaf :=
  first
    [ apply preserves_live_depend
    | apply preserves_live_popTarget
    | apply preserves_live_new_Dep_M
    | apply preserves_live_heap
    | apply preserves_live_emit
    | by apply preserves_live_pushTarget
    | by apply preserves_live_cleanupDeps
    | by apply preserves_live_set_value
    | by apply preserves_live_set_dirty
    | by apply getter_live
    | by apply cb_live
    | by apply queueWatcher_live
    | by apply traverse_live
    | by apply property_getter_live
    | by apply property_setter_live
    | by apply customSetter_live
    | by apply original_live ].

Lemma get_live E X w : sound_env E → w ∈ X → preserves (live X) (get E w).
Proof.
  intros HE Hw. unfold get, handleError. frame live_leaf.
Qed.

Lemma run_live E X w : sound_env E → w ∈ X → preserves (live X) (run E w).
Proof.
  intros HE Hw. unfold run.
  frame ltac:(first
    [ by apply get_live
    | apply preserves_invokeWithErrorHandling;
        [by apply cb_live | intros ?; apply preserves_live_emit]
    | live_leaf ]).
Qed.

Lemma update_live E X w : sound_env E → w ∈ X → preserves (live X) (update E w).
Proof.
  intros HE Hw. unfold update.
  frame ltac:(first [by apply run_live | live_leaf]).
Qed.

Lemma evaluate_live E X w :
  sound_env E → w ∈ X → preserves (live X) (evaluate E w).
Proof.
  intros HE Hw. unfold evaluate.
  frame ltac:(first [by apply get_live | live_leaf]).
Qed.

Lemma live_weaken X Y s : live (X ++ Y) s → live X s.
Proof. intros [Hr Hal]. split; [done|]. intros x Hx. apply Hal, elem_of_app. by left. Qed.

Lemma notify_live E X d : sound_env E → preserves (live X) (notify E d).
Proof.
  intros HE s Hs. rewrite notify_eq_for_each.
  set (l := notify_order E s d).
  assert (Hl : live (X ++ l) s).
  { destruct Hs as [Hr Hal]. split; [done|].
    intros x [Hx|Hx]%elem_of_app; [by apply Hal|].
    apply (subscriber_allocated _ d); [done|].
    revert Hx. unfold l, notify_order. destruct (_ && _); [|done].
    by rewrite merge_sort_Permutation. }
  apply (live_weaken X l).
  revert Hl. apply preserves_for_each_in. intros x Hx.
  apply update_live; [done|]. apply elem_of_app. by right.
Qed.

Lemma new_Watcher_live E X vm options isRender :
  sound_env E → preserves (live X) (new_Watcher E vm options isRender).
Proof.
  intros HE s Hs. unfold new_Watcher.
  unfold mbind at 1, M_bind at 1, bind at 1.
  destruct (construct vm options isRender (deps s)) as [id c] eqn:Hc.
  assert (Hid : id = S (watcher_uid (deps s)) ∧
                c = run_op (ONewWatcher vm options isRender) (deps s)).
  { unfold construct in Hc. simpl. unfold construct. by injection Hc as <- <-. }
  destruct Hid as [Hid ->].
  apply (live_weaken X [id]).
  assert (Hl : live (X ++ [id])
                 (with_deps (λ _, run_op (ONewWatcher vm options isRender) (deps s)) s)).
  { pose proof (live_run_op X (ONewWatcher vm options isRender) s Hs) as [Hr Hal].
    split; [done|]. intros x [Hx| ->%list_elem_of_singleton]%elem_of_app; [by apply Hal|].
    unfold allocated. simpl. lia. }
  revert Hl.
  assert (Hin : id ∈ X ++ [id]) by (apply elem_of_app; right; left).
  generalize (with_deps (λ _, run_op (ONewWatcher vm options isRender) (deps s)) s).
  change (preserves (live (X ++ [id]))
    (W ← the_watcher id;
     value ← (if w_lazy W then ret VUndefined else get E id);
     update_deps (λ c, set_watcher id (set_value value (watcher c id)) c) ;;
     ret id)).
  frame ltac:(first [by apply get_live | live_leaf]).
Qed.

Lemma reachable_duplicate_free c : reachable c → duplicate_free c.
Proof.
  intros Hr d t. apply occurrences_NoDup, (inv_nodup _ (reachable_Inv _ Hr)).
Qed.

Lemma sample_env_sound prod getters cbs queue :
  (∀ X w, preserves (live X) (getters w)) →
  (∀ X w v o, preserves (live X) (cbs w v o)) →
  (∀ X w, preserves (live X) (queue w)) →
  sound_env (sample_env prod getters cbs queue).
Proof.
  intros Hg Hc Hq. split; simpl; intros; try done; try apply preserves_ret.
  apply preserves_live_deps. intros s.
  unfold sample_original. by destruct m.
Qed.

Lemma reading_getter_live X ds v : preserves (live X) (reading_getter ds v).
Proof. unfold reading_getter. frame live_leaf. Qed.

Lemma throwing_getter_live X ds e : preserves (live X) (throwing_getter ds e).
Proof. unfold throwing_getter. frame live_leaf. Qed.

(** What [get] returns, and in which state, when the getter is done. *)
Lemma get_outcome E w s s2 s3 r :
  getter_of E w (with_deps (pushTarget (Some w)) s) = (r, s2) →
  r ≠ OutOfFuel →
  traversal_ends E w s s2 r s3 →
  get E w s = (completion_of w s2 r, pop_and_cleanup w s3).
Proof.
  intros Hg Hfuel Htr.
  rewrite get_eq. cbv zeta. rewrite Hg.
  unfold traversal_ends, after_catch, completion_of, value_of in *.
  destruct r as [v|e|]; [| |done].
  - destruct (w_deep (watcher (deps s2) w)); [by rewrite Htr | by subst].
  - destruct (w_user (watcher (deps s2) w)); simpl;
      (destruct (w_deep (watcher (deps s2) w)); [by rewrite Htr | by subst]).
Qed.

Lemma get_end_live E X w s s2 s3 r :
  sound_env E → w ∈ X → live X s →
  getter_of E w (with_deps (pushTarget (Some w)) s) = (r, s2) →
  traversal_ends E w s s2 r s3 →
  live X s3.
Proof.
  intros HE Hw Hs Hg Htr.
  assert (H1 : live X (with_deps (pushTarget (Some w)) s))
    by (by apply (preserves_live_pushTarget X w Hw s)).
  pose proof (getter_live E HE X w _ H1) as H2. rewrite Hg in H2. simpl in H2.
  assert (H3 : live X (after_catch w s s2 r)).
  { unfold after_catch. destruct r as [v|e|]; try done.
    by destruct (w_user _). }
  unfold traversal_ends in Htr.
  destruct (w_deep _); [|by subst].
  pose proof (traverse_live E HE X (value_of r) _ H3) as H4.
  by rewrite Htr in H4.
Qed.

(** ** Frame facts about the watcher records *)

Lemma cleanupDeps_watcher w c :
  watcher (cleanupDeps w c) w =
  let W := watcher c w in
  mkWatcher (w_vm W) (w_deep W) (w_user W) (w_lazy W) (w_sync W) (w_dirty W)
    (w_active W) (w_newDeps W) [] (w_newDepIds W) ∅ (w_before W) (w_value W).
Proof.
  unfold cleanupDeps. rewrite cleanup_loop_eq, watcher_set_watcher, decide_True by done.
  by rewrite (same_watchers_watcher _ _ w (removal_frame w _ _ c)).
Qed.

Lemma cleanupDeps_subs_of w c d :
  subs_of (cleanupDeps w c) d =
  subs_of (foldl (removal_step w (w_newDepIds (watcher c w))) c
             (reverse (w_deps (watcher c w)))) d.
Proof. reflexivity. Qed.

Lemma cleanupDeps_targetStack w c :
  targetStack (cleanupDeps w c) = targetStack c.
Proof.
  unfold cleanupDeps. rewrite cleanup_loop_eq. simpl.
  apply (removal_frame w _ _ c).
Qed.

Lemma cleanupDeps_removed w c d :
  Inv c → d ∉ w_newDepIds (watcher c w) → w ∉ subs_of (cleanupDeps w c) d.
Proof.
  intros HI Hd Hin. rewrite cleanupDeps_subs_of in Hin.
  assert (Hc : w ∈ subs_of c d)
    by (eapply elem_of_sublist; [done | apply removal_sublist]).
  destruct (inv_subscribed _ HI _ _ Hc) as [Hold|Hnew]; [|done].
  apply (inv_depIds _ HI) in Hold.
  revert Hin. apply removal_gone; [apply (inv_nodup _ HI)| |done].
  by apply elem_of_reverse.
Qed.

Lemma cleanupDeps_kept w c d :
  d ∈ w_newDepIds (watcher c w) → subs_of (cleanupDeps w c) d = subs_of c d.
Proof. intros Hd. rewrite cleanupDeps_subs_of. apply removal_untouched. by right. Qed.

Lemma addDep_elem w d c x d' :
  x ∈ subs_of (addDep w d c) d' → x ∈ subs_of c d' ∨ (x = w ∧ d' = d).
Proof.
  unfold addDep. repeat case_decide; try (by left).
  rewrite subs_of_addSub. case_decide; [subst d'|by left].
  intros [Hx| ->%list_elem_of_singleton]%elem_of_app; [by left | by right].
Qed.

Lemma target_addDep w d c : target (addDep w d c) = target c.
Proof. unfold addDep. by repeat case_decide. Qed.

Lemma depend_elem d c x d' :
  x ∈ subs_of (depend d c) d' → x ∈ subs_of c d' ∨ (target c = Some x ∧ d' = d).
Proof.
  unfold depend. destruct (target c) as [t|]; [|by left].
  intros [H|[-> ->]]%addDep_elem; [by left | by right].
Qed.

Lemma depends_elem l c x d' :
  x ∈ subs_of (foldl (λ c d, depend d c) c l) d' →
  x ∈ subs_of c d' ∨ target c = Some x.
Proof.
  revert c. induction l as [|d l IH]; intros c; simpl; [by left|].
  intros [H|H]%IH.
  - apply depend_elem in H as [H'|[H' _]]; [by left | by right].
  - right. rewrite <- H. unfold depend.
    destruct (target c) eqn:Et; [by rewrite target_addDep | done].
Qed.

Lemma teardown_elem w c x d : x ∈ subs_of (teardown w c) d → x ∈ subs_of c d.
Proof.
  unfold teardown. destruct (w_active _); [|done]. rewrite teardown_loop_eq.
  intros H. change (subs_of (set_watcher _ _ ?c') d) with (subs_of c' d) in H.
  eapply elem_of_sublist in H; [|apply removal_sublist].
  by destruct (vm_isBeingDestroyed _).
Qed.

(** Only a recording by [w] itself puts [w] among the subscribers of [d]. *)
Lemma subscribed_only_by_reading o c w d :
  w ∉ subs_of c d → w ∈ subs_of (run_op o c) d → records o c w d.
Proof.
  intros Hnot Hin. unfold records.
  destruct o; cbn [run_op] in Hin; unfold on_watcher in Hin;
    repeat case_decide; try done.
  - exfalso. revert Hin. unfold subs_of; simpl. rewrite lookup_insert.
    case_decide; simpl; [apply not_elem_of_nil | done].
  - apply depend_elem in Hin as [?|[? ->]]; [done|]. right. split; [done|by left].
  - apply addDep_elem in Hin as [?|[-> ->]]; [done|]. by left.
  - exfalso. apply Hnot. rewrite cleanupDeps_subs_of in Hin.
    eapply elem_of_sublist; [done | apply removal_sublist].
  - apply depends_elem in Hin as [?|?]; [done|]. right. split; [done|]. right. by eexists.
  - exfalso. by apply Hnot, (teardown_elem w0).
  - exfalso. apply Hnot. rewrite subs_of_removeSub in Hin.
    case_decide; [subst; by eapply remove_elem | done].
Qed.

(** ** [notify] does not reach the closures of a watcher outside [subs] *)

Lemma get_with_closures E w g cb x :
  x ≠ w → get (with_closures E w g cb) x = get E x.
Proof. intros Hne. unfold get, with_closures. simpl. by rewrite decide_False. Qed.

Lemma update_with_closures E w g cb x :
  x ≠ w → update (with_closures E w g cb) x = update E x.
Proof.
  intros Hne. unfold update, run. rewrite get_with_closures by done.
  unfold with_closures; simpl. by rewrite decide_False.
Qed.

Lemma for_each_ext {A} (l : list A) (f g : A → M unit) s :
  (∀ x, x ∈ l → f x = g x) → for_each l f s = for_each l g s.
Proof.
  revert s. induction l as [|a l IH]; intros s H; simpl; [done|].
  unfold mbind, M_bind, bind. rewrite (H a) by left.
  destruct (g a s) as [[[]|e|] s']; [|done..].
  apply IH. intros x Hx. apply H. by right.
Qed.

Lemma notify_with_closures E w g cb d s :
  w ∉ subs_of (deps s) d →
  (w ∉ notify_order E s d) ∧
  notify (with_closures E w g cb) d s = notify E d s.
Proof.
  intros Hw.
  assert (Hord : w ∉ notify_order E s d).
  { unfold notify_order. destruct (_ && _); [|done].
    by rewrite merge_sort_Permutation. }
  split; [done|].
  unfold notify, mbind, M_bind, bind, read.
  change (notify_order (with_closures E w g cb) s d) with (notify_order E s d).
  apply for_each_ext. intros x Hx. apply update_with_closures. by intros ->.
Qed.

(** C2. When [cleanupDeps] returns at the end of [get], the watcher is gone
    from the subscribers of every dep of the previous [deps] whose id is not
    in the new id set, [deps] is the former [newDeps] and [newDeps] is empty.
    So a dep that the evaluation did not record does not have the watcher
    among the subscribers that [notify] updates, [notify] gives the same
    result whatever the getter and the callback of the watcher are, and only
    a recording by the watcher itself subscribes it again. *)
Theorem cleanupDeps_sheds_unread (c : DepState) (w : nat) :
  reachable c →
  let W := watcher c w in
  let c' := cleanupDeps w c in
  (∀ d, d ∈ w_deps W → d ∉ w_newDepIds W → w ∉ subs_of c' d) ∧
  w_deps (watcher c' w) = w_newDeps W ∧
  w_newDeps (watcher c' w) = [] ∧
  w_depIds (watcher c' w) = w_newDepIds W ∧
  w_newDepIds (watcher c' w) = ∅ ∧
  (∀ d, d ∈ w_newDepIds W → subs_of c' d = subs_of c d) ∧
  (∀ d, d ∉ w_newDepIds W → w ∉ subs_of c' d) ∧
  (∀ E s d g cb,
     deps s = c' → d ∉ w_newDepIds W →
     (w ∉ notify_order E s d) ∧
     notify (with_closures E w g cb) d s = notify E d s) ∧
  (∀ o c2 d, w ∉ subs_of c2 d → w ∈ subs_of (run_op o c2) d → records o c2 w d) ∧
  (∀ E s s2 s3 r d g cb,
     sound_env E → reachable (deps s) → allocated (deps s) w →
     getter_of E w (with_deps (pushTarget (Some w)) s) = (r, s2) →
     r ≠ OutOfFuel → traversal_ends E w s s2 r s3 →
     d ∉ w_newDepIds (watcher (deps s3) w) →
     let s' := (get E w s).2 in
     (w ∉ subs_of (deps s') d) ∧ (w ∉ notify_order E s' d) ∧
     notify (with_closures E w g cb) d s' = notify E d s').
Proof.
  intros Hr W c'. pose proof (reachable_Inv _ Hr) as HI.
  unfold c'. rewrite cleanupDeps_watcher. cbn [w_deps w_newDeps w_depIds w_newDepIds].
  split_and!; try done.
  - intros d _ Hd. by apply cleanupDeps_removed.
  - intros d Hd. by apply cleanupDeps_kept.
  - intros d Hd. by apply cleanupDeps_removed.
  - intros E s d g cb Hs Hd. apply notify_with_closures.
    rewrite Hs. by apply cleanupDeps_removed.
  - intros. by apply subscribed_only_by_reading.
  - intros E s s2 s3 r d g cb HE Hrs Hal Hg Hfuel Htr Hd.
    set (s' := (get E w s).2).
    assert (Hl : live [w] s).
    { split; [done|]. by intros x ->%list_elem_of_singleton. }
    assert (Hw : w ∈ [w]) by left.
    pose proof (get_end_live E [w] w s s2 s3 r HE Hw Hl Hg Htr) as [Hr3 _].
    assert (Hs' : deps s' = cleanupDeps w (popTarget (deps s3))).
    { unfold s'. by rewrite (get_outcome E w s s2 s3 r Hg Hfuel Htr). }
    assert (Hgone : w ∉ subs_of (deps s') d).
    { rewrite Hs'. apply cleanupDeps_removed; [|done].
      by apply Inv_popTarget, reachable_Inv. }
    split; [done|]. by apply notify_with_closures.
Qed.

Lemma cleanupDeps_sheds_unread_witness :
  let c := run_ops ([ONewDep; ONewDep; ONewWatcher 0 None false] ++
                    evaluation 1 [ODepend 0] ++
                    [OPushTarget (Some 1); ODepend 1; OPopTarget]) init_deps in
  reachable c ∧ 0 ∈ w_deps (watcher c 1) ∧ (0 ∉ w_newDepIds (watcher c 1)) ∧
  1 ∈ subs_of c 0 ∧ (1 ∉ subs_of (cleanupDeps 1 c) 0).
Proof.
  intros c.
  assert (Hr : reachable c) by (eexists; reflexivity).
  assert (H1 : 0 ∈ w_deps (watcher c 1)) by (by_compute).
  assert (H2 : 0 ∉ w_newDepIds (watcher c 1)) by (by_compute).
  split_and!; try done.
  - by_compute.
  - exact (proj1 (cleanupDeps_sheds_unread c 1 Hr) 0 H1 H2).
Defined.

(** ** Teardown *)

Lemma active_addDep w d c x :
  w_active (watcher (addDep w d c) x) = w_active (watcher c x).
Proof.
  unfold addDep. repeat case_decide; try done;
    rewrite ?watcher_addSub, watcher_set_watcher; by case_decide; subst.
Qed.

Lemma active_depend d c x :
  w_active (watcher (depend d c) x) = w_active (watcher c x).
Proof. unfold depend. destruct (target c); [apply active_addDep | done]. Qed.

Lemma active_watcher_depend w c x :
  w_active (watcher (watcher_depend w c) x) = w_active (watcher c x).
Proof.
  unfold watcher_depend. generalize (reverse (w_deps (watcher c w))).
  intros l. revert c. induction l as [|d l IH]; intros c; simpl; [done|].
  by rewrite IH, active_depend.
Qed.

Lemma active_cleanupDeps w c x :
  w_active (watcher (cleanupDeps w c) x) = w_active (watcher c x).
Proof.
  destruct (decide (w = x)) as [->|Hne]; [by rewrite cleanupDeps_watcher|].
  unfold cleanupDeps. rewrite cleanup_loop_eq, watcher_set_watcher, decide_False by done.
  by rewrite (same_watchers_watcher _ _ x (removal_frame w _ _ c)).
Qed.

Lemma teardown_watcher w c x :
  watcher (teardown w c) x =
  if decide (w = x) then set_active false (watcher c x) else watcher c x.
Proof.
  unfold teardown. destruct (w_active (watcher c w)) eqn:Ha.
  - rewrite teardown_loop_eq, watcher_set_watcher.
    assert (Hw : ∀ y, watcher (foldl (removal_step w ∅)
                (if vm_isBeingDestroyed (vm_of c (w_vm (watcher c w))) then c
                 else set_vm (w_vm (watcher c w))
                        (mkVm (vm_watcher (vm_of c (w_vm (watcher c w))))
                           (remove (vm_watchers (vm_of c (w_vm (watcher c w)))) w)
                           (vm_isBeingDestroyed (vm_of c (w_vm (watcher c w))))) c)
                (reverse (w_deps (watcher c w)))) y = watcher c y).
    { intros y. rewrite (same_watchers_watcher _ _ y (removal_frame w ∅ _ _)).
      by destruct (vm_isBeingDestroyed _). }
    case_decide; [subst x; by rewrite Hw | apply Hw].
  - case_decide; [subst x|done].
    destruct (watcher c w); simpl in *. by subst.
Qed.

Lemma active_run_op o c w :
  allocated c w → w_active (watcher c w) = false →
  w_active (watcher (run_op o c) w) = false.
Proof.
  intros Hal Ha.
  destruct o; cbn [run_op]; unfold on_watcher; repeat case_decide;
    rewrite ?active_depend, ?active_addDep, ?active_cleanupDeps,
      ?active_watcher_depend; try done.
  - unfold watcher; simpl. rewrite lookup_insert_ne; [done|].
    destruct Hal. lia.
  - rewrite teardown_watcher. case_decide; [done|done].
  - rewrite watcher_set_watcher. case_decide; [by subst|done].
  - rewrite watcher_set_watcher. case_decide; [by subst|done].
Qed.

Lemma active_run_ops ops c w :
  allocated c w → w_active (watcher c w) = false →
  w_active (watcher (run_ops ops c) w) = false.
Proof.
  unfold run_ops. revert c.
  induction ops as [|o ops IH]; intros c Hal Ha; simpl; [done|].
  apply IH; [by apply allocated_run_op | by apply active_run_op].
Qed.

Lemma run_inactive E w s :
  w_active (watcher (deps s) w) = false → run E w s = (Ok tt, s).
Proof.
  intros Ha. unfold run, mbind, M_bind, bind, the_watcher, read. by rewrite Ha.
Qed.

Lemma teardown_removed w c d :
  Inv c → w_active (watcher c w) = true → d ∈ w_deps (watcher c w) →
  w ∉ subs_of (teardown w c) d.
Proof.
  intros HI Ha Hd. unfold teardown. rewrite Ha, teardown_loop_eq.
  change (subs_of (set_watcher _ _ ?c') d) with (subs_of c' d).
  apply removal_gone.
  - destruct (vm_isBeingDestroyed _); apply (inv_nodup _ HI).
  - by apply elem_of_reverse.
  - apply not_elem_of_empty.
Qed.

Lemma preserves_inactive_deps w f :
  (∀ c, w_active (watcher (f c) w) = w_active (watcher c w)) →
  preserves (inactive w) (update_deps f).
Proof. intros Hf s Hs. unfold inactive in *. simpl. by rewrite Hf. Qed.

Lemma active_set_watcher w x g c :
  (∀ W, w_active (g W) = w_active W) →
  w_active (watcher (set_watcher x (g (watcher c x)) c) w) = w_active (watcher c w).
Proof.
  intros Hg. rewrite watcher_set_watcher. case_decide; [subst; apply Hg | done].
Qed.

Ltac quiet_leaf :=
  first
    [ apply preserves_inactive_deps; intros ?;
        first [ reflexivity | apply active_cleanupDeps
              | by apply active_set_watcher ]
    | by intros ? ?
    | by apply getter_quiet
    | by apply cb_quiet
    | by apply queueWatcher_quiet
    | by apply traverse_quiet ].

Lemma update_quiet E w x : quiet_env E w → preserves (inactive w) (update E x).
Proof.
  intros HE. unfold update, run, get, handleError, emit.
  frame ltac:(first
    [ apply preserves_invokeWithErrorHandling;
        [by apply cb_quiet | by intros ? ? ?]
    | quiet_leaf ]).
Qed.

Lemma update_inactive_closures E w g cb s :
  inactive w s → update (with_closures E w g cb) w s = update E w s.
Proof.
  intros Hs. unfold update, mbind, M_bind, bind, the_watcher, read.
  destruct (w_lazy (watcher (deps s) w)); [done|].
  destruct (w_sync (watcher (deps s) w)); [|done].
  by rewrite !run_inactive.
Qed.

Lemma notify_inactive_closures E w g cb d s :
  quiet_env E w → inactive w s →
  notify (with_closures E w g cb) d s = notify E d s.
Proof.
  intros HE Hs. rewrite !notify_eq_for_each.
  change (notify_order (with_closures E w g cb) s d) with (notify_order E s d).
  generalize (notify_order E s d). intros l. revert s Hs.
  induction l as [|x l IH]; intros s Hs; [done|].
  cbn [for_each]. unfold mbind, M_bind, bind.
  assert (Hx : update (with_closures E w g cb) x s = update E x s).
  { destruct (decide (x = w)) as [->|Hne];
      [by apply update_inactive_closures | by rewrite update_with_closures]. }
  rewrite Hx. pose proof (update_quiet E w x HE s Hs) as Hs'.
  destruct (update E x s) as [[[]|e|] s']; [|done..].
  by apply IH.
Qed.

(** C3, as the code has it. After [teardown] returns on a watcher that was
    active, the watcher is gone from the subscribers of every dep in its
    [deps]; in every case its [active] flag is false and stays false through
    whatever the program does next, and with the flag false [run] returns at
    once, so that afterwards [run], [update] and every [notify] give the same
    result whatever the getter and the callback of the watcher are: they are
    not called. *)
Theorem teardown_completeness (c : DepState) (w : nat) :
  reachable c → allocated c w →
  let c' := teardown w c in
  (w_active (watcher c w) = true →
   ∀ d, d ∈ w_deps (watcher c w) → w ∉ subs_of c' d) ∧
  w_active (watcher c' w) = false ∧
  (∀ ops, w_active (watcher (run_ops ops c') w) = false) ∧
  (∀ E s ops, deps s = run_ops ops c' → run E w s = (Ok tt, s)) ∧
  (∀ E s ops g cb, deps s = run_ops ops c' →
     run (with_closures E w g cb) w s = run E w s ∧
     update (with_closures E w g cb) w s = update E w s) ∧
  (∀ E s ops g cb d, deps s = run_ops ops c' → quiet_env E w →
     notify (with_closures E w g cb) d s = notify E d s).
Proof.
  intros Hr Hal c'.
  assert (Hoff : w_active (watcher c' w) = false).
  { unfold c'. rewrite teardown_watcher, decide_True by done.
    destruct (w_active (watcher c w)) eqn:Ha; [done|].
    by destruct (watcher c w). }
  assert (Hal' : allocated c' w).
  { unfold c', allocated. rewrite watcher_uid_teardown. apply Hal. }
  assert (Hstay : ∀ ops, w_active (watcher (run_ops ops c') w) = false)
    by (intros; by apply active_run_ops).
  assert (Hin : ∀ s ops, deps s = run_ops ops c' → inactive w s).
  { intros s ops Hs. unfold inactive. rewrite Hs. apply Hstay. }
  split_and!; try done.
  - intros Ha d Hd. apply teardown_removed; [by apply reachable_Inv|done..].
  - intros E s ops Hs. apply run_inactive. by eapply Hin.
  - intros E s ops g cb Hs. split.
    + rewrite !run_inactive; [done|by eapply Hin..].
    + apply update_inactive_closures. by eapply Hin.
  - intros E s ops g cb d Hs HE. apply notify_inactive_closures; [done|].
    by eapply Hin.
Qed.

Lemma teardown_completeness_witness :
  let c := run_ops ([ONewDep; ONewWatcher 0 None false] ++
                    evaluation 1 [ODepend 0]) init_deps in
  reachable c ∧ allocated c 1 ∧ w_active (watcher c 1) = true ∧
  1 ∈ subs_of c 0 ∧ (1 ∉ subs_of (teardown 1 c) 0) ∧
  w_active (watcher (teardown 1 c) 1) = false.
Proof.
  intros c.
  assert (Hr : reachable c) by (eexists; reflexivity).
  assert (Hal : allocated c 1) by (by_compute).
  pose proof (teardown_completeness c 1 Hr Hal) as (H1 & H2 & _).
  split_and!; try done.
  - by_compute.
  - apply H1; [reflexivity|]. by_compute.
Defined.

(** C3, as the claim has it, fails: [teardown] does nothing on a watcher
    that is inactive already, also when an evaluation after the first
    [teardown] has subscribed it again. *)
Lemma teardown_inactive_counterexample :
  let c := run_ops ([ONewDep; ONewWatcher 0 None false; OTeardown 1] ++
                    evaluation 1 [ODepend 0]) init_deps in
  reachable c ∧ allocated c 1 ∧ 0 ∈ w_deps (watcher c 1) ∧
  1 ∈ subs_of (teardown 1 c) 0.
Proof.
  intros c. split_and!.
  - eexists; reflexivity.
  - by_compute.
  - by_compute.
  - by_compute.
Qed.

(** ** [get]: the bookkeeping is restored on every path *)



(** ** The order of notifications *)

(** C9, as the code has it. In a build that is not the production build
    ([process.env.NODE_ENV !== 'production']), whenever [config.async] is
    false, [notify] sorts its copy of the subscribers by id, ascending, and
    calls [update] on each in that order; in a production build, and whenever
    [config.async] is true, it walks the copy in subscription order. *)
Theorem notify_sorts_when_sync (E : Env) (s : state) (d : nat) :
  (production E = false → config_async s = false →
     Sorted (≤) (notify_order E s d) ∧
     notify_order E s d ≡ₚ subs_of (deps s) d) ∧
  (production E = true ∨ config_async s = true →
     notify_order E s d = subs_of (deps s) d) ∧
  notify E d s = for_each (notify_order E s d) (update E) s.
Proof.
  unfold notify_order. split_and!.
  - intros -> ->. simpl. split.
    + apply (Sorted_merge_sort (≤)).
    + apply merge_sort_Permutation.
  - intros [-> | ->]; [done|]. by rewrite andb_false_r.
  - reflexivity.
Qed.

Lemma notify_sorts_when_sync_witness :
  let E := sample_env false (λ _, ret VUndefined) (λ _ _ _, ret tt) (λ _, ret tt) in
  let c := run_ops ([ONewDep; ONewWatcher 0 None false; ONewWatcher 0 None false] ++
                    evaluation 2 [ODepend 0] ++ evaluation 1 [ODepend 0]) init_deps in
  let s := state_of c false in
  subs_of (deps s) 0 = [2; 1] ∧ notify_order E s 0 = [1; 2] ∧
  Sorted (≤) (notify_order E s 0).
Proof.
  intros E c s. split_and!; [by vm_compute..|].
  exact (proj1 (proj1 (notify_sorts_when_sync E s 0) eq_refl eq_refl)).
Defined.

(** C9, as the claim has it, fails: in a production build [config.async]
    being false does not make [notify] sort. *)
Lemma notify_production_counterexample :
  let E := sample_env true (λ _, ret VUndefined) (λ _ _ _, ret tt) (λ _, ret tt) in
  let c := run_ops ([ONewDep; ONewWatcher 0 None false; ONewWatcher 0 None false] ++
                    evaluation 2 [ODepend 0] ++ evaluation 1 [ODepend 0]) init_deps in
  let s := state_of c false in
  config_async s = false ∧ notify_order E s 0 = [2; 1] ∧
  ¬ Sorted (≤) (notify_order E s 0).
Proof.
  intros E c s. split_and!; [by vm_compute..|].
  assert (notify_order E s 0 = [2; 1]) as -> by (by vm_compute).
  intros H. apply Sorted_inv in H as [_ H]. apply HdRel_inv in H. lia.
Qed.

(** ** Observed data *)

Ltac munfold :=
  unfold mbind, M_bind, bind, read, ret, throw, when, update_heap, update_deps,
    emit, out_of_fuel, new_Dep_M, warn in *.

(** C10. When the property that [defineReactive] is asked to convert exists
    and is not configurable, the call returns at once: the object and the
    whole of the observed data are as before (no accessor, no closure
    variables), every existing [subs] array is as before, and the one thing
    made, the [Dep] created on entry, has no subscriber and is referred to by
    nothing. *)
Theorem defineReactive_non_configurable (E : Env) (fuel obj : nat) (key : string)
    (val : option value) (customSetter : option nat) (shallow : bool)
    (s : state) (p : property) :
  getOwnPropertyDescriptor (heap s) obj key = Some p →
  p_configurable p = false →
  let r := defineReactive E fuel obj key val customSetter shallow s in
  r.1 = Ok tt ∧
  heap r.2 = heap s ∧
  obj_of (heap r.2) obj = obj_of (heap s) obj ∧
  getOwnPropertyDescriptor (heap r.2) obj key = Some p ∧
  log r.2 = log s ∧
  deps r.2 = (new_Dep (deps s)).2 ∧
  watchers (deps r.2) = watchers (deps s) ∧
  subs_of (deps r.2) (dep_uid (deps s)) = [] ∧
  (∀ d, d ≠ dep_uid (deps s) → subs_of (deps r.2) d = subs_of (deps s) d).
Proof.
  intros Hp Hc r.
  assert (Hr : r = (Ok tt, with_deps (λ _, (new_Dep (deps s)).2) s)).
  { unfold r, defineReactive, defineReactive_with. munfold. simpl.
    rewrite Hp. simpl. by rewrite Hc. }
  rewrite Hr. cbn [fst snd]. split_and!; try done.
  - unfold subs_of. simpl. by rewrite lookup_insert_eq.
  - intros d Hd. unfold subs_of. simpl. by rewrite lookup_insert_ne.
Qed.

Lemma defineReactive_non_configurable_witness :
  let E := sample_env false (λ _, ret VUndefined) (λ _ _ _, ret tt) (λ _, ret tt) in
  let O := plain_object [("x", mkProp (SData (VNum (Fin 1))) true true false)] in
  let s := state_of_heap (heap_of [(0, O)]) in
  let r := defineReactive E 5 0 "x" None None false s in
  getOwnPropertyDescriptor (heap s) 0 "x" =
    Some (mkProp (SData (VNum (Fin 1))) true true false) ∧
  r.1 = Ok tt ∧ heap r.2 = heap s.
Proof.
  intros E O s r.
  assert (Hp : getOwnPropertyDescriptor (heap s) 0 "x" =
               Some (mkProp (SData (VNum (Fin 1))) true true false))
    by (by vm_compute).
  pose proof (defineReactive_non_configurable E 5 0 "x" None None false s _ Hp eq_refl)
    as (H1 & H2 & _).
  by split_and!.
Defined.

(** ** [observe] *)

Arguments isObject : simpl never.
Arguments own_observer : simpl never.
Arguments obj_of : simpl never.
Arguments observer_of : simpl never.
Arguments cell_of : simpl never.
Arguments getOwnPropertyDescriptor : simpl never.

Lemma observe_S E fuel v asRoot :
  observe E (S fuel) v asRoot =
  observe_body E (λ v, observe E fuel v false) fuel v asRoot.
Proof. reflexivity. Qed.

Lemma observe_existing E fuel a asRoot s o :
  isObject (heap s) (VRef a) = true →
  o_vnode (obj_of (heap s) a) = false →
  own_observer (heap s) a = Some o →
  observe E (S fuel) (VRef a) asRoot s =
  (Ok (Some o), if asRoot then with_heap (count_root o) s else s).
Proof.
  intros Hobj Hv Ho. rewrite observe_S. unfold observe_body. munfold.
  simpl. rewrite Hobj, Hv. simpl. rewrite Ho. by destruct asRoot.
Qed.

Lemma observe_not_object E fuel v asRoot s :
  isObject (heap s) v = false →
  observe E (S fuel) v asRoot s = (Ok None, s).
Proof.
  intros Hobj. rewrite observe_S. unfold observe_body. munfold.
  destruct v; try done. simpl. by rewrite Hobj.
Qed.

Lemma observe_vnode E fuel a asRoot s :
  o_vnode (obj_of (heap s) a) = true →
  observe E (S fuel) (VRef a) asRoot s = (Ok None, s).
Proof.
  intros Hv. rewrite observe_S. unfold observe_body. munfold.
  simpl. by rewrite Hv, orb_true_r.
Qed.

Lemma observe_not_extensible E fuel a asRoot s :
  own_observer (heap s) a = None →
  o_extensible (obj_of (heap s) a) = false →
  observe E (S fuel) (VRef a) asRoot s = (Ok None, s).
Proof.
  intros Ho Hx. rewrite observe_S. unfold observe_body. munfold.
  simpl. destruct (negb _ || _); [done|]. rewrite Ho, Hx.
  by rewrite andb_false_r.
Qed.

(** C7, as the code has it. [observe] on a container that carries an own
    [__ob__] Observer returns that observer and makes no new one (with
    [asRootData] it counts one more root on it); on a primitive, on a VNode,
    and on a container that is not extensible and carries no observer yet, it
    returns undefined and leaves everything as it is. *)
Theorem observe_idempotent (E : Env) (fuel : nat) (v : value) (asRoot : bool)
    (s : state) :
  (∀ a o, v = VRef a → isObject (heap s) v = true →
     o_vnode (obj_of (heap s) a) = false → own_observer (heap s) a = Some o →
     let r := observe E (S fuel) v asRoot s in
     r.1 = Ok (Some o) ∧
     r.2 = (if asRoot then with_heap (count_root o) s else s) ∧
     observer_uid (heap r.2) = observer_uid (heap s) ∧
     objects (heap r.2) = objects (heap s) ∧
     deps r.2 = deps s) ∧
  (isObject (heap s) v = false → observe E (S fuel) v asRoot s = (Ok None, s)) ∧
  (∀ a, v = VRef a → o_vnode (obj_of (heap s) a) = true →
     observe E (S fuel) v asRoot s = (Ok None, s)) ∧
  (∀ a, v = VRef a → o_extensible (obj_of (heap s) a) = false →
     own_observer (heap s) a = None →
     observe E (S fuel) v asRoot s = (Ok None, s)).
Proof.
  split_and!.
  - intros a o -> Hobj Hv Ho r. unfold r.
    rewrite (observe_existing E fuel a asRoot s o) by done.
    cbn [fst snd]. by destruct asRoot.
  - apply observe_not_object.
  - intros a ->. apply observe_vnode.
  - intros a -> Hx Ho. by apply observe_not_extensible.
Qed.

Lemma observe_idempotent_witness :
  let E := sample_env false (λ _, ret VUndefined) (λ _ _ _, ret tt) (λ _, ret tt) in
  let O := frozen (plain_object [("x", data_property (VNum (Fin 1)))]) in
  let s := state_of_heap (heap_of [(0, O)]) in
  o_extensible (obj_of (heap s) 0) = false ∧ own_observer (heap s) 0 = None ∧
  observe E 1 (VRef 0) false s = (Ok None, s) ∧
  observe E 1 (VNum (Fin 3)) false s = (Ok None, s).
Proof.
  intros E O s.
  pose proof (observe_idempotent E 0 (VRef 0) false s) as (_ & _ & _ & H4).
  pose proof (observe_idempotent E 0 (VNum (Fin 3)) false s) as (_ & H2 & _).
  split_and!; [by vm_compute..| |].
  - apply (H4 0); by vm_compute.
  - by apply H2.
Defined.

(** C7, as the claim has it, fails: a container that was observed and then
    frozen still carries its observer, and [observe] returns it, not
    undefined. *)
Lemma observe_frozen_counterexample :
  let E := sample_env false (λ _, ret VUndefined) (λ _ _ _, ret tt) (λ _, ret tt) in
  let O := plain_object [("x", data_property (VNum (Fin 1)))] in
  let s0 := state_of_heap (heap_of [(0, O)]) in
  let s1 := (observe E 3 (VRef 0) false s0).2 in
  let s2 := with_heap (freeze 0) s1 in
  (observe E 3 (VRef 0) false s0).1 = Ok (Some 0) ∧
  o_extensible (obj_of (heap s2) 0) = false ∧
  observe E 3 (VRef 0) false s2 = (Ok (Some 0), s2).
Proof. intros E O s0 s1 s2. split_and!; by vm_compute. Qed.

(** ** [set] *)

Arguments is_array : simpl never.
Arguments isValidArrayIndex : simpl never.
Arguments js_in : simpl never.

Lemma set_unobserved_eq E fuel a key val s :
  is_array (heap s) (VRef a) && isValidArrayIndex E key = false →
  js_in E (heap s) (js_String E key) a &&
    negb (inObjectPrototype E (js_String E key)) = false →
  own_observer (heap s) a = None →
  set E fuel (VRef a) key val s =
  if o_isVue (obj_of (heap s) a)
  then (Ok val,
        if production E then s
        else with_log (EWarn "Avoid adding reactive properties to a Vue instance or its root $data at runtime - declare it upfront in the data option.") s)
  else (js_assign E fuel a (js_String E key) val ;; ret val) s.
Proof.
  intros Hidx Hin Hob. unfold set. munfold. simpl.
  rewrite andb_false_r. simpl. rewrite Hidx, Hin, Hob. simpl.
  destruct (o_isVue (obj_of (heap s) a)); simpl; [|done].
  by destruct (production E).
Qed.

Lemma js_assign_new E fuel a k val s :
  js_in E (heap s) k a = false → o_extensible (obj_of (heap s) a) = true →
  js_assign E fuel a k val s =
  (Ok tt, with_heap (set_obj a (set_props (o_keys (obj_of (heap s) a) ++ [k])
                      (<[k := data_property val]> (o_props (obj_of (heap s) a)))
                      (obj_of (heap s) a))) s).
Proof.
  unfold js_in. intros Hin Hx.
  apply orb_false_elim in Hin as [Hin Harr].
  apply orb_false_elim in Hin as [Hown _].
  unfold hasOwn, getOwnPropertyDescriptor in Hown.
  apply bool_decide_eq_false in Hown.
  assert (Hnone : o_props (obj_of (heap s) a) !! k = None).
  { destruct (o_props (obj_of (heap s) a) !! k) eqn:Ek; [|done].
    exfalso. apply Hown. by eexists. }
  unfold js_assign. munfold. simpl.
  assert (Hlen : o_array (obj_of (heap s) a) && bool_decide (k = "length") = false).
  { destruct (o_array (obj_of (heap s) a)); [|done]. simpl in *.
    apply orb_false_elim in Harr as [_ ?]. done. }
  by rewrite Hlen, Hnone, Hx.
Qed.




(** ** The setter of a reactive property *)

Lemma reactiveSetter_eq E fuel cell newVal s :
  reactiveSetter E (S fuel) cell newVal s =
  let C := cell_of (heap s) cell in
  match old_value E fuel C s with
  | (Ok old, s1) =>
      if unchanged newVal old then (Ok tt, s1)
      else
        if bool_decide (is_Some (c_getter C)) && negb (bool_decide (is_Some (c_setter C)))
        then call_customSetter E C s1
        else (call_customSetter E C ;; write_through E fuel cell C newVal) s1
  | (Throw e, s1) => (Throw e, s1)
  | (OutOfFuel, s1) => (OutOfFuel, s1)
  end.
Proof.
  cbn [reactiveSetter]. unfold mbind, M_bind, bind, read at 1. cbv zeta.
  fold (old_value E fuel (cell_of (heap s) cell)).
  destruct (old_value E fuel (cell_of (heap s) cell) s) as [[old|e|] s1]; [|done..].
  unfold unchanged. destruct (strict_eq newVal old || _); [done|].
  fold (call_customSetter E (cell_of (heap s) cell)).
  destruct (call_customSetter E (cell_of (heap s) cell) s1) as [[[]|e|] s2] eqn:Hc;
    destruct (bool_decide (is_Some (c_getter (cell_of (heap s) cell))) && _);
    unfold ret; rewrite ?Hc; try done.
Qed.

Lemma strict_eq_NaN v : strict_eq (VNum NaN) v = false.
Proof. by destruct v as [| | |[]| | |]. Qed.

(** C5, as the code has it. A write of a value that is [===] the old one, or
    with both self-unequal, returns after fetching the old value, with no
    notification and no change (none at all when there is no prior getter).
    Otherwise [customSetter] is called outside production; then a property
    with a prior getter and no prior setter returns, unchanged and without
    notifying; any other property hands the value to the prior setter if
    there is one, else stores it in the closure, observes it unless shallow,
    and calls [dep.notify()]. Writing NaN over NaN never notifies. *)
Theorem reactiveSetter_cases (E : Env) (fuel cell : nat) (newVal : value)
    (s : state) :
  let C := cell_of (heap s) cell in
  (∀ old s1, old_value E fuel C s = (Ok old, s1) →
     (unchanged newVal old = true →
        reactiveSetter E (S fuel) cell newVal s = (Ok tt, s1)) ∧
     (unchanged newVal old = false → is_Some (c_getter C) → c_setter C = None →
        reactiveSetter E (S fuel) cell newVal s = call_customSetter E C s1) ∧
     (unchanged newVal old = false → c_getter C = None ∨ is_Some (c_setter C) →
        reactiveSetter E (S fuel) cell newVal s =
        (call_customSetter E C ;; write_through E fuel cell C newVal) s1)) ∧
  (c_getter C = None → old_value E fuel C s = (Ok (c_val C), s)) ∧
  (c_getter C = None → unchanged newVal (c_val C) = true →
     reactiveSetter E (S fuel) cell newVal s = (Ok tt, s)) ∧
  (c_getter C = None → c_val C = VNum NaN →
     reactiveSetter E (S fuel) cell (VNum NaN) s = (Ok tt, s)) ∧
  (c_getter C = None → c_setter C = None → c_customSetter C = None →
     unchanged newVal (c_val C) = false →
     reactiveSetter E (S fuel) cell newVal s =
     (childOb ← (if c_shallow C then ret None else observe E fuel newVal false);
      update_heap (set_cell_childOb cell childOb) ;;
      notify E (c_dep C)) (with_heap (set_cell_val cell newVal) s)).
Proof.
  intros C.
  assert (Hold : c_getter C = None → old_value E fuel C s = (Ok (c_val C), s)).
  { intros Hg. unfold old_value. by rewrite Hg. }
  split_and!; try done.
  - intros old s1 Ho. split_and!.
    + intros Hu. rewrite reactiveSetter_eq. cbv zeta. fold C. by rewrite Ho, Hu.
    + intros Hu Hg Hs. rewrite reactiveSetter_eq. cbv zeta. fold C.
      rewrite Ho, Hu, Hs. by rewrite bool_decide_true.
    + intros Hu Hgs. rewrite reactiveSetter_eq. cbv zeta. fold C.
      rewrite Ho, Hu.
      destruct Hgs as [Hg|Hs].
      * by rewrite Hg.
      * rewrite (bool_decide_true (is_Some (c_setter C))) by done.
        by rewrite andb_false_r.
  - intros Hg Hu. rewrite reactiveSetter_eq. cbv zeta. fold C.
    by rewrite (Hold Hg), Hu.
  - intros Hg Hnan. rewrite reactiveSetter_eq. cbv zeta. fold C.
    rewrite (Hold Hg), Hnan. done.
  - intros Hg Hs Hc Hu. rewrite reactiveSetter_eq. cbv zeta. fold C.
    rewrite (Hold Hg), Hu, Hg. simpl.
    unfold call_customSetter, write_through. rewrite Hc, Hs. done.
Qed.

Lemma reactiveSetter_cases_witness :
  let E := sample_env false (λ _, ret VUndefined) (λ _ _ _, ret tt) (λ _, ret tt) in
  let s0 := state_of_heap (heap_of [(0, plain_object [("x", data_property (VNum NaN))])]) in
  let s1 := (observe E 3 (VRef 0) false s0).2 in
  let s := with_deps (run_ops ([ONewWatcher 0 (Some (mkOptions false false true false None)) false] ++
                               evaluation 1 [ODepend 1] ++ [OSetDirty 1 false])) s1 in
  getOwnPropertyDescriptor (heap s) 0 "x" = Some (mkProp (SReactive 0) true true true) ∧
  c_val (cell_of (heap s) 0) = VNum NaN ∧
  subs_of (deps s) (c_dep (cell_of (heap s) 0)) = [1] ∧
  reactiveSetter E 3 0 (VNum NaN) s = (Ok tt, s).
Proof.
  intros E s0 s1 s.
  pose proof (reactiveSetter_cases E 2 0 (VNum NaN) s) as (_ & _ & _ & Hnan & _).
  split_and!; [by vm_compute..|].
  apply Hnan; by vm_compute.
Defined.

(** C5, as the claim has it, fails: on a property that had a getter and no
    setter when it was made reactive, a write of a different value returns
    without storing the value and without notifying; the lazy subscriber,
    which [notify] would have marked dirty, stays clean. *)
Lemma reactiveSetter_getter_only_counterexample :
  let E := sample_env false (λ _, ret VUndefined) (λ _ _ _, ret tt) (λ _, ret tt) in
  let s0 := state_of_heap
              (heap_of [(0, plain_object [("x", mkProp (SAccessor (Some 0) None) true true true)])]) in
  let s1 := (observe E 3 (VRef 0) false s0).2 in
  let s := with_deps (run_ops ([ONewWatcher 0 (Some (mkOptions false false true false None)) false] ++
                               evaluation 1 [ODepend 1] ++ [OSetDirty 1 false])) s1 in
  getOwnPropertyDescriptor (heap s) 0 "x" = Some (mkProp (SReactive 0) true true true) ∧
  c_getter (cell_of (heap s) 0) = Some (FUser 0) ∧
  c_setter (cell_of (heap s) 0) = None ∧
  old_value E 2 (cell_of (heap s) 0) s = (Ok VUndefined, s) ∧
  unchanged (VNum (Fin 2)) VUndefined = false ∧
  subs_of (deps s) (c_dep (cell_of (heap s) 0)) = [1] ∧
  reactiveSetter E 3 0 (VNum (Fin 2)) s = (Ok tt, s) ∧
  w_dirty (watcher (deps s) 1) = false ∧
  w_dirty (watcher (deps (notify E (c_dep (cell_of (heap s) 0)) s).2) 1) = true.
Proof. intros E s0 s1 s. split_and!; by vm_compute. Qed.

(** ** Frame rules for one object *)

Lemma preserves_update_deps a O f : preserves (object_is a O) (update_deps f).
Proof. by intros s. Qed.

Lemma preserves_new_Dep_M a O : preserves (object_is a O) new_Dep_M.
Proof. by intros s. Qed.

Lemma preserves_update_other a O b f :
  b ≠ a →
  preserves (object_is a O) (update_heap (λ h, set_obj b (f h) h)).
Proof.
  intros Hne s Hs. unfold object_is in *. simpl. by rewrite lookup_insert_ne.
Qed.

Lemma preserves_defineProperty a O b key desc :
  b ≠ a → preserves (object_is a O) (defineProperty b key desc).
Proof.
  intros Hne s Hs. unfold defineProperty, object_is in *.
  destruct (o_props (obj_of (heap s) b) !! key) as [p|].
  - destruct (p_configurable p); simpl; [by rewrite lookup_insert_ne | done].
  - destruct (o_extensible _); simpl; [by rewrite lookup_insert_ne | done].
Qed.

Ltac object_leaf :=
  first [apply preserves_update_deps | apply preserves_new_Dep_M].

Section frame.
Variables (E : Env) (this : nat) (O : Obj).
Hypothesis getters_keep :
  ∀ g a, preserves (object_is this O) (property_getter E g a).

Lemma preserves_dependArray fuel a :
  preserves (object_is this O) (dependArray fuel a).
Proof.
  revert a. induction fuel as [|fuel IH]; intros a; cbn [dependArray];
    frame ltac:(first [apply IH | object_leaf]).
Qed.

Lemma preserves_reactiveGetter fuel cell :
  preserves (object_is this O) (reactiveGetter E fuel cell).
Proof.
  revert cell. induction fuel as [|fuel IH]; intros cell; cbn [reactiveGetter];
    frame ltac:(first [apply IH | apply getters_keep | apply preserves_dependArray | object_leaf]).
Qed.

Lemma preserves_js_get fuel a key :
  preserves (object_is this O) (js_get E fuel a key).
Proof.
  unfold js_get.
  frame ltac:(first [apply getters_keep | apply preserves_reactiveGetter | object_leaf]).
Qed.

Lemma preserves_defineReactive_with observe fuel obj key val cs shallow :
  obj ≠ this →
  (∀ v, preserves (object_is this O) (observe v)) →
  preserves (object_is this O)
    (defineReactive_with E observe fuel obj key val cs shallow).
Proof.
  intros Hne Hobs. unfold defineReactive_with.
  frame ltac:(first [apply preserves_js_get | apply Hobs
                    | by apply preserves_defineProperty | object_leaf | by intros ?]).
Qed.

Lemma preserves_walk observe fuel obj :
  obj ≠ this →
  (∀ v, preserves (object_is this O) (observe v)) →
  preserves (object_is this O) (walk E observe fuel obj).
Proof.
  intros Hne Hobs. unfold walk.
  frame ltac:(first [by apply preserves_defineReactive_with | object_leaf]).
Qed.

Lemma preserves_observeArray observe l item :
  (∀ v, preserves (object_is this O) (observe v)) →
  (∀ i, preserves (object_is this O) (item i)) →
  preserves (object_is this O) (observeArray observe l item).
Proof.
  intros Hobs Hitem. unfold observeArray.
  frame ltac:(first [apply Hitem | apply Hobs | object_leaf]).
Qed.

Lemma preserves_new_Observer observe fuel a :
  a ≠ this →
  (∀ v, preserves (object_is this O) (observe v)) →
  preserves (object_is this O) (new_Observer E observe fuel a).
Proof.
  intros Hne Hobs. unfold new_Observer, def, protoAugment, copyAugment, def.
  frame ltac:(first
    [ by apply preserves_defineProperty
    | by apply preserves_walk
    | by apply (preserves_update_other this O a (λ h, set_augmented (obj_of h a)))
    | apply preserves_observeArray; [done | intros ?; apply preserves_read]
    | object_leaf
    | by intros ? ]).
Qed.

Lemma preserves_observe fuel v asRoot :
  is_Some (own_observer_of O) →
  preserves (object_is this O) (observe E fuel v asRoot).
Proof.
  intros Hob. revert v asRoot.
  induction fuel as [|fuel IH]; intros v asRoot; [apply preserves_out_of_fuel|].
  rewrite observe_S. unfold observe_body.
  destruct v as [| | | | | |a]; try apply preserves_ret.
  apply preserves_bind; [apply preserves_read|]. intros skip.
  destruct skip; [apply preserves_ret|].
  apply preserves_read_bind. intros s Hs.
  destruct (own_observer (heap s) a) as [o|] eqn:Ho.
  - destruct asRoot; done.
  - assert (Hne : a ≠ this).
    { intros ->. unfold own_observer, obj_of in Ho.
      unfold object_is in Hs. rewrite Hs in Ho. simpl in Ho.
      destruct Hob as [o' Ho']. by rewrite Ho' in Ho. }
    clear Ho. revert s Hs.
    change (preserves (object_is this O)
      (ob ← (ok ← read (λ s,
               let O' := obj_of (heap s) a in
               shouldObserve (heap s) && negb (isServerRendering E) &&
               (o_array O' || o_plain O') && o_extensible O' && negb (o_isVue O'));
             if ok : bool
             then (o ← new_Observer E (λ v, observe E fuel v false) fuel a; ret (Some o))
             else ret None);
       match ob with
       | Some o => when asRoot (update_heap (count_root o))
       | None => ret tt
       end ;; ret ob)).
    frame ltac:(first
      [ apply preserves_new_Observer; [done | intros ?; apply IH]
      | object_leaf
      | by intros ? ]).
Qed.
End frame.

(** ** The intercepted array methods *)

Lemma mutator_eq E fuel m this args s :
  mutator E fuel m this args s =
  match original E m this args s with
  | (Ok result, s1) =>
      match own_observer (heap s1) this with
      | Some o =>
          match observe_inserted E fuel m args s1 with
          | (Ok _, s2) =>
              match notify E (ob_dep (observer_of (heap s2) o)) s2 with
              | (Ok _, s3) => (Ok result, s3)
              | (Throw e, s3) => (Throw e, s3)
              | (OutOfFuel, s3) => (OutOfFuel, s3)
              end
          | (Throw e, s2) => (Throw e, s2)
          | (OutOfFuel, s2) => (OutOfFuel, s2)
          end
      | None => (Throw TypeError, s1)
      end
  | (Throw e, s1) => (Throw e, s1)
  | (OutOfFuel, s1) => (OutOfFuel, s1)
  end.
Proof.
  unfold mutator, mbind, M_bind, bind, read, ret, throw.
  destruct (original E m this args s) as [[r|e|] s1]; [|done..].
  destruct (own_observer (heap s1) this) as [o|]; [|done].
  destruct (observe_inserted E fuel m args s1) as [[[]|e|] s2]; [|done..].
  by destruct (notify E _ s2) as [[[]|e|] s3].
Qed.

Lemma preserves_observe_inserted E this O fuel m args :
  (∀ g a, preserves (object_is this O) (property_getter E g a)) →
  is_Some (own_observer_of O) →
  preserves (object_is this O) (observe_inserted E fuel m args).
Proof.
  intros Hg Hob. unfold observe_inserted.
  destruct (inserted_of m args); [|apply preserves_ret].
  apply preserves_observeArray.
  - intros v. by apply preserves_observe.
  - intros i. apply preserves_ret.
Qed.



(** ** Observation and mutation keep the Dep/Watcher state reachable *)

Lemma defineProperty_live X a key desc :
  preserves (live X) (defineProperty a key desc).
Proof.
  apply preserves_live_deps. intros s. unfold defineProperty.
  destruct (o_props _ !! key) as [p|];
    [by destruct (p_configurable p) | by destruct (o_extensible _)].
Qed.

Ltac heap_leaf :=
  first [ apply defineProperty_live | live_leaf | by intros ? ? ].

Section live.
Variables (E : Env) (X : list nat).
Hypothesis HE : sound_env E.

Lemma dependArray_live fuel a : preserves (live X) (dependArray fuel a).
Proof.
  revert a. induction fuel as [|fuel IH]; intros a; cbn [dependArray];
    frame ltac:(first [apply IH | heap_leaf]).
Qed.

Lemma reactiveGetter_live fuel cell :
  preserves (live X) (reactiveGetter E fuel cell).
Proof.
  revert cell. induction fuel as [|fuel IH]; intros cell; cbn [reactiveGetter];
    frame ltac:(first [apply IH | apply dependArray_live | heap_leaf]).
Qed.

Lemma js_get_live fuel a key : preserves (live X) (js_get E fuel a key).
Proof.
  unfold js_get. frame ltac:(first [apply reactiveGetter_live | heap_leaf]).
Qed.

Lemma defineReactive_with_live observe fuel obj key val cs shallow :
  (∀ v, preserves (live X) (observe v)) →
  preserves (live X) (defineReactive_with E observe fuel obj key val cs shallow).
Proof.
  intros Hobs. unfold defineReactive_with.
  frame ltac:(first [apply js_get_live | apply Hobs | heap_leaf]).
Qed.

Lemma observeArray_live observe l item :
  (∀ v, preserves (live X) (observe v)) →
  (∀ i, preserves (live X) (item i)) →
  preserves (live X) (observeArray observe l item).
Proof.
  intros Hobs Hitem. unfold observeArray.
  frame ltac:(first [apply Hitem | apply Hobs]).
Qed.

Lemma new_Observer_live observe fuel a :
  (∀ v, preserves (live X) (observe v)) →
  preserves (live X) (new_Observer E observe fuel a).
Proof.
  intros Hobs. unfold new_Observer, walk, def, protoAugment, copyAugment, def.
  frame ltac:(first
    [ by apply defineReactive_with_live
    | apply observeArray_live; [done | intros ?; apply preserves_read]
    | heap_leaf ]).
Qed.

Lemma observe_live fuel v asRoot : preserves (live X) (observe E fuel v asRoot).
Proof.
  revert v asRoot.
  induction fuel as [|fuel IH]; intros v asRoot; [apply preserves_out_of_fuel|].
  rewrite observe_S. unfold observe_body.
  frame ltac:(first
    [ apply new_Observer_live; intros ?; apply IH | heap_leaf ]).
Qed.

Lemma defineReactive_live fuel obj key val cs shallow :
  preserves (live X) (defineReactive E fuel obj key val cs shallow).
Proof. apply defineReactive_with_live. intros v. apply observe_live. Qed.

Lemma reactiveSetter_live fuel cell newVal :
  preserves (live X) (reactiveSetter E fuel cell newVal).
Proof.
  revert cell. induction fuel as [|fuel IH]; intros cell; cbn [reactiveSetter];
    unfold old_value;
    frame ltac:(first
      [ apply IH | apply reactiveGetter_live | apply observe_live
      | by apply notify_live | heap_leaf ]).
Qed.

Lemma set_length_live a n : preserves (live X) (set_length a n).
Proof. unfold set_length. frame heap_leaf. Qed.

Lemma js_assign_live fuel a key val :
  preserves (live X) (js_assign E fuel a key val).
Proof.
  unfold js_assign.
  frame ltac:(first [apply set_length_live | apply reactiveSetter_live | heap_leaf]).
Qed.

Lemma mutator_live fuel m this args :
  preserves (live X) (mutator E fuel m this args).
Proof.
  unfold mutator, observe_inserted.
  frame ltac:(first
    [ apply observeArray_live; [intros ?; apply observe_live | intros ?; apply preserves_ret]
    | by apply notify_live | heap_leaf ]).
Qed.

Lemma call_array_method_live fuel m a args :
  preserves (live X) (call_array_method E fuel m a args).
Proof.
  unfold call_array_method. frame ltac:(first [apply mutator_live | heap_leaf]).
Qed.

Lemma set_live fuel target key val :
  preserves (live X) (set E fuel target key val).
Proof.
  unfold set, warn.
  frame ltac:(first
    [ apply set_length_live | apply call_array_method_live | apply js_assign_live
    | apply defineReactive_live | by apply notify_live | heap_leaf ]).
Qed.

Lemma del_live fuel target key : preserves (live X) (del E fuel target key).
Proof.
  unfold del, warn, js_delete.
  frame ltac:(first
    [ apply call_array_method_live | by apply notify_live | heap_leaf ]).
Qed.
End live.

(** ** No double subscription *)

(** C1. For every Dep [d] and every Watcher [t], [d.subs] holds [t] at most
    once in every state that programs reach, however often [t] is evaluated:
    [addDep] does nothing for a dep whose id is already in [newDepIds] and
    calls [addSub] only when the id is in neither [newDepIds] nor [depIds];
    and [get], [run], [update], [evaluate] and [notify], as well as reads and
    writes of reactive properties, [observe], [set], [del] and the array
    mutators, with user functions that themselves act through the core,
    lead from reachable states to reachable states only. *)
Theorem no_double_subscribe (E : Env) (s : state) (w : nat) :
  sound_env E → reachable (deps s) → allocated (deps s) w →
  let c := deps s in
  duplicate_free c ∧
  (∀ x d, d ∈ w_newDepIds (watcher c x) → addDep x d c = c) ∧
  (∀ x d, d ∉ w_newDepIds (watcher c x) → d ∈ w_depIds (watcher c x) →
          subs (addDep x d c) = subs c) ∧
  (∀ x d, d ∉ w_newDepIds (watcher c x) → d ∉ w_depIds (watcher c x) →
          subs_of (addDep x d c) d = subs_of c d ++ [x]) ∧
  (∀ ops, duplicate_free (run_ops ops c)) ∧
  duplicate_free (deps (get E w s).2) ∧
  duplicate_free (deps (run E w s).2) ∧
  duplicate_free (deps (update E w s).2) ∧
  duplicate_free (deps (evaluate E w s).2) ∧
  (∀ d, duplicate_free (deps (notify E d s).2)) ∧
  (∀ d, duplicate_free (deps (get E w (notify E d (get E w s).2).2).2)) ∧
  (∀ fuel cell, duplicate_free (deps (reactiveGetter E fuel cell s).2)) ∧
  (∀ fuel cell v, duplicate_free (deps (reactiveSetter E fuel cell v s).2)) ∧
  (∀ fuel v asRoot, duplicate_free (deps (observe E fuel v asRoot s).2)) ∧
  (∀ fuel target key v, duplicate_free (deps (set E fuel target key v s).2)) ∧
  (∀ fuel target key, duplicate_free (deps (del E fuel target key s).2)) ∧
  (∀ fuel m a args, duplicate_free (deps (mutator E fuel m a args s).2)).
Proof.
  intros HE Hr Hal c.
  assert (Hl : live [w] s).
  { split; [done|]. by intros x ->%list_elem_of_singleton. }
  assert (Hw : w ∈ [w]) by left.
  split_and!.
  - by apply reachable_duplicate_free.
  - intros. by apply addDep_seen.
  - intros. by apply addDep_known.
  - intros. by apply addDep_new.
  - intros ops. by apply reachable_duplicate_free, reachable_step.
  - apply reachable_duplicate_free. by apply (get_live E [w] w HE Hw s Hl).
  - apply reachable_duplicate_free. by apply (run_live E [w] w HE Hw s Hl).
  - apply reachable_duplicate_free. by apply (update_live E [w] w HE Hw s Hl).
  - apply reachable_duplicate_free. by apply (evaluate_live E [w] w HE Hw s Hl).
  - intros d. apply reachable_duplicate_free. by apply (notify_live E [w] d HE s Hl).
  - intros d. apply reachable_duplicate_free.
    apply (get_live E [w] w HE Hw), (notify_live E [w] d HE),
      (get_live E [w] w HE Hw s Hl).
  - intros. apply reachable_duplicate_free. by apply (reactiveGetter_live E [w] HE).
  - intros. apply reachable_duplicate_free. by apply (reactiveSetter_live E [w] HE).
  - intros. apply reachable_duplicate_free. by apply (observe_live E [w] HE).
  - intros. apply reachable_duplicate_free. by apply (set_live E [w] HE).
  - intros. apply reachable_duplicate_free. by apply (del_live E [w] HE).
  - intros. apply reachable_duplicate_free. by apply (mutator_live E [w] HE).
Qed.

Lemma no_double_subscribe_witness :
  let E := sample_env false (λ _, reading_getter [0; 0] VUndefined)
             (λ _ _ _, ret tt) (λ _, ret tt) in
  let c := run_ops (ONewDep :: ONewWatcher 0 None false ::
                    evaluation 1 [ODepend 0]) init_deps in
  let s := state_of c true in
  subs_of (deps s) 0 = [1] ∧
  subs_of (deps (get E 1 s).2) 0 = [1] ∧
  duplicate_free (deps (get E 1 s).2).
Proof.
  intros E c s.
  assert (HE : sound_env E).
  { apply sample_env_sound; intros.
    - apply reading_getter_live.
    - apply preserves_ret.
    - apply preserves_ret. }
  assert (Hr : reachable (deps s)) by (eexists; reflexivity).
  assert (Hal : allocated (deps s) 1) by by_compute.
  pose proof (no_double_subscribe E s 1 HE Hr Hal) as (_ & _ & _ & _ & _ & Hget & _).
  split_and!; [by vm_compute..|exact Hget].
Defined.

(** * Further properties of the sources *)

(** ** shared/util.js: [remove] *)

Lemma indexOf_absent arr x : x ∉ arr → indexOf arr x = None.
Proof.
  induction arr as [|y arr IH]; simpl; [done|].
  intros [Hne Hin]%not_elem_of_cons. rewrite decide_False by done.
  by rewrite IH.
Qed.

Lemma indexOf_first l1 l2 x :
  x ∉ l1 → indexOf (l1 ++ x :: l2) x = Some (length l1).
Proof.
  induction l1 as [|y l1 IH]; simpl.
  - intros _. by rewrite decide_True.
  - intros [Hne Hin]%not_elem_of_cons. rewrite decide_False by done.
    by rewrite IH.
Qed.

Lemma remove_first l1 l2 x : x ∉ l1 → remove (l1 ++ x :: l2) x = l1 ++ l2.
Proof.
  intros Hx. unfold remove. rewrite decide_False.
  - rewrite indexOf_first by done.
    induction l1 as [|y l1 IH]; simpl; [done|].
    f_equal. apply IH. by apply not_elem_of_cons in Hx as [_ ?].
  - rewrite length_app. simpl. lia.
Qed.

Lemma occurrences_app t l1 l2 :
  occurrences t (l1 ++ l2) = occurrences t l1 + occurrences t l2.
Proof. unfold occurrences. by rewrite filter_app, length_app. Qed.

Lemma occurrences_cons t x l :
  occurrences t (x :: l) = (if decide (x = t) then 1 else 0) + occurrences t l.
Proof.
  unfold occurrences. rewrite filter_cons. by case_decide.
Qed.

(** X1. [remove(arr, item)] takes out the first occurrence of [item] and
    nothing else: the items before and after it stay, in their order, and a
    second occurrence stays too; an array that does not hold [item], the
    empty one included, is left as it is. *)
Theorem remove_first_occurrence (arr : list nat) (item : nat) :
  (item ∉ arr → remove arr item = arr) ∧
  (∀ l1 l2, arr = l1 ++ item :: l2 → item ∉ l1 →
     remove arr item = l1 ++ l2 ∧
     length (remove arr item) + 1 = length arr ∧
     occurrences item (remove arr item) + 1 = occurrences item arr ∧
     (∀ t, t ≠ item → occurrences t (remove arr item) = occurrences t arr)).
Proof.
  split; [apply remove_absent|].
  intros l1 l2 -> Hx. rewrite remove_first by done. split_and!; [done|..].
  - rewrite !length_app. simpl. lia.
  - rewrite !occurrences_app, occurrences_cons, decide_True by done. lia.
  - intros t Ht. rewrite !occurrences_app, occurrences_cons.
    rewrite decide_False by done. lia.
Qed.

(** ** dep.js: the stack of targets *)

Lemma targets_addDep w d c :
  target (addDep w d c) = target c ∧ targetStack (addDep w d c) = targetStack c.
Proof. unfold addDep. by repeat case_decide. Qed.

Lemma targets_depend d c :
  target (depend d c) = target c ∧ targetStack (depend d c) = targetStack c.
Proof.
  unfold depend. destruct (target c) eqn:Et; [|done].
  rewrite <- Et. apply targets_addDep.
Qed.

Lemma targets_watcher_depend w c :
  target (watcher_depend w c) = target c ∧
  targetStack (watcher_depend w c) = targetStack c.
Proof.
  unfold watcher_depend. generalize (reverse (w_deps (watcher c w))).
  intros l. revert c. induction l as [|d l IH]; intros c; simpl; [done|].
  destruct (IH (depend d c)) as [-> ->]. apply targets_depend.
Qed.

Lemma targets_cleanupDeps w c :
  target (cleanupDeps w c) = target c ∧
  targetStack (cleanupDeps w c) = targetStack c.
Proof.
  unfold cleanupDeps. rewrite cleanup_loop_eq. simpl.
  by destruct (removal_frame w (w_newDepIds (watcher c w))
                 (reverse (w_deps (watcher c w))) c) as (_ & _ & _ & -> & -> & _).
Qed.

Lemma targets_teardown w c :
  target (teardown w c) = target c ∧ targetStack (teardown w c) = targetStack c.
Proof.
  unfold teardown. destruct (w_active _); [|done]. rewrite teardown_loop_eq.
  simpl.
  match goal with |- context [foldl (removal_step w ∅) ?c0 ?l] =>
    destruct (removal_frame w ∅ l c0) as (_ & _ & _ & -> & -> & _) end.
  by destruct (vm_isBeingDestroyed _).
Qed.

Lemma target_is_top_run_op o c : target_is_top c → target_is_top (run_op o c).
Proof.
  unfold target_is_top. intros Ht.
  destruct o; cbn [run_op]; unfold on_watcher; repeat case_decide; try done.
  - simpl. by rewrite last_snoc.
  - destruct (targets_depend d c) as [-> ->]. done.
  - destruct (targets_addDep w d c) as [-> ->]. done.
  - destruct (targets_cleanupDeps w c) as [-> ->]. done.
  - destruct (targets_watcher_depend w c) as [-> ->]. done.
  - destruct (targets_teardown w c) as [-> ->]. done.
Qed.

Lemma reachable_target_is_top c : reachable c → target_is_top c.
Proof.
  intros [ops ->]. unfold run_ops.
  assert (H0 : target_is_top init_deps) by done.
  revert H0. generalize init_deps.
  induction ops as [|o ops IH]; intros c Hc; simpl; [done|].
  by apply IH, target_is_top_run_op.
Qed.

(** X2. In every state that programs reach, [Dep.target] is the last entry
    of [targetStack], and nothing when the stack is empty. So [popTarget()]
    after [pushTarget(t)] gives back the state in which [pushTarget] was
    called, for a watcher [t] as for [pushTarget()] without one, and
    [popTarget()] on the empty stack leaves the stack empty and no target. *)
Theorem pushTarget_popTarget_restores (c : DepState) (t : option nat) :
  reachable c →
  target_is_top c ∧
  target (pushTarget t c) = t ∧
  popTarget (pushTarget t c) = c ∧
  (targetStack c = [] →
   target (popTarget c) = None ∧ targetStack (popTarget c) = []).
Proof.
  intros Hr. pose proof (reachable_target_is_top c Hr) as Ht.
  split_and!; [done|done| |].
  - unfold popTarget, pushTarget, set_targets. simpl.
    rewrite removelast_last, <- Ht. by destruct c.
  - intros Hs. unfold popTarget. simpl. by rewrite Hs.
Qed.

Lemma pushTarget_popTarget_restores_witness :
  let c := run_ops [ONewWatcher 0 None false; ONewWatcher 0 None false;
                    OPushTarget (Some 1)] init_deps in
  target c = Some 1 ∧ target (pushTarget (Some 2) c) = Some 2 ∧
  popTarget (pushTarget (Some 2) c) = c.
Proof.
  intros c.
  assert (Hr : reachable c) by (eexists; reflexivity).
  pose proof (pushTarget_popTarget_restores c (Some 2) Hr) as (_ & H2 & H3 & _).
  split_and!; [by vm_compute|exact H2|exact H3].
Defined.

(** ** watcher.js: [depend] *)

Lemma watcher_addDep_other t d c x :
  x ≠ t → watcher (addDep t d c) x = watcher c x.
Proof.
  intros Hne. unfold addDep. repeat case_decide; try done;
    rewrite ?watcher_addSub, watcher_set_watcher; by rewrite decide_False.
Qed.

Lemma addDep_keeps_old t d c x :
  w_deps (watcher (addDep t d c) x) = w_deps (watcher c x) ∧
  w_depIds (watcher (addDep t d c) x) = w_depIds (watcher c x).
Proof.
  unfold addDep. repeat case_decide; try done;
    rewrite ?watcher_addSub, watcher_set_watcher; by case_decide; subst.
Qed.

Lemma addDep_newDepIds_mono t d c x d' :
  d' ∈ w_newDepIds (watcher c x) → d' ∈ w_newDepIds (watcher (addDep t d c) x).
Proof.
  intros Hd. unfold addDep. repeat case_decide; try done;
    rewrite ?watcher_addSub, watcher_set_watcher; (case_decide; [subst x|done]);
    simpl; apply elem_of_union; by right.
Qed.

Lemma addDep_subs_mono t d c x d' :
  x ∈ subs_of c d' → x ∈ subs_of (addDep t d c) d'.
Proof.
  intros Hx. unfold addDep. repeat case_decide; try done.
  rewrite subs_of_addSub. case_decide; [subst d'|done].
  apply elem_of_app. by left.
Qed.

Lemma addDep_recorded t d c :
  d ∈ w_newDepIds (watcher (addDep t d c) t) ∧
  (d ∉ w_newDepIds (watcher c t) → d ∉ w_depIds (watcher c t) →
   t ∈ subs_of (addDep t d c) d).
Proof.
  unfold addDep. repeat case_decide.
  - done.
  - rewrite watcher_set_watcher, decide_True by done. simpl.
    split; [apply elem_of_union; left; by apply elem_of_singleton | done].
  - rewrite watcher_addSub, watcher_set_watcher, decide_True by done. simpl.
    split; [apply elem_of_union; left; by apply elem_of_singleton |].
    intros _ _. rewrite subs_of_addSub, decide_True by done.
    apply elem_of_app. right. by apply list_elem_of_singleton.
Qed.

Lemma addDep_newDepIds_inv t d c x d' :
  d' ∈ w_newDepIds (watcher (addDep t d c) x) →
  d' = d ∨ d' ∈ w_newDepIds (watcher c x).
Proof.
  unfold addDep. repeat case_decide; try (by right);
    rewrite ?watcher_addSub, watcher_set_watcher;
    (case_decide; [subst x|by right]); simpl;
    (intros [Hd|Hd]%elem_of_union; [left; by apply elem_of_singleton in Hd|by right]).
Qed.

Lemma depends_no_target l c :
  target c = None → foldl (λ c d, depend d c) c l = c.
Proof.
  intros Ht. induction l as [|d l IH]; simpl; [done|].
  unfold depend at 2. by rewrite Ht.
Qed.

Lemma depends_mono l c x d :
  (d ∈ w_newDepIds (watcher c x) →
   d ∈ w_newDepIds (watcher (foldl (λ c d, depend d c) c l) x)) ∧
  (x ∈ subs_of c d → x ∈ subs_of (foldl (λ c d, depend d c) c l) d) ∧
  w_deps (watcher (foldl (λ c d, depend d c) c l) x) = w_deps (watcher c x) ∧
  w_depIds (watcher (foldl (λ c d, depend d c) c l) x) = w_depIds (watcher c x).
Proof.
  revert c. induction l as [|d0 l IH]; intros c; simpl; [done|].
  destruct (IH (depend d0 c)) as (H1 & H2 & H3 & H4).
  unfold depend in *. destruct (target c) as [t|]; [|done].
  destruct (addDep_keeps_old t d0 c x) as [E1 E2].
  split_and!.
  - intros Hd. by apply H1, addDep_newDepIds_mono.
  - intros Hx. by apply H2, addDep_subs_mono.
  - by rewrite H3.
  - by rewrite H4.
Qed.

Lemma depends_recorded l c t d :
  target c = Some t → d ∈ l →
  d ∈ w_newDepIds (watcher (foldl (λ c d, depend d c) c l) t) ∧
  (d ∉ w_newDepIds (watcher c t) → d ∉ w_depIds (watcher c t) →
   t ∈ subs_of (foldl (λ c d, depend d c) c l) d).
Proof.
  revert c. induction l as [|d0 l IH]; intros c Ht Hd; [by apply elem_of_nil in Hd|].
  simpl.
  assert (Hc1 : depend d0 c = addDep t d0 c) by (unfold depend; by rewrite Ht).
  destruct (decide (d = d0)) as [->|Hne].
  - destruct (depends_mono l (depend d0 c) t d0) as (H1 & H2 & _).
    destruct (addDep_recorded t d0 c) as [R1 R2]. rewrite Hc1 in *.
    split; [by apply H1|]. intros Hn Hnot. by apply H2, R2.
  - apply elem_of_cons in Hd as [->|Hd]; [done|].
    destruct (IH (depend d0 c)) as [I1 I2]; [|done|].
    { rewrite Hc1. by rewrite target_addDep. }
    split; [done|]. intros Hn Hnot. apply I2; rewrite Hc1.
    + by intros [?|?]%addDep_newDepIds_inv.
    + by rewrite (proj2 (addDep_keeps_old t d0 c t)).
Qed.

Lemma depends_only l c x d' :
  x ∈ subs_of (foldl (λ c d, depend d c) c l) d' →
  x ∈ subs_of c d' ∨ (target c = Some x ∧ d' ∈ l).
Proof.
  revert c. induction l as [|d l IH]; intros c; simpl; [by left|].
  intros [H|[H1 H2]]%IH.
  - apply depend_elem in H as [H'|[H' ->]]; [by left | right].
    split; [done | by left].
  - right. split; [|by right]. rewrite <- H1.
    by rewrite (proj1 (targets_depend d c)).
Qed.

(** X3. [watcher.depend()] hands every dep of the watcher to the watcher
    that is being evaluated: with [Dep.target] a watcher [t], each dep in
    [deps] is in [t.newDepIds] afterwards, and one that [t] held in neither
    [newDepIds] nor [depIds] has [t] among its subscribers; nobody else is
    subscribed anywhere, no subscriber is lost, and the [deps] and [depIds]
    of all watchers stay as they are. With no target the call changes
    nothing. *)
Theorem watcher_depend_subscribes_target (c : DepState) (w : nat) :
  let c' := watcher_depend w c in
  (target c = None → c' = c) ∧
  (∀ t d, target c = Some t → d ∈ w_deps (watcher c w) →
     d ∈ w_newDepIds (watcher c' t) ∧
     (d ∉ w_newDepIds (watcher c t) → d ∉ w_depIds (watcher c t) →
      t ∈ subs_of c' d)) ∧
  (∀ x d, x ∈ subs_of c' d →
     x ∈ subs_of c d ∨ (target c = Some x ∧ d ∈ w_deps (watcher c w))) ∧
  (∀ x d, x ∈ subs_of c d → x ∈ subs_of c' d) ∧
  (∀ x, w_deps (watcher c' x) = w_deps (watcher c x) ∧
        w_depIds (watcher c' x) = w_depIds (watcher c x)).
Proof.
  intros c'. unfold c', watcher_depend. split_and!.
  - apply depends_no_target.
  - intros t d Ht Hd. apply depends_recorded; [done|]. by apply elem_of_reverse.
  - intros x d [H|[H1 H2]]%depends_only; [by left|right].
    split; [done|]. by rewrite elem_of_reverse in H2.
  - intros x d Hx.
    by apply (proj1 (proj2 (depends_mono (reverse (w_deps (watcher c w))) c x d))).
  - intros x. destruct (depends_mono (reverse (w_deps (watcher c w))) c x 0)
      as (_ & _ & H3 & H4). by split.
Qed.

(** ** watcher.js: [teardown] *)

Lemma set_active_false_eq W : w_active W = false → set_active false W = W.
Proof. destruct W; simpl. by intros ->. Qed.

Lemma teardown_vms w c :
  vms (teardown w c) =
  if w_active (watcher c w) && negb (vm_isBeingDestroyed (vm_of c (w_vm (watcher c w))))
  then <[w_vm (watcher c w) :=
           mkVm (vm_watcher (vm_of c (w_vm (watcher c w))))
                (remove (vm_watchers (vm_of c (w_vm (watcher c w)))) w)
                false]> (vms c)
  else vms c.
Proof.
  unfold teardown. destruct (w_active (watcher c w)); [|done].
  rewrite teardown_loop_eq. simpl.
  match goal with |- context [foldl (removal_step w ∅) ?c0 ?l] =>
    destruct (removal_frame w ∅ l c0) as (_ & _ & _ & _ & _ & ->) end.
  by destruct (vm_isBeingDestroyed _) eqn:Hb.
Qed.

(** X4. [teardown()] a second time changes nothing, and on a watcher that
    is not active it changes nothing at all. On an active watcher it takes
    the watcher out of [vm._watchers] (its first occurrence) unless the
    instance is being destroyed, in which case no instance is touched; it
    keeps [deps], [depIds], [newDeps] and [newDepIds] of the watcher as they
    were, and leaves every other watcher and the target stack alone. *)
Theorem teardown_idempotent (c : DepState) (w : nat) :
  let c' := teardown w c in
  let W := watcher c w in
  let V := vm_of c (w_vm W) in
  teardown w c' = c' ∧
  (w_active W = false → c' = c) ∧
  (w_active W = true → vm_isBeingDestroyed V = false →
     vm_watchers (vm_of c' (w_vm W)) = remove (vm_watchers V) w ∧
     ∀ v, v ≠ w_vm W → vm_of c' v = vm_of c v) ∧
  (w_active W = true → vm_isBeingDestroyed V = true → vms c' = vms c) ∧
  same_bookkeeping W (watcher c' w) ∧
  (∀ x, x ≠ w → watcher c' x = watcher c x) ∧
  target c' = target c ∧ targetStack c' = targetStack c.
Proof.
  cbv zeta. split_and!.
  - unfold teardown at 1. rewrite teardown_watcher, decide_True by done.
    by destruct (watcher c w).
  - intros Ha. unfold teardown. by rewrite Ha.
  - intros Ha Hb. unfold vm_of at 1 3. rewrite teardown_vms, Ha, Hb. simpl.
    split; [by rewrite lookup_insert, decide_True|].
    intros v Hv. unfold vm_of. by rewrite lookup_insert_ne.
  - intros Ha Hb. by rewrite teardown_vms, Ha, Hb.
  - rewrite teardown_watcher, decide_True by done. by destruct (watcher c w).
  - intros x Hx. by rewrite teardown_watcher, decide_False.
  - apply targets_teardown.
  - apply targets_teardown.
Qed.

(** ** watcher.js: the constructor *)

Lemma set_value_same W : set_value (w_value W) W = W.
Proof. by destruct W. Qed.

Lemma set_watcher_same w c :
  watchers c !! w = Some (watcher c w) → set_watcher w (watcher c w) c = c.
Proof.
  intros H. unfold set_watcher. rewrite insert_id by done. by destruct c.
Qed.

Lemma with_deps_same f s : f (deps s) = deps s → with_deps f s = s.
Proof. intros H. unfold with_deps. rewrite H. by destruct s. Qed.


(** ** watcher.js: lazy watchers *)

Lemma lazy_mark_dirty c w x :
  w_lazy (watcher (mark_dirty c w) x) = w_lazy (watcher c x).
Proof.
  unfold mark_dirty. rewrite watcher_set_watcher.
  case_decide; [subst; by destruct (watcher c x) | done].
Qed.

Lemma update_lazy E w s :
  w_lazy (watcher (deps s) w) = true →
  update E w s = (Ok tt, with_deps (λ c, mark_dirty c w) s).
Proof.
  intros Hl. unfold update, mbind, M_bind, bind, the_watcher, read.
  by rewrite Hl.
Qed.

Lemma for_each_update_lazy E l s :
  (∀ x, x ∈ l → w_lazy (watcher (deps s) x) = true) →
  for_each l (update E) s = (Ok tt, with_deps (λ c, foldl mark_dirty c l) s).
Proof.
  revert s. induction l as [|w l IH]; intros s Hl; simpl.
  - by destruct s.
  - unfold mbind, M_bind, bind. rewrite update_lazy by (apply Hl; by left).
    rewrite IH; [by destruct s|].
    intros x Hx. simpl. rewrite lazy_mark_dirty. apply Hl. by right.
Qed.

Lemma elem_of_notify_order E s d x :
  x ∈ notify_order E s d → x ∈ subs_of (deps s) d.
Proof.
  unfold notify_order. destruct (negb (production E) && negb (config_async s)); [|done].
  by rewrite merge_sort_Permutation.
Qed.

Lemma dirty_marked l c x :
  x ∈ l → w_dirty (watcher (foldl mark_dirty c l) x) = true.
Proof.
  revert c. induction l as [|w l IH] using rev_ind; intros c Hx.
  - by apply elem_of_nil in Hx.
  - rewrite foldl_app. simpl. unfold mark_dirty at 1.
    rewrite watcher_set_watcher. case_decide; [done|].
    apply elem_of_app in Hx as [Hx|Hx%list_elem_of_singleton]; [by apply IH|done].
Qed.

Lemma marked_others l c x :
  x ∉ l → watcher (foldl mark_dirty c l) x = watcher c x.
Proof.
  revert c. induction l as [|w l IH]; intros c Hx; simpl; [done|].
  apply not_elem_of_cons in Hx as [Hne Hx]. rewrite IH by done.
  unfold mark_dirty. by rewrite watcher_set_watcher, decide_False.
Qed.

(** X6. When every subscriber of a dep is a lazy watcher, [notify] sets
    their [dirty] flags and does nothing else: it returns, no getter, no
    callback and no scheduler is called, the heap, the subscriptions and the
    other watchers stay as they are. *)
Theorem notify_marks_lazy_dirty (E : Env) (s : state) (d : nat) :
  (∀ x, x ∈ subs_of (deps s) d → w_lazy (watcher (deps s) x) = true) →
  let s' := with_deps (λ c, foldl mark_dirty c (notify_order E s d)) s in
  notify E d s = (Ok tt, s') ∧
  (∀ x, x ∈ subs_of (deps s) d → w_dirty (watcher (deps s') x) = true) ∧
  (∀ x, x ∉ subs_of (deps s) d → watcher (deps s') x = watcher (deps s) x) ∧
  subs (deps s') = subs (deps s) ∧ heap s' = heap s ∧ log s' = log s.
Proof.
  intros Hl s'.
  assert (Hsub : ∀ l c, subs (foldl mark_dirty c l) = subs c).
  { induction l as [|w l IH]; intros c; simpl; [done|]. by rewrite IH. }
  split_and!.
  - unfold notify, mbind, M_bind, bind, read.
    apply for_each_update_lazy. intros x Hx. by apply Hl, (elem_of_notify_order E).
  - intros x Hx. unfold s'. simpl. apply dirty_marked.
    unfold notify_order. destruct (_ && _); [|done].
    by rewrite merge_sort_Permutation.
  - intros x Hx. unfold s'. simpl. apply marked_others.
    intros H. by apply Hx, (elem_of_notify_order E).
  - unfold s'. simpl. apply Hsub.
  - done.
  - done.
Qed.

Lemma notify_marks_lazy_dirty_witness :
  let lazy := Some (mkOptions false false true false None) in
  let E := sample_env false (λ _, throw (UserError 0)) (λ _ _ _, throw (UserError 1))
             (λ _, throw (UserError 2)) in
  let c := run_ops ([ONewDep; ONewWatcher 0 lazy false; ONewWatcher 0 lazy false] ++
                    evaluation 2 [ODepend 0] ++ evaluation 1 [ODepend 0] ++
                    [OSetDirty 1 false; OSetDirty 2 false]) init_deps in
  let s := state_of c false in
  subs_of c 0 = [2; 1] ∧ (notify E 0 s).1 = Ok tt ∧
  w_dirty (watcher c 2) = false ∧
  w_dirty (watcher (deps (notify E 0 s).2) 2) = true.
Proof.
  intros lazy E c s.
  assert (Hl : ∀ x, x ∈ subs_of (deps s) 0 → w_lazy (watcher (deps s) x) = true).
  { intros x Hx. change (subs_of (deps s) 0) with [2; 1] in Hx.
    apply elem_of_cons in Hx as [->|Hx]; [by vm_compute|].
    apply list_elem_of_singleton in Hx as ->. by vm_compute. }
  pose proof (notify_marks_lazy_dirty E s 0 Hl) as (H1 & H2 & _).
  split_and!; [by vm_compute| by rewrite H1 | by vm_compute |].
  rewrite H1. apply H2. by_compute.
Defined.

(** ** watcher.js: [evaluate] and [run] *)

(** X7. [evaluate()] stores what [get] returned in [value] and clears
    [dirty], changing nothing else; when [get] throws, [evaluate] throws the
    same and [value] and [dirty] are left as [get] left them, so that a
    dirty watcher stays dirty. *)
Theorem evaluate_stores_value (E : Env) (w : nat) (s s1 : state)
    (r : outcome value) :
  get E w s = (r, s1) →
  let W1 := watcher (deps s1) w in
  (∀ v, r = Ok v →
     ∃ s2, evaluate E w s = (Ok tt, s2) ∧
       w_value (watcher (deps s2) w) = v ∧
       w_dirty (watcher (deps s2) w) = false ∧
       same_bookkeeping W1 (watcher (deps s2) w) ∧
       w_active (watcher (deps s2) w) = w_active W1 ∧
       (∀ x, x ≠ w → watcher (deps s2) x = watcher (deps s1) x) ∧
       subs (deps s2) = subs (deps s1) ∧ heap s2 = heap s1) ∧
  (∀ e, r = Throw e → evaluate E w s = (Throw e, s1)).
Proof.
  intros Hg W1. split.
  - intros v ->. eexists. split.
    + unfold evaluate, mbind, M_bind, bind. rewrite Hg. reflexivity.
    + simpl. rewrite !watcher_set_watcher, !decide_True by done. simpl.
      split_and!; try done.
      intros x Hx. rewrite !watcher_set_watcher. by rewrite !decide_False.
  - intros e ->. unfold evaluate, mbind, M_bind, bind. by rewrite Hg.
Qed.

Lemma evaluate_stores_value_witness :
  let lazy := Some (mkOptions false false true false None) in
  let E := sample_env false (λ _, reading_getter [0] (VNum (Fin 7)))
             (λ _ _ _, ret tt) (λ _, ret tt) in
  let s := state_of (run_ops [ONewDep; ONewWatcher 0 lazy false] init_deps) true in
  w_dirty (watcher (deps s) 1) = true ∧
  ∃ s2, evaluate E 1 s = (Ok tt, s2) ∧
    w_value (watcher (deps s2) 1) = VNum (Fin 7) ∧
    w_dirty (watcher (deps s2) 1) = false.
Proof.
  intros lazy E s. split; [by vm_compute|].
  destruct (evaluate_stores_value E 1 s (get E 1 s).2 (get E 1 s).1
              (surjective_pairing _)) as [H _].
  destruct (H (VNum (Fin 7))) as (s2 & H1 & H2 & H3 & _); [by vm_compute|].
  exists s2. by split_and!.
Defined.

(** X8. [run()] on an active watcher evaluates once and calls the callback
    exactly when the new value is not [===] the stored one, or is an object,
    or the watcher is deep; so a getter that returns NaN makes the callback
    run every time. The new value is stored before the callback is called,
    with the old one as second argument. Otherwise, and when [get] throws,
    the callback is not called and [value] keeps what it held. *)
Theorem run_calls_back_on_change (E : Env) (w : nat) (s s1 : state)
    (r : outcome value) :
  w_active (watcher (deps s) w) = true →
  get E w s = (r, s1) →
  let W1 := watcher (deps s1) w in
  let fires v := strict_ne v (w_value W1) || isObject (heap s1) v || w_deep W1 in
  let stored v := with_deps (λ c, set_watcher w (set_value v W1) c) s1 in
  (∀ v, r = Ok v → fires v = false → run E w s = (Ok tt, s1)) ∧
  (∀ v, r = Ok v → fires v = true → w_user W1 = false →
     run E w s = cb_of E w v (w_value W1) (stored v)) ∧
  (∀ v, r = Ok v → fires v = true → w_user W1 = true →
     run E w s = invokeWithErrorHandling (cb_of E w v (w_value W1)) (w_vm W1)
                   "callback for watcher" (stored v)) ∧
  (∀ e, r = Throw e → run E w s = (Throw e, s1)) ∧
  fires (VNum NaN) = true ∧
  (∀ v, strict_ne v (w_value W1) = true → fires v = true) ∧
  (∀ v, isObject (heap s1) v = true → fires v = true) ∧
  (∀ v, w_value (watcher (deps (stored v)) w) = v).
Proof.
  intros Ha Hg W1 fires stored.
  assert (Hrun : ∀ v, r = Ok v →
    run E w s =
    (if fires v then
       if w_user W1
       then invokeWithErrorHandling (cb_of E w v (w_value W1)) (w_vm W1)
              "callback for watcher" (stored v)
       else cb_of E w v (w_value W1) (stored v)
     else (Ok tt, s1))).
  { intros v ->. unfold run, mbind, M_bind, bind, the_watcher, read.
    rewrite Ha, Hg. fold W1. fold (fires v).
    destruct (fires v); [|done]. unfold update_deps. simpl.
    rewrite watcher_set_watcher, decide_True by done.
    fold W1. change (w_user (set_value v W1)) with (w_user W1).
    change (w_vm (set_value v W1)) with (w_vm W1).
    by destruct (w_user W1). }
  split_and!.
  - intros v Hr Hf. by rewrite (Hrun v Hr), Hf.
  - intros v Hr Hf Hu. by rewrite (Hrun v Hr), Hf, Hu.
  - intros v Hr Hf Hu. by rewrite (Hrun v Hr), Hf, Hu.
  - intros e ->. unfold run, mbind, M_bind, bind, the_watcher, read.
    by rewrite Ha, Hg.
  - unfold fires, strict_ne. by rewrite strict_eq_NaN.
  - intros v Hv. unfold fires. by rewrite Hv.
  - intros v Hv. unfold fires. rewrite Hv. by rewrite orb_true_r.
  - intros v. unfold stored. simpl. by rewrite watcher_set_watcher, decide_True.
Qed.

Lemma run_calls_back_on_change_witness :
  let E := sample_env false (λ _, reading_getter [0] (VNum NaN))
             (λ _ _ _, throw (UserError 5)) (λ _, ret tt) in
  let c := run_ops [ONewDep; ONewWatcher 0 None false; OSetValue 1 (VNum NaN)]
             init_deps in
  let s := state_of c true in
  (run E 1 s).1 = Throw (UserError 5) ∧
  w_value (watcher (deps (run E 1 s).2) 1) = VNum NaN.
Proof.
  intros E c s.
  assert (Ha : w_active (watcher (deps s) 1) = true) by (by vm_compute).
  pose proof (run_calls_back_on_change E 1 s (get E 1 s).2 (get E 1 s).1 Ha
                (surjective_pairing _)) as (_ & H2 & _).
  rewrite (H2 (VNum NaN)); [by vm_compute| by vm_compute | by vm_compute | by vm_compute].
Defined.

(** ** shared/util.js: [makeMap] and [genStaticKeys] *)

Ltac char_cases c :=
  destruct c as [[] [] [] [] [] [] [] []]; try done; vm_compute; try done.

Lemma is_comma_eq c : is_comma c = true → c = comma_char.
Proof. char_cases c. Qed.

Lemma split_comma_nonempty s : split_comma s ≠ [].
Proof.
  destruct s as [|c s]; simpl; [done|].
  destruct (is_comma c); [done|]. by destruct (split_comma s).
Qed.

Lemma join_comma_cons c p ps :
  join_comma (String c p :: ps) = String c (join_comma (p :: ps)).
Proof. by destruct ps. Qed.

Lemma join_split_comma s : join_comma (split_comma s) = s.
Proof.
  induction s as [|c s IH]; simpl; [done|].
  destruct (is_comma c) eqn:Hc.
  - apply is_comma_eq in Hc as ->.
    pose proof (split_comma_nonempty s).
    destruct (split_comma s) as [|p ps] eqn:Hs; [done|].
    cbn [join_comma]. by rewrite <- IH.
  - pose proof (split_comma_nonempty s).
    destruct (split_comma s) as [|p ps] eqn:Hs; [done|].
    rewrite join_comma_cons. by rewrite IH.
Qed.

Lemma split_comma_free s :
  Forall (λ p, comma_free p = true) (split_comma s).
Proof.
  induction s as [|c s IH]; simpl; [by constructor|].
  destruct (is_comma c) eqn:Hc; [by constructor|].
  destruct (split_comma s) as [|p ps]; [constructor; [|done]; simpl; by rewrite Hc|].
  apply Forall_cons in IH as [Hp Hps]. constructor; [|done].
  simpl. by rewrite Hc.
Qed.

Lemma split_comma_piece p : comma_free p = true → split_comma p = [p].
Proof.
  induction p as [|c p IH]; simpl; [done|].
  intros [Hc Hp]%andb_true_iff. apply negb_true_iff in Hc. rewrite Hc.
  by rewrite IH.
Qed.

Lemma split_comma_app p rest :
  comma_free p = true →
  split_comma (p +:+ String comma_char rest) = p :: split_comma rest.
Proof.
  induction p as [|c p IH]; simpl; [done|].
  intros [Hc Hp]%andb_true_iff. apply negb_true_iff in Hc. rewrite Hc.
  by rewrite IH.
Qed.

Lemma split_join_comma l :
  l ≠ [] → Forall (λ p, comma_free p = true) l → split_comma (join_comma l) = l.
Proof.
  induction l as [|p l IH]; [done|]. intros _ [Hp Hl]%Forall_cons.
  destruct l as [|q l]; [by apply split_comma_piece|].
  cbn [join_comma]. rewrite split_comma_app by done. f_equal. by apply IH.
Qed.

Lemma lookup_insert_all (l : list string) (m : gmap string bool) k :
  foldl (λ (map : gmap string bool) key, <[key := true]> map) m l !! k =
  if decide (k ∈ l) then Some true else m !! k.
Proof.
  revert m. induction l as [|x l IH]; intros m; simpl; [done|].
  rewrite IH. destruct (decide (k ∈ l)) as [Hin|Hin].
  - rewrite decide_True; [done | by right].
  - destruct (decide (x = k)) as [->|Hne].
    + rewrite decide_True by left. by rewrite lookup_insert, decide_True.
    + rewrite lookup_insert_ne by done. rewrite decide_False; [done|].
      by intros [?|?]%elem_of_cons.
Qed.

Lemma makeMap_eq str lower val :
  makeMap str lower val =
  if decide ((if lower then toLowerCase val else val) ∈ split_comma str)
  then Some true else None.
Proof.
  unfold makeMap. destruct lower; by rewrite lookup_insert_all.
Qed.

(** X9. The function that [makeMap(str, expectsLowerCase)] returns answers
    [true] exactly for the pieces of [str] between its commas, looked up
    after [toLowerCase] when [expectsLowerCase] is set, and [undefined] for
    every other key: it never answers [false]. The pieces hold no comma and
    give [str] back when joined with commas, so an empty [str] accepts the
    empty key. [isBuiltInTag] thus accepts [slot] and [component] in any
    letter case, [isReservedAttribute] its five names as written only. *)
Theorem makeMap_accepts_pieces (str : string) (expectsLowerCase : bool)
    (val : string) :
  let key := if expectsLowerCase then toLowerCase val else val in
  (makeMap str expectsLowerCase val = Some true ↔ key ∈ split_comma str) ∧
  (makeMap str expectsLowerCase val = None ↔ key ∉ split_comma str) ∧
  join_comma (split_comma str) = str ∧
  Forall (λ p, comma_free p = true) (split_comma str) ∧
  makeMap "" false "" = Some true ∧
  (isBuiltInTag val = Some true ↔
     toLowerCase val = "slot" ∨ toLowerCase val = "component") ∧
  (isReservedAttribute val = Some true ↔
     val ∈ ["key"; "ref"; "slot"; "slot-scope"; "is"]).
Proof.
  intros key. unfold key. split_and!.
  - rewrite makeMap_eq. by case_decide.
  - rewrite makeMap_eq. by case_decide.
  - apply join_split_comma.
  - apply split_comma_free.
  - done.
  - unfold isBuiltInTag. rewrite makeMap_eq.
    change (split_comma "slot,component") with ["slot"; "component"].
    case_decide as H; rewrite !elem_of_cons, elem_of_nil in H.
    + split; [intros _|done]. destruct H as [?|[?|[]]]; [by left|by right].
    + split; [done|]. intros [?|?]; exfalso; apply H; [by left|right; by left].
  - unfold isReservedAttribute. rewrite makeMap_eq.
    change (split_comma "key,ref,slot,slot-scope,is")
      with ["key"; "ref"; "slot"; "slot-scope"; "is"].
    by case_decide.
Qed.

Lemma genStaticKeys_keys modules acc :
  foldl (λ keys (m : option (list string)), keys ++ default [] m) acc modules =
  acc ++ mjoin (default [] <$> modules).
Proof.
  revert acc. induction modules as [|m modules IH]; intros acc; simpl.
  - by rewrite app_nil_r.
  - by rewrite IH, app_assoc.
Qed.

(** X10. [genStaticKeys] joins the [staticKeys] of the modules, in their
    order, with commas, a module without [staticKeys] adding nothing. When
    no key holds a comma and there is a key at all, [makeMap] of the result
    accepts exactly these keys; with no key at all the result is the empty
    string, of which [makeMap] accepts the empty key and nothing else. *)
Theorem genStaticKeys_makeMap (modules : list (option (list string)))
    (key : string) :
  let keys := mjoin (default [] <$> modules) in
  genStaticKeys modules = join_comma keys ∧
  (keys = [] →
     genStaticKeys modules = "" ∧
     (makeMap (genStaticKeys modules) false key = Some true ↔ key = "")) ∧
  (keys ≠ [] → Forall (λ k, comma_free k = true) keys →
     split_comma (genStaticKeys modules) = keys ∧
     (makeMap (genStaticKeys modules) false key = Some true ↔ key ∈ keys)).
Proof.
  intros keys.
  assert (Hg : genStaticKeys modules = join_comma keys).
  { unfold genStaticKeys. by rewrite genStaticKeys_keys. }
  split_and!; [done| |].
  - intros Hk. rewrite Hg, Hk. split; [done|].
    rewrite makeMap_eq. simpl.
    case_decide as H; rewrite list_elem_of_singleton in H; by split.
  - intros Hne Hfree. rewrite Hg.
    rewrite makeMap_eq, split_join_comma by done.
    split; [done|]. by case_decide.
Qed.

(** ** shared/util.js: [cached] *)

Lemma cachedFn_hit fn cache str hit s :
  cache !! str = Some hit → toBoolean hit = true →
  cachedFn fn cache str s = (Ok (hit, cache), s).
Proof. intros H1 H2. unfold cachedFn. by rewrite H1, H2. Qed.

Lemma cachedFn_miss fn cache str s :
  (cache !! str = None ∨ ∃ hit, cache !! str = Some hit ∧ toBoolean hit = false) →
  cachedFn fn cache str s = (v ← fn str; ret (v, <[str := v]> cache)) s.
Proof.
  intros [H|(hit & H1 & H2)]; unfold cachedFn; [by rewrite H | by rewrite H1, H2].
Qed.

(** X11. The function that [cached(fn)] returns answers from the cache,
    without calling [fn], when the cache holds a truthy result for the
    string. Otherwise it calls [fn] once, stores the result under the string
    and returns it, the other entries staying as they are; when [fn] throws
    nothing is stored. A truthy result is thus computed once: every later
    call with that string returns it without calling anything. A falsy
    result (the empty string, for one) is stored but never served: the next
    call computes again. *)
Theorem cached_memoizes (fn : string → M value) (cache : gmap string value)
    (str : string) (s s1 : state) (r : outcome value) :
  fn str s = (r, s1) →
  (∀ hit, cache !! str = Some hit → toBoolean hit = true →
     cachedFn fn cache str s = (Ok (hit, cache), s)) ∧
  ((cache !! str = None ∨
    ∃ hit, cache !! str = Some hit ∧ toBoolean hit = false) →
   (∀ v, r = Ok v →
      let cache' := <[str := v]> cache in
      cachedFn fn cache str s = (Ok (v, cache'), s1) ∧
      (∀ k, k ≠ str → cache' !! k = cache !! k) ∧
      (toBoolean v = true →
         ∀ fn' s', cachedFn fn' cache' str s' = (Ok (v, cache'), s')) ∧
      (toBoolean v = false →
         ∀ fn' s', cachedFn fn' cache' str s' =
                   (v' ← fn' str; ret (v', <[str := v']> cache')) s')) ∧
   (∀ e, r = Throw e → cachedFn fn cache str s = (Throw e, s1))).
Proof.
  intros Hfn. split; [intros; by apply cachedFn_hit|].
  intros Hmiss. split.
  - intros v -> cache'. split_and!.
    + rewrite cachedFn_miss by done. unfold mbind, M_bind, bind. by rewrite Hfn.
    + intros k Hk. unfold cache'. by rewrite lookup_insert_ne.
    + intros Hv fn' s'. apply cachedFn_hit; [|done].
      unfold cache'. by rewrite lookup_insert, decide_True.
    + intros Hv fn' s'. apply cachedFn_miss. right. exists v.
      split; [|done]. unfold cache'. by rewrite lookup_insert, decide_True.
  - intros e ->. rewrite cachedFn_miss by done.
    unfold mbind, M_bind, bind. by rewrite Hfn.
Qed.

Lemma cached_memoizes_witness :
  let fn := λ str, ret (VStr (camelize_fn str)) in
  let cache1 := <["a-b" := VStr "aB"]> (∅ : gmap string value) in
  cachedFn fn ∅ "a-b" init = (Ok (VStr "aB", cache1), init) ∧
  ∀ fn' s', cachedFn fn' cache1 "a-b" s' = (Ok (VStr "aB", cache1), s').
Proof.
  intros fn cache1.
  assert (Hfn : fn "a-b" init = (Ok (VStr "aB"), init)) by done.
  destruct (cached_memoizes fn ∅ "a-b" init init _ Hfn) as [_ H].
  destruct H as [H _]; [by left|].
  destruct (H (VStr "aB") eq_refl) as (H1 & _ & H3 & _).
  split; [exact H1 | by apply H3].
Defined.

Lemma cached_pure fn cache str s :
  memo_of fn cache →
  ∃ cache', cachedFn (λ k, ret (VStr (fn k))) cache str s =
              (Ok (VStr (fn str), cache'), s) ∧ memo_of fn cache'.
Proof.
  intros Hm.
  assert (Hins : memo_of fn (<[str := VStr (fn str)]> cache)).
  { intros k v. rewrite lookup_insert. case_decide; [by intros [= <-]; subst|].
    apply Hm. }
  unfold cachedFn. destruct (cache !! str) as [hit|] eqn:Hc.
  - rewrite (Hm _ _ Hc). destruct (toBoolean _); [by exists cache|].
    by eexists.
  - by eexists.
Qed.

(** ** shared/util.js: [camelize] and [hyphenate] *)

Lemma lower_not_upper c : is_upper c = false → lower_char c = c.
Proof. unfold lower_char. by intros ->. Qed.

Lemma hyphen_facts c :
  is_hyphen c = true → c = hyphen_char ∧ is_word c = false ∧ is_upper c = false.
Proof. char_cases c. Qed.

Lemma lower_facts d :
  is_lower d = true →
  is_upper (upper_char d) = true ∧ lower_char (upper_char d) = d ∧
  is_word (upper_char d) = true ∧ is_word d = true ∧ is_upper d = false ∧
  is_hyphen d = false.
Proof. char_cases d. Qed.

Lemma upper_facts c :
  is_upper c = true →
  upper_char (lower_char c) = c ∧ is_word (lower_char c) = true ∧
  is_word c = true ∧ is_hyphen c = false.
Proof. char_cases c. Qed.

Lemma lower_char_class c :
  is_word (lower_char c) = is_word c ∧ is_hyphen (lower_char c) = is_hyphen c.
Proof. char_cases c. Qed.

Lemma camelize_fn_cons c s :
  is_hyphen c = false → camelize_fn (String c s) = String c (camelize_fn s).
Proof. intros Hc. simpl. rewrite Hc. by destruct s. Qed.

Lemma camelize_fn_two c d s :
  camelize_fn (String c (String d s)) =
  if is_hyphen c && is_word d
  then String (upper_char d) (camelize_fn s)
  else String c (camelize_fn (String d s)).
Proof. reflexivity. Qed.

Lemma camelize_fn_no_word c d s :
  is_word d = false →
  camelize_fn (String c (String d s)) = String c (camelize_fn (String d s)).
Proof. intros Hd. by rewrite camelize_fn_two, Hd, andb_false_r. Qed.

Lemma hyphenate_camelize_from n s p :
  String.length s ≤ n → kebab_from p s = true →
  toLowerCase (hyphen_insert p (camelize_fn s)) = s.
Proof.
  revert s p. induction n as [|n IH]; intros s p Hn Hk.
  { destruct s; [done|simpl in Hn; lia]. }
  destruct s as [|c rest]; [done|].
  cbn [kebab_from] in Hk.
  apply andb_true_iff in Hk as [Hk Hrest].
  apply andb_true_iff in Hk as [Hup Hhy]. apply negb_true_iff in Hup.
  destruct rest as [|d rest'].
  { simpl. rewrite Hup, andb_false_r. simpl. by rewrite lower_not_upper. }
  rewrite camelize_fn_two.
  destruct (is_hyphen c && is_word d) eqn:Hm.
  - apply andb_true_iff in Hm as [Hc Hd]. rewrite Hc, Hd in Hhy.
    apply andb_true_iff in Hhy as [-> Hl].
    destruct (lower_facts d Hl) as (U1 & U2 & U3 & U4 & U5 & U6).
    destruct (hyphen_facts c Hc) as (-> & _ & _).
    cbn [hyphen_insert]. rewrite U1. simpl. rewrite U2, U3.
    f_equal. f_equal.
    cbn [kebab_from] in Hrest. rewrite U4 in Hrest.
    apply andb_true_iff in Hrest as [_ Hrest].
    apply IH; [simpl in Hn; lia | done].
  - cbn [hyphen_insert]. rewrite Hup, andb_false_r. cbn [toLowerCase].
    rewrite lower_not_upper by done. f_equal.
    apply IH; [simpl in Hn; simpl; lia | done].
Qed.

Lemma camelize_hyphenate_from s p :
  camel_from p s = true →
  camelize_fn (toLowerCase (hyphen_insert p s)) = s.
Proof.
  revert p. induction s as [|c rest IH]; intros p Hk; [done|].
  cbn [camel_from] in Hk.
  apply andb_true_iff in Hk as [Hk Hrest].
  apply andb_true_iff in Hk as [Hup Hhy].
  cbn [hyphen_insert].
  destruct (is_upper c) eqn:Hu.
  - rewrite Hup. cbn [andb toLowerCase].
    destruct (upper_facts c Hu) as (U1 & U2 & U3 & U4).
    change (lower_char hyphen_char) with hyphen_char.
    rewrite camelize_fn_two. change (is_hyphen hyphen_char) with true.
    rewrite U2. cbn [andb]. rewrite U1. f_equal.
    by apply IH.
  - rewrite andb_false_r. cbn [toLowerCase]. rewrite lower_not_upper by done.
    specialize (IH (is_word c) Hrest).
    destruct (is_hyphen c) eqn:Hc; [|by rewrite camelize_fn_cons, IH].
    destruct (hyphen_facts c Hc) as (_ & Hw & _). rewrite Hw in *.
    destruct rest as [|d rest']; [done|].
    apply negb_true_iff in Hhy.
    cbn [hyphen_insert andb toLowerCase] in *.
    rewrite camelize_fn_no_word; [by rewrite IH|].
    by rewrite (proj1 (lower_char_class d)).
Qed.

(** X12. On a hyphen-delimited name (no capital letter; a hyphen in front
    of a word character stands after a word character and before a small
    letter) [hyphenate] undoes [camelize]: [hyphenate(camelize(s))] is [s].
    The exported functions, which go through [cached], return these values
    for every cache that earlier calls have filled. *)
Theorem hyphenate_camelize_round_trip (s : string) :
  kebab s = true →
  hyphenate_fn (camelize_fn s) = s ∧
  (∀ cache1 cache2 st,
     memo_of camelize_fn cache1 → memo_of hyphenate_fn cache2 →
     ∃ cache1' cache2',
       camelize cache1 s st = (Ok (VStr (camelize_fn s), cache1'), st) ∧
       hyphenate cache2 (camelize_fn s) st = (Ok (VStr s, cache2'), st) ∧
       memo_of camelize_fn cache1' ∧ memo_of hyphenate_fn cache2').
Proof.
  intros Hk.
  assert (Hrt : hyphenate_fn (camelize_fn s) = s)
    by (by apply (hyphenate_camelize_from (String.length s))).
  split; [done|].
  intros cache1 cache2 st H1 H2.
  destruct (cached_pure camelize_fn cache1 s st H1) as (c1 & E1 & M1).
  destruct (cached_pure hyphenate_fn cache2 (camelize_fn s) st H2) as (c2 & E2 & M2).
  exists c1, c2. rewrite Hrt in E2. by split_and!.
Qed.

Lemma hyphenate_camelize_round_trip_witness :
  camelize_fn "my-component-name" = "myComponentName" ∧
  hyphenate_fn (camelize_fn "my-component-name") = "my-component-name".
Proof.
  split; [done|].
  apply (hyphenate_camelize_round_trip "my-component-name"). by vm_compute.
Defined.

(** X13. On a camel-case name (each capital letter stands after a word
    character; no hyphen stands in front of a word character) [camelize]
    undoes [hyphenate]: [camelize(hyphenate(s))] is [s], also through the
    cached exports. *)
Theorem camelize_hyphenate_round_trip (s : string) :
  camel s = true →
  camelize_fn (hyphenate_fn s) = s ∧
  (∀ cache1 cache2 st,
     memo_of hyphenate_fn cache1 → memo_of camelize_fn cache2 →
     ∃ cache1' cache2',
       hyphenate cache1 s st = (Ok (VStr (hyphenate_fn s), cache1'), st) ∧
       camelize cache2 (hyphenate_fn s) st = (Ok (VStr s, cache2'), st) ∧
       memo_of hyphenate_fn cache1' ∧ memo_of camelize_fn cache2').
Proof.
  intros Hk.
  assert (Hrt : camelize_fn (hyphenate_fn s) = s)
    by (by apply camelize_hyphenate_from).
  split; [done|].
  intros cache1 cache2 st H1 H2.
  destruct (cached_pure hyphenate_fn cache1 s st H1) as (c1 & E1 & M1).
  destruct (cached_pure camelize_fn cache2 (hyphenate_fn s) st H2) as (c2 & E2 & M2).
  exists c1, c2. rewrite Hrt in E2. by split_and!.
Qed.

Lemma camelize_hyphenate_round_trip_witness :
  hyphenate_fn "myComponentName" = "my-component-name" ∧
  camelize_fn (hyphenate_fn "myComponentName") = "myComponentName".
Proof.
  split; [done|].
  apply (camelize_hyphenate_round_trip "myComponentName"). by vm_compute.
Defined.

(** ** shared/util.js: [toArray] *)

Lemma fill_lookup (f : nat → value) l ret i :
  foldl (λ ret j, <[j := f j]> ret) ret l !! i =
  if decide (i ∈ l ∧ i < length ret) then Some (f i) else ret !! i.
Proof.
  revert ret. induction l as [|j l IH]; intros ret.
  - cbn [foldl]. case_decide as Hd; [|done].
    destruct Hd as [Hd _]. by apply elem_of_nil in Hd.
  - cbn [foldl]. rewrite IH, length_insert.
    destruct (decide (i ∈ l ∧ i < length ret)) as [[H1 H2]|Hn].
    + rewrite decide_True; [done|]. split; [by right|done].
    + destruct (decide (i = j)) as [->|Hne].
      * destruct (decide (j < length ret)) as [Hlt|Hge].
        -- rewrite decide_True by (split; [by left|done]).
           by rewrite list_lookup_insert_eq.
        -- rewrite decide_False by (intros [_ ?]; lia).
           rewrite !lookup_ge_None_2; [done|lia|rewrite length_insert; lia].
      * rewrite list_lookup_insert_ne by done.
        rewrite decide_False; [done|].
        intros [[?|?]%elem_of_cons ?]; [done|]. by apply Hn.
Qed.

Lemma toArray_eq (l : list value) (start : Z) :
  (0 ≤ Z.of_nat (length l) - start < 2 ^ 32)%Z →
  toArray l (Some start) =
  Ok ((λ j, at_index l (Z.of_nat j + start)) <$>
      seq 0 (Z.to_nat (Z.of_nat (length l) - start))).
Proof.
  intros Hi. unfold toArray. simpl.
  destruct (_ || _)%Z eqn:Hb.
  { apply orb_true_iff in Hb as [Hb|Hb]; apply Z.ltb_lt in Hb; lia. }
  f_equal. apply list_eq. intros i.
  rewrite fill_lookup, length_replicate, list_lookup_fmap.
  set (n := Z.to_nat _).
  destruct (decide (i < n)) as [Hlt|Hge].
  - rewrite decide_True.
    + rewrite lookup_seq_lt by done. done.
    + split; [|done]. apply elem_of_reverse, elem_of_seq. lia.
  - rewrite decide_False by (intros [_ ?]; lia).
    rewrite lookup_ge_None_2 by (rewrite length_replicate; lia).
    rewrite lookup_seq_ge by lia. done.
Qed.

(** X14. [toArray(list, start)] returns the items of [list] from index
    [start] on, in their order, all of them when [start] is left out or
    zero. A [start] beyond the length makes [new Array] throw a RangeError;
    a negative [start] puts that many undefined items in front of the
    items of [list]. *)
Theorem toArray_drops_start (l : list value) (start : Z) :
  let n := Z.of_nat (length l) in
  ((n < start)%Z → toArray l (Some start) = Throw RangeError) ∧
  ((0 ≤ start ≤ n)%Z → (n - start < 2 ^ 32)%Z →
     toArray l (Some start) = Ok (drop (Z.to_nat start) l)) ∧
  ((start < 0)%Z → (n - start < 2 ^ 32)%Z →
     toArray l (Some start) = Ok (replicate (Z.to_nat (- start)) VUndefined ++ l)) ∧
  ((n < 2 ^ 32)%Z → toArray l None = Ok l ∧ toArray l (Some 0%Z) = Ok l) ∧
  ((2 ^ 32 ≤ n - start)%Z → toArray l (Some start) = Throw RangeError).
Proof.
  intros n.
  assert (Hdrop : ∀ st, (0 ≤ st ≤ n)%Z → (n - st < 2 ^ 32)%Z →
            toArray l (Some st) = Ok (drop (Z.to_nat st) l)).
  { intros st H1 H2. rewrite toArray_eq by (fold n; lia). f_equal.
    apply list_eq. intros i. rewrite list_lookup_fmap, lookup_drop.
    fold n. destruct (decide (i < Z.to_nat (n - st))) as [Hlt|Hge].
    - rewrite lookup_seq_lt by done. simpl. unfold at_index.
      destruct (Z.ltb_spec (Z.of_nat i + st) 0); [lia|].
      replace (Z.to_nat (Z.of_nat i + st)) with (Z.to_nat st + i) by lia.
      destruct (lookup_lt_is_Some_2 l (Z.to_nat st + i)) as [v Hv]; [unfold n in *; lia|].
      by rewrite Hv.
    - rewrite lookup_seq_ge by lia. simpl.
      rewrite lookup_ge_None_2; [done | unfold n in *; lia]. }
  split_and!.
  - intros Hs. unfold toArray. simpl. fold n.
    destruct (Z.ltb_spec (n - start) 0); [done | lia].
  - apply Hdrop.
  - intros Hs Hb. rewrite toArray_eq by (fold n; lia). f_equal.
    apply list_eq. intros i. rewrite list_lookup_fmap. fold n.
    destruct (decide (i < Z.to_nat (- start))) as [Hlt|Hge].
    + rewrite lookup_seq_lt by lia. simpl.
      rewrite lookup_app_l by (rewrite length_replicate; lia).
      rewrite lookup_replicate_2 by lia. unfold at_index.
      destruct (Z.ltb_spec (Z.of_nat i + start) 0); [done|lia].
    + rewrite lookup_app_r by (rewrite length_replicate; lia).
      rewrite length_replicate.
      destruct (decide (i < Z.to_nat (n - start))) as [Hlt|Hge'].
      * rewrite lookup_seq_lt by done. simpl. unfold at_index.
        destruct (Z.ltb_spec (Z.of_nat i + start) 0); [lia|].
        replace (Z.to_nat (Z.of_nat i + start)) with (i - Z.to_nat (- start)) by lia.
        destruct (lookup_lt_is_Some_2 l (i - Z.to_nat (- start))) as [v Hv];
          [unfold n in *; lia|].
        by rewrite Hv.
      * rewrite lookup_seq_ge by lia. simpl.
        rewrite lookup_ge_None_2; [done | unfold n in *; lia].
  - intros Hb.
    assert (H0 : toArray l (Some 0%Z) = Ok l).
    { rewrite Hdrop by lia. by rewrite drop_0. }
    by split.
  - intros Hs. unfold toArray. simpl. fold n.
    destruct (Z.ltb_spec (n - start) 0); [done|]. simpl.
    destruct (Z.ltb_spec (2 ^ 32 - 1) (n - start)); [done | lia].
Qed.

(** ** shared/util.js: [extend] and [toObject] *)

Lemma extend_list_lookup (l : list (string * value)) (to : gmap string value) k :
  NoDup l.*1 →
  foldl (λ to kv, <[kv.1 := kv.2]> to) to l !! k =
  match (list_to_map l : gmap string value) !! k with
  | Some v => Some v
  | None => to !! k
  end.
Proof.
  revert to. induction l as [|[k0 v0] l IH]; intros to Hnd; simpl; [done|].
  apply NoDup_cons in Hnd as [Hk0 Hnd]. rewrite IH by done.
  destruct (decide (k0 = k)) as [->|Hne].
  - rewrite lookup_insert, decide_True by done.
    rewrite (not_elem_of_list_to_map_1 _ k) by done.
    by rewrite lookup_insert, decide_True.
  - rewrite (lookup_insert_ne (list_to_map l)) by done.
    destruct (list_to_map l !! k); [done|]. by rewrite lookup_insert_ne.
Qed.

Lemma extend_lookup to m k :
  extend to (Some m) !! k =
  match m !! k with Some v => Some v | None => to !! k end.
Proof.
  unfold extend. rewrite extend_list_lookup by apply NoDup_fst_map_to_list.
  by rewrite list_to_map_to_list.
Qed.

Lemma toObject_snoc arr x :
  toObject (arr ++ [x]) =
  match x with Some m => extend (toObject arr) (Some m) | None => toObject arr end.
Proof. unfold toObject. by rewrite foldl_app. Qed.

Lemma toObject_absent arr k :
  (∀ m, Some m ∈ arr → m !! k = None) → toObject arr !! k = None.
Proof.
  induction arr as [|x arr IH] using rev_ind; intros H; [done|].
  rewrite toObject_snoc.
  assert (Harr : toObject arr !! k = None).
  { apply IH. intros m Hm. apply H, elem_of_app. by left. }
  destruct x as [m|]; [|done].
  rewrite extend_lookup, Harr.
  rewrite (H m); [done|]. apply elem_of_app. right. by apply list_elem_of_singleton.
Qed.

Lemma toObject_app_absent arr l2 k :
  (∀ m, Some m ∈ l2 → m !! k = None) →
  toObject (arr ++ l2) !! k = toObject arr !! k.
Proof.
  induction l2 as [|x l2 IH] using rev_ind; intros H; [by rewrite app_nil_r|].
  rewrite app_assoc, toObject_snoc.
  assert (Hl2 : toObject (arr ++ l2) !! k = toObject arr !! k).
  { apply IH. intros m Hm. apply H, elem_of_app. by left. }
  destruct x as [m|]; [|done].
  rewrite extend_lookup, Hl2.
  rewrite (H m); [done|]. apply elem_of_app. right. by apply list_elem_of_singleton.
Qed.


(** ** shared/util.js: [once] *)

Lemma once_calls_called fn n s : once_calls fn n true s = (Ok true, s).
Proof. induction n as [|n IH]; [done|]. simpl. unfold mbind, M_bind, bind. simpl. apply IH. Qed.

(** X16. The function that [once(fn)] returns calls [fn] on its first
    call only: [called] is set before [fn] runs, so any number of calls in
    a row does what one call of [fn] does (its result being dropped), and
    when [fn] throws on the first call, the later calls still do nothing. *)
Theorem once_calls_fn_once (fn : M value) (n : nat) (s s1 : state)
    (r : outcome value) :
  fn s = (r, s1) →
  (once_call fn false).1 = true ∧
  (∀ v, r = Ok v → once_calls fn (S n) false s = (Ok true, s1)) ∧
  (∀ e, r = Throw e →
     once_calls fn (S n) false s = (Throw e, s1) ∧
     ∀ m s', once_calls fn m (once_call fn false).1 s' = (Ok true, s')) ∧
  (∀ m s', once_calls fn m true s' = (Ok true, s')).
Proof.
  intros Hfn. split_and!; [done| | |].
  - intros v ->. cbn [once_calls once_call].
    unfold mbind, M_bind, bind. rewrite Hfn. simpl. apply once_calls_called.
  - intros e ->. split.
    + cbn [once_calls once_call]. unfold mbind, M_bind, bind. by rewrite Hfn.
    + intros m s'. apply once_calls_called.
  - intros m s'. apply once_calls_called.
Qed.

Lemma once_calls_fn_once_witness :
  let fn : M value := emit (EWarn "called") ;; ret VUndefined in
  log (once_calls fn 3 false init).2 = [EWarn "called"].
Proof.
  intros fn.
  assert (Hfn : fn init = (Ok VUndefined, with_log (EWarn "called") init)) by done.
  destruct (once_calls_fn_once fn 2 _ _ _ Hfn) as (_ & H & _).
  by rewrite (H VUndefined eq_refl).
Defined.

(** ** observer/index.js: reading a reactive property *)

Lemma depend_with_target c t d : target c = Some t → depend d c = addDep t d c.
Proof. intros Ht. unfold depend. by rewrite Ht. Qed.

Lemma reactiveGetter_plain E fuel cell s :
  c_getter (cell_of (heap s) cell) = None →
  c_childOb (cell_of (heap s) cell) = None →
  reactiveGetter E (S fuel) cell s =
  (Ok (c_val (cell_of (heap s) cell)),
   match target (deps s) with
   | Some t => with_deps (addDep t (c_dep (cell_of (heap s) cell))) s
   | None => s
   end).
Proof.
  intros Hg Hc. cbn [reactiveGetter]. munfold. rewrite Hg.
  destruct (target (deps s)) as [t|] eqn:Ht; [|done].
  cbn [heap with_deps]. rewrite Hc. unfold with_deps.
  by rewrite (depend_with_target _ t).
Qed.

(** X17. Reading a reactive property that has no getter of its own returns
    the stored value and changes nothing on the heap. With no watcher under
    evaluation it changes nothing at all. With a watcher [t] as
    [Dep.target] it records the dep of the property with [t], and when the
    value has an observer also the dep of that observer; for an array value
    [dependArray] then visits the elements. After the read the dep of the
    property is in [t.newDepIds], and [t] is among its subscribers when [t]
    did not know the dep before. *)
Theorem reactiveGetter_collects (E : Env) (fuel cell : nat) (s : state) :
  let C := cell_of (heap s) cell in
  let d := c_dep C in
  c_getter C = None →
  (target (deps s) = None → reactiveGetter E (S fuel) cell s = (Ok (c_val C), s)) ∧
  (∀ t, target (deps s) = Some t → c_childOb C = None →
     reactiveGetter E (S fuel) cell s = (Ok (c_val C), with_deps (addDep t d) s)) ∧
  (∀ t o, target (deps s) = Some t → c_childOb C = Some o →
     let d' := ob_dep (observer_of (heap s) o) in
     let s1 := with_deps (λ c, addDep t d' (addDep t d c)) s in
     (is_array (heap s) (c_val C) = false →
        reactiveGetter E (S fuel) cell s = (Ok (c_val C), s1)) ∧
     (∀ a, c_val C = VRef a → is_array (heap s) (c_val C) = true →
        reactiveGetter E (S fuel) cell s =
        (dependArray fuel a ;; ret (c_val C)) s1)) ∧
  (∀ t, target (deps s) = Some t →
     let c1 := addDep t d (deps s) in
     d ∈ w_newDepIds (watcher c1 t) ∧
     (d ∉ w_newDepIds (watcher (deps s) t) → d ∉ w_depIds (watcher (deps s) t) →
      t ∈ subs_of c1 d)).
Proof.
  intros C d Hg. split_and!.
  - intros Ht. cbn [reactiveGetter]. munfold. fold C. by rewrite Hg, Ht.
  - intros t Ht Hc. rewrite reactiveGetter_plain by done. by rewrite Ht.
  - intros t o Ht Hc d' s1.
    assert (Ht1 : target (addDep t d (deps s)) = Some t)
      by (by rewrite target_addDep).
    split.
    + intros Ha. cbn [reactiveGetter]. munfold. fold C. rewrite Hg, Ht.
      cbn [heap with_deps]. fold C. rewrite Hc. cbn [heap deps with_deps].
      rewrite Ha. unfold s1, with_deps. simpl.
      rewrite (depend_with_target (deps s) t) by done.
      fold d. rewrite (depend_with_target _ t) by done.
      by destruct (c_val C).
    + intros a Hv Ha. cbn [reactiveGetter]. munfold. fold C. rewrite Hg, Ht.
      cbn [heap with_deps]. fold C. rewrite Hc. cbn [heap deps with_deps].
      rewrite Ha. unfold s1, with_deps. simpl.
      rewrite (depend_with_target (deps s) t) by done.
      fold d. rewrite (depend_with_target _ t) by done.
      rewrite Hv. simpl. by destruct (dependArray fuel a _) as [[[]|?|] ?].
  - intros t Ht c1. apply addDep_recorded.
Qed.

Lemma reactiveGetter_collects_witness :
  let E := sample_env false (λ _, ret VUndefined) (λ _ _ _, ret tt) (λ _, ret tt) in
  let s0 := state_of_heap (heap_of [(0, plain_object [("x", data_property (VNum (Fin 1)))])]) in
  let s1 := (observe E 3 (VRef 0) false s0).2 in
  let s := with_deps (run_ops [ONewWatcher 0 None false; OPushTarget (Some 1)]) s1 in
  getOwnPropertyDescriptor (heap s) 0 "x" = Some (mkProp (SReactive 0) true true true) ∧
  reactiveGetter E 1 0 s = (Ok (VNum (Fin 1)), with_deps (addDep 1 1) s) ∧
  subs_of (deps s) 1 = [] ∧
  subs_of (deps (reactiveGetter E 1 0 s).2) 1 = [1].
Proof.
  intros E s0 s1 s.
  destruct (reactiveGetter_collects E 0 0 s) as (_ & H2 & _); [by vm_compute|].
  split_and!; [by vm_compute| |by vm_compute|by vm_compute].
  apply (H2 1); by vm_compute.
Defined.

(** ** observer/index.js: what [observe] leaves alone *)

(** X18. A container without an observer gets none, and [observe] returns
    undefined and changes nothing, when observation is switched off
    ([toggleObserving(false)]), during server rendering, when the container
    is a Vue instance, and when it is neither an array nor a plain object.
    Switching observation off does not hide an observer that is there. *)
Theorem observe_gates (E : Env) (fuel a : nat) (asRoot : bool) (s : state) :
  let O := obj_of (heap s) a in
  let off := with_heap (toggleObserving false) s in
  (own_observer (heap s) a = None →
     shouldObserve (heap s) = false ∨ isServerRendering E = true ∨
     o_isVue O = true ∨ (o_array O = false ∧ o_plain O = false) →
     observe E (S fuel) (VRef a) asRoot s = (Ok None, s)) ∧
  (own_observer (heap s) a = None →
     observe E (S fuel) (VRef a) asRoot off = (Ok None, off)) ∧
  (∀ o, own_observer (heap s) a = Some o →
     isObject (heap s) (VRef a) = true → o_vnode O = false →
     observe E (S fuel) (VRef a) false off = (Ok (Some o), off)) ∧
  shouldObserve (heap (with_heap (toggleObserving true) off)) = true.
Proof.
  intros O off.
  assert (Hgate : ∀ s', own_observer (heap s') a = None →
     shouldObserve (heap s') = false ∨ isServerRendering E = true ∨
     o_isVue (obj_of (heap s') a) = true ∨
     (o_array (obj_of (heap s') a) = false ∧ o_plain (obj_of (heap s') a) = false) →
     observe E (S fuel) (VRef a) asRoot s' = (Ok None, s')).
  { intros s' Ho Hg. rewrite observe_S. unfold observe_body. munfold.
    simpl. destruct (negb _ || _); [done|]. rewrite Ho.
    destruct Hg as [->|[->|[->|[-> ->]]]]; simpl;
      rewrite ?andb_false_r; done. }
  split_and!.
  - apply Hgate.
  - intros Ho. apply Hgate; [done|by left].
  - intros o Ho Hobj Hv. by apply (observe_existing E fuel a false off o).
  - done.
Qed.

(** ** observer/index.js: [new Observer] on a plain object *)

Lemma observe_primitive E fuel v s :
  not_ref v = true → observe E (S fuel) v false s = (Ok None, s).
Proof. intros Hv. rewrite observe_S. unfold observe_body. by destruct v. Qed.

Lemma obj_of_converted a k v s :
  obj_of (heap (converted a k v s)) a =
  set_props (o_keys (obj_of (heap s) a))
    (<[k := mkProp (SReactive (cell_uid (heap s))) true true true]>
       (o_props (obj_of (heap s) a))) (obj_of (heap s) a).
Proof. unfold obj_of at 1. simpl. by rewrite lookup_insert, decide_True. Qed.

Lemma js_get_data E fuel a k v s :
  o_props (obj_of (heap s) a) !! k = Some (data_property v) →
  js_get E fuel a k s = (Ok v, s).
Proof.
  intros Hp. unfold js_get. munfold. unfold getOwnPropertyDescriptor.
  by rewrite Hp.
Qed.

Lemma defineReactive_data E (observe_rec : value → M (option nat)) fuel a k v s :
  o_props (obj_of (heap s) a) !! k = Some (data_property v) →
  (∀ s', observe_rec v s' = (Ok None, s')) →
  defineReactive_with E observe_rec fuel a k None None false s =
  (Ok tt, converted a k v s).
Proof.
  intros Hp Hrec. unfold defineReactive_with. munfold.
  cbn [heap with_deps]. unfold getOwnPropertyDescriptor at 1.
  destruct (new_Dep (deps s)) as [d c1] eqn:Hd.
  assert (Hd1 : d = dep_uid (deps s)) by (by injection Hd as <- _).
  assert (Hc1 : c1 = (new_Dep (deps s)).2) by (by rewrite Hd).
  cbn [heap with_deps]. rewrite Hp.
  change (p_slot <$> Some (data_property v)) with (Some (SData v)).
  simpl. unfold getOwnPropertyDescriptor. rewrite Hp. simpl.
  rewrite (js_get_data E fuel a k v) by done. rewrite Hrec.
  unfold defineProperty. simpl.
  repeat match goal with
  | |- context [obj_of ?h a] =>
      lazymatch h with
      | heap s => fail
      | _ => change (obj_of h a) with (obj_of (heap s) a)
      end
  end.
  rewrite Hp. simpl.
  unfold converted. subst d c1. reflexivity.
Qed.

Lemma props_converted_ne a k v s k' :
  k' ≠ k →
  o_props (obj_of (heap (converted a k v s)) a) !! k' =
  o_props (obj_of (heap s) a) !! k'.
Proof. intros Hne. rewrite obj_of_converted. simpl. by rewrite lookup_insert_ne. Qed.

Lemma walk_data E (observe_rec : value → M (option nat)) fuel a keys s :
  NoDup keys →
  (∀ k, k ∈ keys →
     ∃ v, o_props (obj_of (heap s) a) !! k = Some (data_property v) ∧
          not_ref v = true) →
  (∀ v s', not_ref v = true → observe_rec v s' = (Ok None, s')) →
  for_each keys (λ k, defineReactive_with E observe_rec fuel a k None None false) s =
  (Ok tt, walked a keys s).
Proof.
  intros Hnd Hp Hrec. revert s Hp.
  induction keys as [|k ks IH]; intros s Hp; [done|].
  apply NoDup_cons in Hnd as [Hk Hnd].
  destruct (Hp k) as (v & Hv & Hprim); [by left|].
  cbn [for_each]. unfold mbind, M_bind, bind.
  rewrite (defineReactive_data E observe_rec fuel a k v) by (try done; intros; by apply Hrec).
  unfold walked. cbn [foldl]. unfold data_value at 2. rewrite Hv. cbn [p_slot data_property].
  apply IH; [done|].
  intros k' Hk'. destruct (Hp k') as (v' & Hv' & Hprim'); [by right|].
  exists v'. split; [|done]. rewrite props_converted_ne; [done|].
  by intros ->.
Qed.

Lemma walked_frame a keys s :
  let s' := walked a keys s in
  cell_uid (heap s') = cell_uid (heap s) + length keys ∧
  dep_uid (deps s') = dep_uid (deps s) + length keys ∧
  (watchers (deps s') = watchers (deps s) ∧
   watcher_uid (deps s') = watcher_uid (deps s) ∧
   target (deps s') = target (deps s) ∧
   targetStack (deps s') = targetStack (deps s) ∧
   vms (deps s') = vms (deps s)) ∧
  observers (heap s') = observers (heap s) ∧
  observer_uid (heap s') = observer_uid (heap s) ∧
  shouldObserve (heap s') = shouldObserve (heap s) ∧
  log s' = log s ∧ config_async s' = config_async s ∧
  o_keys (obj_of (heap s') a) = o_keys (obj_of (heap s) a) ∧
  (∀ b, b ≠ a → objects (heap s') !! b = objects (heap s) !! b) ∧
  (∀ d, d < dep_uid (deps s) → subs_of (deps s') d = subs_of (deps s) d) ∧
  (∀ c, c < cell_uid (heap s) → cells (heap s') !! c = cells (heap s) !! c) ∧
  (∀ k, k ∉ keys →
     o_props (obj_of (heap s') a) !! k = o_props (obj_of (heap s) a) !! k).
Proof.
  revert s. induction keys as [|k ks IH]; intros s.
  { cbv zeta. unfold walked. cbn [foldl length].
    split_and!; (done || lia). }
  set (v := data_value (obj_of (heap s) a) k).
  specialize (IH (converted a k v s)).
  destruct IH as (I1 & I2 & (J1 & J2 & J3 & J4 & J5) & I4 & I5 & I6 & I7 & I8 &
                  I9 & I10 & I11 & I12 & I13).
  change (walked a (k :: ks) s) with (walked a ks (converted a k v s)).
  cbv zeta. split_and!.
  - rewrite I1. simpl. lia.
  - rewrite I2. simpl. lia.
  - by rewrite J1.
  - by rewrite J2.
  - by rewrite J3.
  - by rewrite J4.
  - by rewrite J5.
  - by rewrite I4.
  - by rewrite I5.
  - by rewrite I6.
  - by rewrite I7.
  - by rewrite I8.
  - rewrite I9, obj_of_converted. done.
  - intros b Hb. rewrite I10 by done. simpl. by rewrite lookup_insert_ne.
  - intros d Hd. rewrite I11 by (simpl; lia). unfold subs_of. simpl.
    rewrite lookup_insert_ne; [done|lia].
  - intros c Hc. rewrite I12 by (simpl; lia). simpl.
    rewrite lookup_insert_ne; [done|lia].
  - intros k' [Hne Hk']%not_elem_of_cons. rewrite I13 by done.
    by apply props_converted_ne.
Qed.

Lemma data_value_converted_ne a k v s k' :
  k' ≠ k →
  data_value (obj_of (heap (converted a k v s)) a) k' =
  data_value (obj_of (heap s) a) k'.
Proof. intros Hne. unfold data_value. by rewrite props_converted_ne. Qed.

Lemma walked_cells a keys s i k :
  NoDup keys → keys !! i = Some k →
  let s' := walked a keys s in
  o_props (obj_of (heap s') a) !! k =
    Some (mkProp (SReactive (cell_uid (heap s) + i)) true true true) ∧
  cells (heap s') !! (cell_uid (heap s) + i) =
    Some (mkCell a (dep_uid (deps s) + i) (data_value (obj_of (heap s) a) k)
            None None None None false).
Proof.
  revert s i. induction keys as [|k0 ks IH]; intros s i Hnd Hi; [done|].
  apply NoDup_cons in Hnd as [Hk0 Hnd].
  set (v := data_value (obj_of (heap s) a) k0).
  change (walked a (k0 :: ks) s) with (walked a ks (converted a k0 v s)).
  cbv zeta.
  pose proof (walked_frame a ks (converted a k0 v s))
    as (_ & _ & _ & _ & _ & _ & _ & _ & _ & _ & _ & F12 & F13).
  destruct i as [|i].
  - injection Hi as <-. rewrite Nat.add_0_r. split.
    + rewrite F13 by done. rewrite obj_of_converted. simpl.
      by rewrite lookup_insert, decide_True.
    + rewrite F12 by (simpl; lia). simpl.
      rewrite lookup_insert, decide_True by done. by rewrite Nat.add_0_r.
  - simpl in Hi.
    assert (Hne : k ≠ k0).
    { intros ->. apply Hk0. by eapply list_elem_of_lookup_2. }
    destruct (IH (converted a k0 v s) i Hnd Hi) as [H1 H2].
    rewrite data_value_converted_ne in H2 by done.
    simpl in H1, H2.
    replace (cell_uid (heap s) + S i) with (S (cell_uid (heap s) + i)) by lia.
    replace (dep_uid (deps s) + S i) with (S (dep_uid (deps s) + i)) by lia.
    by split.
Qed.

Lemma Object_keys_all h a :
  (∀ k, k ∈ o_keys (obj_of h a) → enumerable_key (obj_of h a) k = true) →
  Object_keys h a = o_keys (obj_of h a).
Proof.
  intros H. unfold Object_keys.
  induction (o_keys (obj_of h a)) as [|k ks IH]; [done|].
  rewrite filter_cons, decide_True by (apply H; by left).
  f_equal. apply IH. intros k' Hk'. apply H. by right.
Qed.

Lemma obj_of_attached a s :
  obj_of (heap (attached a s)) a =
  set_props (o_keys (obj_of (heap s) a) ++ ["__ob__"])
    (<["__ob__" := mkProp (SObserver (observer_uid (heap s))) true false false]>
       (o_props (obj_of (heap s) a))) (obj_of (heap s) a).
Proof. unfold obj_of at 1. simpl. by rewrite lookup_insert, decide_True. Qed.

Lemma flat_key_not_ob E s a k :
  flat_object E s a → k ∈ o_keys (obj_of (heap s) a) → k ≠ "__ob__".
Proof.
  intros F Hk ->. destruct (flat_props E s a F _ Hk) as (v & Hv & _).
  by rewrite (flat_no_ob E s a F) in Hv.
Qed.

Lemma Object_keys_attached E s a :
  flat_object E s a →
  Object_keys (heap (attached a s)) a = o_keys (obj_of (heap s) a).
Proof.
  intros F. unfold Object_keys. rewrite obj_of_attached. simpl.
  rewrite filter_app, filter_cons, decide_False, filter_nil, app_nil_r.
  - induction (o_keys (obj_of (heap s) a)) as [|k ks IH] eqn:Hks in F |- *; [done|].
    clear IH.
    assert (Hall : ∀ k', k' ∈ k :: ks →
      enumerable_key (set_props ((k :: ks) ++ ["__ob__"])
        (<["__ob__" := mkProp (SObserver (observer_uid (heap s))) true false false]>
           (o_props (obj_of (heap s) a))) (obj_of (heap s) a)) k' = true).
    { intros k' Hk'. unfold enumerable_key. simpl.
      assert (Hin : k' ∈ o_keys (obj_of (heap s) a)) by (by rewrite Hks).
      rewrite lookup_insert_ne by (intros <-; by eapply (flat_key_not_ob E s a)).
      destruct (flat_props E s a F _ Hin) as (v & -> & _). done. }
    revert Hall. generalize (k :: ks). intros l Hall.
    induction l as [|x l IH]; [done|].
    rewrite filter_cons, decide_True.
    + f_equal. apply IH. intros k' Hk'.
      specialize (Hall k' (list_elem_of_further _ _ _ Hk')).
      unfold enumerable_key in *. simpl in *. done.
    + specialize (Hall x (list_elem_of_here _ _)).
      unfold enumerable_key in *. simpl in *. done.
  - unfold enumerable_key. simpl. by rewrite lookup_insert, decide_True.
Qed.

Lemma filter_enumerable O l x :
  (∀ k, k ∈ l → enumerable_key O k = true) → enumerable_key O x = false →
  filter (λ k, enumerable_key O k = true) (l ++ [x]) = l.
Proof.
  intros Hl Hx. rewrite filter_app, filter_cons, decide_False, filter_nil, app_nil_r
    by (by rewrite Hx).
  induction l as [|k l IH]; [done|].
  rewrite filter_cons, decide_True by (apply Hl; by left).
  f_equal. apply IH. intros k' Hk'. apply Hl. by right.
Qed.

Lemma new_Observer_flat E (observe_rec : value → M (option nat)) fuel a s :
  flat_object E s a →
  (∀ v s', not_ref v = true → observe_rec v s' = (Ok None, s')) →
  new_Observer E observe_rec fuel a s =
  (Ok (observer_uid (heap s)),
   walked a (o_keys (obj_of (heap s) a)) (attached a s)).
Proof.
  intros F Hrec.
  assert (Hdef : def a "__ob__" (SObserver (observer_uid (heap s)))
            (with_heap (λ h, mkHeap (objects h)
               (<[observer_uid (heap s) := mkObserver a (dep_uid (deps s)) 0]> (observers h))
               (S (observer_uid (heap s))) (cells h) (cell_uid h) (shouldObserve h))
               (with_deps (λ _, (new_Dep (deps s)).2) s)) =
          (Ok tt, attached a s)).
  { unfold def, defineProperty. cbn [heap with_heap with_deps].
    match goal with |- context [obj_of ?h a] =>
      change (obj_of h a) with (obj_of (heap s) a) end.
    by rewrite (flat_no_ob E s a F), (flat_extensible E s a F). }
  unfold new_Observer. munfold. cbn [heap with_deps with_heap].
  destruct (new_Dep (deps s)) as [d c1] eqn:Hd.
  assert (Hd1 : d = dep_uid (deps s)) by (by injection Hd as <- _).
  assert (Hc1 : c1 = (new_Dep (deps s)).2) by (by rewrite Hd).
  subst d c1. cbn [heap with_deps with_heap observer_uid].
  cbn [snd] in Hdef. rewrite Hdef.
  rewrite obj_of_attached. cbn [o_array set_props].
  rewrite (flat_no_array E s a F).
  unfold walk. munfold. rewrite (Object_keys_attached E s a F).
  rewrite walk_data; [done|apply (flat_keys E s a F)| |done].
  intros k Hk. destruct (flat_props E s a F k Hk) as (v & Hv & Hprim).
  exists v. split; [|done]. rewrite obj_of_attached. simpl.
  rewrite lookup_insert_ne; [done|].
  intros <-. by eapply (flat_key_not_ob E s a).
Qed.

Lemma observe_flat E fuel a s :
  flat_object E s a →
  observe E (S (S fuel)) (VRef a) false s =
  (Ok (Some (observer_uid (heap s))),
   walked a (o_keys (obj_of (heap s) a)) (attached a s)).
Proof.
  intros F. rewrite observe_S. unfold observe_body. munfold.
  rewrite (flat_object_type E s a F), (flat_no_vnode E s a F). cbn [negb orb].
  assert (Ho : own_observer (heap s) a = None).
  { unfold own_observer, own_observer_of. by rewrite (flat_no_ob E s a F). }
  rewrite Ho.
  rewrite (flat_observing E s a F), (flat_client E s a F), (flat_no_array E s a F),
    (flat_plain E s a F), (flat_extensible E s a F), (flat_no_vue E s a F).
  cbn [negb andb orb].
  rewrite (new_Observer_flat E _ (S fuel) a s F); [done|].
  intros v s' Hv. by apply observe_primitive.
Qed.

(** X19. [observe] (and so [Vue.observable]) on a plain, extensible object
    whose own properties are configurable, enumerable data properties
    holding no objects attaches a new Observer with a dep of its own under
    a non-enumerable [__ob__], so that [Object.keys] gives the same keys in
    the same order, and converts every property: the i-th key gets closure
    variables and a dep of its own, no two the same, and its [get] accessor
    returns the value the property held, recording that dep with the
    watcher under evaluation when there is one. Watchers, subscriptions of
    the deps that existed, the other objects and the log are as before. *)
Theorem observe_converts_properties (E : Env) (fuel a : nat) (s : state) :
  flat_object E s a →
  let O := obj_of (heap s) a in
  let o := observer_uid (heap s) in
  let r := observe E (S (S fuel)) (VRef a) false s in
  let s' := r.2 in
  r.1 = Ok (Some o) ∧
  observable E (S (S fuel)) (VRef a) s = (Ok (VRef a), s') ∧
  own_observer (heap s') a = Some o ∧
  observer_of (heap s') o = mkObserver a (dep_uid (deps s)) 0 ∧
  Object_keys (heap s') a = Object_keys (heap s) a ∧
  (∀ i k, o_keys O !! i = Some k →
     let c := cell_uid (heap s) + i in
     let d := S (dep_uid (deps s)) + i in
     let v := data_value O k in
     getOwnPropertyDescriptor (heap s') a k =
       Some (mkProp (SReactive c) true true true) ∧
     cell_of (heap s') c = mkCell a d v None None None None false ∧
     ∀ f, js_get E (S f) a k s' =
            (Ok v, match target (deps s) with
                   | Some t => with_deps (addDep t d) s'
                   | None => s'
                   end)) ∧
  dep_uid (deps s') = S (dep_uid (deps s)) + length (o_keys O) ∧
  watchers (deps s') = watchers (deps s) ∧
  target (deps s') = target (deps s) ∧
  (∀ d, d < dep_uid (deps s) → subs_of (deps s') d = subs_of (deps s) d) ∧
  (∀ b, b ≠ a → objects (heap s') !! b = objects (heap s) !! b) ∧
  log s' = log s.
Proof.
  intros F O o r s'.
  assert (Hr : r = (Ok (Some o), walked a (o_keys O) (attached a s)))
    by (by apply observe_flat).
  assert (Hs' : s' = walked a (o_keys O) (attached a s)) by (unfold s'; by rewrite Hr).
  pose proof (walked_frame a (o_keys O) (attached a s))
    as (F1 & F2 & (G1 & G2 & G3 & G4 & G5) & F4 & F5 & F6 & F7 & F8 & F9 & F10 &
        F11 & F12 & F13).
  rewrite <- Hs' in *.
  assert (Hob : "__ob__" ∉ o_keys O).
  { intros H. by apply (flat_key_not_ob E s a "__ob__" F H). }
  assert (Henum : ∀ k, k ∈ o_keys O → enumerable_key O k = true).
  { intros k Hk. unfold enumerable_key, O.
    by destruct (flat_props E s a F k Hk) as (v & -> & _). }
  split_and!.
  - by rewrite Hr.
  - unfold observable, mbind, M_bind, bind. fold r. by rewrite Hr.
  - unfold own_observer, own_observer_of. rewrite F13 by done.
    rewrite obj_of_attached. simpl. by rewrite lookup_insert, decide_True.
  - unfold observer_of. rewrite F4. simpl. by rewrite lookup_insert, decide_True.
  - rewrite (Object_keys_all (heap s) a) by done.
    unfold Object_keys. rewrite F9, obj_of_attached. cbn [o_keys set_props].
    apply filter_enumerable.
    + intros k Hk'.
      destruct (list_elem_of_lookup_1 _ _ Hk') as [i Hi].
      destruct (walked_cells a (o_keys O) (attached a s) i k (flat_keys E s a F) Hi)
        as [H1 _]. rewrite <- Hs' in H1. unfold enumerable_key. by rewrite H1.
    + unfold enumerable_key. rewrite F13 by done.
      rewrite obj_of_attached. simpl. by rewrite lookup_insert, decide_True.
  - intros i k Hi c d v.
    assert (Hk : k ∈ o_keys O) by (by eapply list_elem_of_lookup_2).
    assert (Hv : data_value (obj_of (heap (attached a s)) a) k = v).
    { unfold data_value. rewrite obj_of_attached. simpl.
      rewrite lookup_insert_ne; [done|].
      intros <-. by apply Hob. }
    destruct (walked_cells a (o_keys O) (attached a s) i k (flat_keys E s a F) Hi)
      as [H1 H2]. rewrite <- Hs' in H1, H2. rewrite Hv in H2.
    change (cell_uid (heap (attached a s))) with (cell_uid (heap s)) in H1, H2.
    change (dep_uid (deps (attached a s))) with (S (dep_uid (deps s))) in H2.
    fold c in H1, H2. fold d in H2.
    assert (Hcell : cell_of (heap s') c = mkCell a d v None None None None false).
    { unfold cell_of. by rewrite H2. }
    split_and!; [done|done|].
    intros f. unfold js_get. munfold. unfold getOwnPropertyDescriptor.
    rewrite H1. cbn [p_slot].
    rewrite reactiveGetter_plain by (by rewrite Hcell).
    rewrite Hcell. cbn [c_val c_dep]. by rewrite G3.
  - rewrite F2. simpl. lia.
  - by rewrite G1.
  - by rewrite G3.
  - intros d Hd. rewrite F11 by (simpl; lia). unfold subs_of. simpl.
    rewrite lookup_insert_ne; [done|lia].
  - intros b Hb. rewrite F10 by done. simpl. by rewrite lookup_insert_ne.
  - by rewrite F7.
Qed.

Lemma observe_converts_properties_witness :
  let E := sample_env false (λ _, ret VUndefined) (λ _ _ _, ret tt) (λ _, ret tt) in
  let O := plain_object [("x", data_property (VNum (Fin 1)));
                         ("y", data_property (VStr "two"))] in
  let s := state_of_heap (heap_of [(0, O)]) in
  flat_object E s 0 ∧
  Object_keys (heap s) 0 = ["x"; "y"] ∧
  (observe E 2 (VRef 0) false s).1 = Ok (Some (observer_uid (heap s))) ∧
  Object_keys (heap (observe E 2 (VRef 0) false s).2) 0 = Object_keys (heap s) 0 ∧
  getOwnPropertyDescriptor (heap (observe E 2 (VRef 0) false s).2) 0 "y" =
    Some (mkProp (SReactive (cell_uid (heap s) + 1)) true true true).
Proof.
  intros E O s.
  assert (F : flat_object E s 0).
  { split; try by vm_compute.
    - by_compute.
    - intros k Hk. change (o_keys (obj_of (heap s) 0)) with ["x"; "y"] in Hk.
      apply elem_of_cons in Hk as [->|Hk].
      + exists (VNum (Fin 1)). by vm_compute.
      + apply list_elem_of_singleton in Hk as ->.
        exists (VStr "two"). by vm_compute. }
  pose proof (observe_converts_properties E 0 0 s F)
    as (H1 & _ & _ & _ & H5 & H6 & _).
  assert (Hy : o_keys (obj_of (heap s) 0) !! 1 = Some "y") by (by vm_compute).
  destruct (H6 1 "y" Hy) as (P1 & _).
  split_and!; [exact F | by vm_compute | exact H1 | exact H5 | exact P1].
Defined.

(** ** observer/index.js: [set] and [del] on an observed object *)

Lemma defineReactive_with_new E (observe_rec : value → M (option nat)) fuel a k v s :
  o_props (obj_of (heap s) a) !! k = None →
  o_extensible (obj_of (heap s) a) = true →
  (∀ s', observe_rec v s' = (Ok None, s')) →
  defineReactive_with E observe_rec fuel a k (Some v) None false s =
  (Ok tt, defined a k v s).
Proof.
  intros Hp Hx Hrec. unfold defineReactive_with. munfold.
  cbn [heap with_deps]. unfold getOwnPropertyDescriptor.
  destruct (new_Dep (deps s)) as [d c1] eqn:Hd.
  assert (Hd1 : d = dep_uid (deps s)) by (by injection Hd as <- _).
  assert (Hc1 : c1 = (new_Dep (deps s)).2) by (by rewrite Hd).
  cbn [heap with_deps]. rewrite !Hp. simpl.
  rewrite Hrec.
  unfold defineProperty. simpl.
  repeat match goal with
  | |- context [obj_of ?h a] =>
      lazymatch h with
      | heap s => fail
      | _ => change (obj_of h a) with (obj_of (heap s) a)
      end
  end.
  rewrite Hp, Hx. subst d c1. unfold defined, with_heap, set_obj, with_deps.
  simpl. reflexivity.
Qed.

Lemma defineReactive_new E fuel a k v s :
  o_props (obj_of (heap s) a) !! k = None →
  o_extensible (obj_of (heap s) a) = true →
  not_ref v = true →
  defineReactive E (S fuel) a k (Some v) None false s = (Ok tt, defined a k v s).
Proof.
  intros Hp Hx Hv. unfold defineReactive.
  apply defineReactive_with_new; [done|done|].
  intros s'. by apply observe_primitive.
Qed.

Lemma js_in_absent E h k a : js_in E h k a = false → o_props (obj_of h a) !! k = None.
Proof.
  unfold js_in. intros Hin.
  apply orb_false_elim in Hin as [Hin _].
  apply orb_false_elim in Hin as [Hown _].
  unfold hasOwn, getOwnPropertyDescriptor in Hown.
  apply bool_decide_eq_false in Hown.
  destruct (o_props (obj_of h a) !! k) eqn:Ek; [|done].
  exfalso. apply Hown. by eexists.
Qed.



Lemma del_eq E fuel a key s :
  is_array (heap s) (VRef a) && isValidArrayIndex E key = false →
  del E fuel (VRef a) key s =
  let k := js_String E key in
  let ob := own_observer (heap s) a in
  if o_isVue (obj_of (heap s) a) ||
     negb (bool_decide (match ob with
                        | Some o => ob_vmCount (observer_of (heap s) o)
                        | None => 0
                        end = 0))
  then when (negb (production E))
         (warn "Avoid deleting properties on a Vue instance or its root $data - just set it to null.") s
  else if hasOwn (heap s) a k
       then (js_delete a k ;;
             match ob with
             | None => ret tt
             | Some o => d ← read (λ s, ob_dep (observer_of (heap s) o)); notify E d
             end) s
       else (Ok tt, s).
Proof.
  intros Hidx. unfold del. munfold. simpl. rewrite andb_false_r. simpl.
  rewrite Hidx. simpl.
  destruct (o_isVue _ || _); [done|].
  by destruct (hasOwn _ _ _).
Qed.



(** ** observer/index.js: [new Observer] on an array *)

Lemma method_name_inj m1 m2 : method_name m1 = method_name m2 → m1 = m2.
Proof. by destruct m1, m2. Qed.

Lemma method_name_not_ob m : method_name m ≠ "__ob__".
Proof. by destruct m. Qed.

Lemma obj_of_method_defined E a s m :
  obj_of (heap (method_defined E a s m)) a =
  set_props (o_keys (obj_of (heap s) a) ++ [method_name m])
    (<[method_name m := mkProp (SData (VRef (arrayMethod_ref E m))) true false false]>
       (o_props (obj_of (heap s) a))) (obj_of (heap s) a).
Proof. unfold obj_of at 1. simpl. by rewrite lookup_insert, decide_True. Qed.

Lemma copy_methods E a ms s :
  NoDup ms →
  (∀ m, m ∈ ms → o_props (obj_of (heap s) a) !! method_name m = None) →
  o_extensible (obj_of (heap s) a) = true →
  for_each ms (λ m, def a (method_name m) (SData (VRef (arrayMethod_ref E m)))) s =
  (Ok tt, foldl (method_defined E a) s ms).
Proof.
  revert s. induction ms as [|m ms IH]; intros s Hnd Hp Hx; [done|].
  apply NoDup_cons in Hnd as [Hm Hnd].
  cbn [for_each foldl]. unfold mbind, M_bind, bind.
  assert (Hdef : def a (method_name m) (SData (VRef (arrayMethod_ref E m))) s =
                 (Ok tt, method_defined E a s m)).
  { unfold def, defineProperty. by rewrite (Hp m) by left; rewrite Hx. }
  rewrite Hdef. apply IH; [done| |].
  - intros m' Hm'. rewrite obj_of_method_defined. simpl.
    rewrite lookup_insert_ne; [apply Hp; by right|].
    intros Heq%method_name_inj. by subst.
  - by rewrite obj_of_method_defined.
Qed.

Lemma methods_defined_frame E a ms s :
  let s' := foldl (method_defined E a) s ms in
  deps s' = deps s ∧ cells (heap s') = cells (heap s) ∧
  cell_uid (heap s') = cell_uid (heap s) ∧
  observers (heap s') = observers (heap s) ∧
  observer_uid (heap s') = observer_uid (heap s) ∧ log s' = log s ∧
  o_elems (obj_of (heap s') a) = o_elems (obj_of (heap s) a) ∧
  o_array (obj_of (heap s') a) = o_array (obj_of (heap s) a) ∧
  o_keys (obj_of (heap s') a) = o_keys (obj_of (heap s) a) ++ (method_name <$> ms) ∧
  (∀ k, k ∉ method_name <$> ms →
     o_props (obj_of (heap s') a) !! k = o_props (obj_of (heap s) a) !! k) ∧
  (NoDup ms → ∀ m, m ∈ ms →
     o_props (obj_of (heap s') a) !! method_name m =
     Some (mkProp (SData (VRef (arrayMethod_ref E m))) true false false)).
Proof.
  revert s. induction ms as [|m ms IH]; intros s.
  { cbv zeta. cbn [foldl fmap list_fmap]. rewrite app_nil_r.
    split_and!; try done. intros _ m Hm. by apply elem_of_nil in Hm. }
  cbv zeta. cbn [foldl].
  destruct (IH (method_defined E a s m))
    as (I1 & I2 & I3 & I4 & I5 & I6 & I7 & I8 & I9 & I10 & I11).
  split_and!.
  - by rewrite I1.
  - by rewrite I2.
  - by rewrite I3.
  - by rewrite I4.
  - by rewrite I5.
  - by rewrite I6.
  - by rewrite I7, obj_of_method_defined.
  - by rewrite I8, obj_of_method_defined.
  - rewrite I9, obj_of_method_defined. simpl. by rewrite <- app_assoc.
  - intros k Hk. rewrite fmap_cons in Hk. apply not_elem_of_cons in Hk as [Hne Hk].
    rewrite I10 by done. rewrite obj_of_method_defined. simpl.
    by rewrite lookup_insert_ne.
  - intros Hnd m' Hm'. apply NoDup_cons in Hnd as [Hm Hnd].
    apply elem_of_cons in Hm' as [->|Hm'].
    + rewrite I10.
      * rewrite obj_of_method_defined. simpl. by rewrite lookup_insert, decide_True.
      * intros (m' & Heq%method_name_inj & Hin)%list_elem_of_fmap. by subst.
    + by apply I11.
Qed.

Lemma observeArray_primitives (observe_rec : value → M (option nat)) a s :
  (∀ i v, o_elems (obj_of (heap s) a) !! i = Some v → not_ref v = true) →
  (∀ v s', not_ref v = true → observe_rec v s' = (Ok None, s')) →
  observeArray observe_rec (length (o_elems (obj_of (heap s) a)))
    (λ i, read (λ s, default VUndefined (o_elems (obj_of (heap s) a) !! i))) s =
  (Ok tt, s).
Proof.
  intros Hel Hrec. unfold observeArray.
  assert (Hall : ∀ i, i ∈ seq 0 (length (o_elems (obj_of (heap s) a))) →
            not_ref (default VUndefined (o_elems (obj_of (heap s) a) !! i)) = true).
  { intros i Hi. destruct (o_elems (obj_of (heap s) a) !! i) eqn:Ei; [|done].
    by apply (Hel i). }
  revert Hall. generalize (seq 0 (length (o_elems (obj_of (heap s) a)))).
  intros l Hall. induction l as [|i l IH]; [done|].
  cbn [for_each]. munfold. rewrite Hrec by (apply Hall; by left).
  apply IH. intros j Hj. apply Hall. by right.
Qed.

Lemma filter_enumerable_ext O O' (l : list string) :
  (∀ k, k ∈ l → enumerable_key O' k = enumerable_key O k) →
  filter (λ k, enumerable_key O' k = true) l =
  filter (λ k, enumerable_key O k = true) l.
Proof.
  induction l as [|k l IH]; intros H; [done|].
  rewrite !filter_cons, H by left.
  rewrite IH by (intros k' Hk'; apply H; by right). done.
Qed.

Lemma filter_enumerable_none O (l : list string) :
  (∀ k, k ∈ l → enumerable_key O k = false) →
  filter (λ k, enumerable_key O k = true) l = [].
Proof.
  induction l as [|k l IH]; intros H; [done|].
  rewrite filter_cons, decide_False by (rewrite H by left; done).
  apply IH. intros k' Hk'. apply H. by right.
Qed.

Lemma obj_of_augmented E a s :
  obj_of (heap (augmented E a s)) a =
  set_augmented
    (obj_of (heap (if hasProto E then s
                   else foldl (method_defined E a) s arrayKeys)) a).
Proof.
  unfold augmented, obj_of at 1. cbn [heap with_heap objects set_obj].
  by rewrite lookup_insert, decide_True.
Qed.

Lemma observe_array E fuel a s :
  flat_array E s a →
  observe E (S (S fuel)) (VRef a) false s =
  (Ok (Some (observer_uid (heap s))), augmented E a (attached a s)).
Proof.
  intros F. rewrite observe_S. unfold observe_body. munfold.
  rewrite (flat_array_type E s a F), (flat_array_no_vnode E s a F). cbn [negb orb].
  assert (Ho : own_observer (heap s) a = None).
  { unfold own_observer, own_observer_of. by rewrite (flat_array_no_ob E s a F). }
  rewrite Ho.
  rewrite (flat_array_observing E s a F), (flat_array_client E s a F),
    (flat_array_array E s a F), (flat_array_extensible E s a F),
    (flat_array_no_vue E s a F).
  cbn [negb andb orb].
  assert (Hdef : def a "__ob__" (SObserver (observer_uid (heap s)))
            (with_heap (λ h, mkHeap (objects h)
               (<[observer_uid (heap s) := mkObserver a (dep_uid (deps s)) 0]> (observers h))
               (S (observer_uid (heap s))) (cells h) (cell_uid h) (shouldObserve h))
               (with_deps (λ _, (new_Dep (deps s)).2) s)) =
          (Ok tt, attached a s)).
  { unfold def, defineProperty. cbn [heap with_heap with_deps].
    match goal with |- context [obj_of ?h a] =>
      change (obj_of h a) with (obj_of (heap s) a) end.
    by rewrite (flat_array_no_ob E s a F), (flat_array_extensible E s a F). }
  assert (Hnew : new_Observer E (λ v, observe E (S fuel) v false) (S fuel) a s =
            (Ok (observer_uid (heap s)), augmented E a (attached a s))).
  { unfold new_Observer. munfold. cbn [heap with_deps with_heap].
    destruct (new_Dep (deps s)) as [d c1] eqn:Hd.
    assert (Hd1 : d = dep_uid (deps s)) by (by injection Hd as <- _).
    assert (Hc1 : c1 = (new_Dep (deps s)).2) by (by rewrite Hd).
    subst d c1. cbn [heap with_deps with_heap observer_uid].
    cbn [snd] in Hdef. rewrite Hdef.
    rewrite obj_of_attached. cbn [o_array set_props].
    rewrite (flat_array_array E s a F).
    assert (Haug : (if hasProto E then protoAugment a else copyAugment E a arrayKeys)
                     (attached a s) = (Ok tt, augmented E a (attached a s))).
    { unfold augmented. destruct (hasProto E); [done|].
      unfold copyAugment, mbind, M_bind, bind.
      rewrite copy_methods; [done|by_compute| |].
      - intros m _. rewrite obj_of_attached. simpl.
        rewrite lookup_insert_ne by (intros H; by apply (method_name_not_ob m)).
        apply (flat_array_no_methods E s a F).
      - rewrite obj_of_attached. apply (flat_array_extensible E s a F). }
    rewrite Haug.
    assert (Hel : o_elems (obj_of (heap (augmented E a (attached a s))) a) =
                  o_elems (obj_of (heap s) a)).
    { rewrite obj_of_augmented. cbn [set_augmented o_elems].
      destruct (hasProto E); [by rewrite obj_of_attached|].
      destruct (methods_defined_frame E a arrayKeys (attached a s))
        as (_ & _ & _ & _ & _ & _ & -> & _).
      by rewrite obj_of_attached. }
    rewrite observeArray_primitives; [done| |].
    - intros i v. rewrite Hel. apply (flat_array_elems E s a F).
    - intros v s' Hv. by apply observe_primitive. }
  by rewrite Hnew.
Qed.

(** X22. [observe] on an extensible array whose elements are no objects
    attaches a new Observer under [__ob__] and puts the intercepted methods
    in place, through [__proto__] where there is one and as own,
    non-enumerable properties otherwise, so that the seven mutators go
    through the wrapper from then on. The elements stay as they are and no
    closure variables are made: the indices of an array are not converted
    to reactive properties. *)
Theorem observe_array_keeps_elements (E : Env) (fuel a : nat) (s : state) :
  flat_array E s a →
  let o := observer_uid (heap s) in
  let r := observe E (S (S fuel)) (VRef a) false s in
  r.1 = Ok (Some o) ∧
  r.2 = augmented E a (attached a s) ∧
  own_observer (heap r.2) a = Some o ∧
  observer_of (heap r.2) o = mkObserver a (dep_uid (deps s)) 0 ∧
  o_elems (obj_of (heap r.2) a) = o_elems (obj_of (heap s) a) ∧
  cells (heap r.2) = cells (heap s) ∧
  cell_uid (heap r.2) = cell_uid (heap s) ∧
  o_augmented (obj_of (heap r.2) a) = true ∧
  (∀ f m args, call_array_method E f m a args r.2 = mutator E f m a args r.2) ∧
  (hasProto E = false → ∀ m,
     getOwnPropertyDescriptor (heap r.2) a (method_name m) =
     Some (mkProp (SData (VRef (arrayMethod_ref E m))) true false false)) ∧
  dep_uid (deps r.2) = S (dep_uid (deps s)) ∧
  watchers (deps r.2) = watchers (deps s).
Proof.
  intros F o r.
  assert (Hr : r = (Ok (Some o), augmented E a (attached a s)))
    by (by apply observe_array).
  rewrite Hr. cbn [fst snd].
  pose proof (methods_defined_frame E a arrayKeys (attached a s))
    as (M1 & M2 & M3 & M4 & M5 & M6 & M7 & M8 & M9 & M10 & M11).
  assert (Hnd : NoDup arrayKeys) by by_compute.
  assert (Hprops : ∀ k, o_props (obj_of (heap (augmented E a (attached a s))) a) !! k =
     o_props (obj_of (heap (if hasProto E then attached a s
                            else foldl (method_defined E a) (attached a s) arrayKeys)) a) !! k).
  { intros k. by rewrite obj_of_augmented. }
  split_and!.
  - done.
  - done.
  - unfold own_observer, own_observer_of. rewrite Hprops.
    destruct (hasProto E).
    + rewrite obj_of_attached. simpl. by rewrite lookup_insert, decide_True.
    + rewrite M10.
      * rewrite obj_of_attached. simpl. by rewrite lookup_insert, decide_True.
      * intros (m & Heq & _)%list_elem_of_fmap. by apply (method_name_not_ob m).
  - unfold observer_of, augmented. cbn [heap with_heap observers set_obj].
    destruct (hasProto E).
    + simpl. by rewrite lookup_insert, decide_True.
    + rewrite M4. simpl. by rewrite lookup_insert, decide_True.
  - rewrite obj_of_augmented. cbn [set_augmented o_elems].
    destruct (hasProto E); [by rewrite obj_of_attached|].
    by rewrite M7, obj_of_attached.
  - unfold augmented. cbn [heap with_heap cells set_obj].
    destruct (hasProto E); [done|]. by rewrite M2.
  - unfold augmented. cbn [heap with_heap cell_uid set_obj].
    destruct (hasProto E); [done|]. by rewrite M3.
  - by rewrite obj_of_augmented.
  - intros f m args. unfold call_array_method. munfold.
    by rewrite obj_of_augmented.
  - intros Hp m. unfold getOwnPropertyDescriptor. rewrite Hprops, Hp.
    apply M11; [done|]. destruct m; by_compute.
  - unfold augmented. cbn [deps with_heap].
    destruct (hasProto E); [done|]. by rewrite M1.
  - unfold augmented. cbn [deps with_heap].
    destruct (hasProto E); [done|]. by rewrite M1.
Qed.

Lemma observe_array_keeps_elements_witness :
  let E := sample_env false (λ _, ret VUndefined) (λ _ _ _, ret tt) (λ _, ret tt) in
  let s := state_of_heap (heap_of [(0, array_object [VNum (Fin 1); VStr "b"])]) in
  flat_array E s 0 ∧
  (observe E 2 (VRef 0) false s).1 = Ok (Some (observer_uid (heap s))) ∧
  o_elems (obj_of (heap (observe E 2 (VRef 0) false s).2) 0) =
    o_elems (obj_of (heap s) 0) ∧
  cells (heap (observe E 2 (VRef 0) false s).2) = cells (heap s).
Proof.
  intros E s.
  assert (F : flat_array E s 0).
  { split; try by vm_compute.
    intros i v Hi. change (o_elems (obj_of (heap s) 0)) with [VNum (Fin 1); VStr "b"] in Hi.
    destruct i as [|[|i]]; simpl in Hi; [by injection Hi as <-..|done]. }
  pose proof (observe_array_keeps_elements E 0 0 s F)
    as (H1 & _ & _ & _ & H5 & H6 & _).
  split_and!; [exact F | exact H1 | exact H5 | exact H6].
Defined.
